(** * scopething: the serial transport and the scope's planning code

    A shallow embedding of [streams.py] (class [SerialStream]) and of
    [scope.py] (class [Scope]): the timing-regime selection, trigger
    encoding and sample decoding of [capture], the clock search of
    [start_generator] and the calibration record of [load_params] and
    [save_params].

    Python floats are IEEE 754 binary64 values.  They are modelled by
    the Standard Library's [spec_float] with [prec = 53] and
    [emax = 1024], whose operations are executable and round to
    nearest, ties to even, as the hardware does. *)

From Stdlib Require Import ZArith QArith Lia List String Ascii Bool DecimalString.
From Stdlib Require Import SpecFloat Sorted.
From stdpp Require Import base option list gmap strings.

Local Open Scope Z_scope.

(** ** Python values, exceptions and arithmetic *)

Module Py.

(** The exceptions the modelled code can raise.  [RuntimeError] and
    [ValueError] carry their message. *)
Inductive exn : Type :=
  | ZeroDivisionError
  | OverflowError
  | AssertionError
  | IndexError
  | UnboundLocalError
  | StructError
  | KeyError
  | OSError
  | ValueError (msg : string)
  | RuntimeError (msg : string).

(** The outcome of a computation that may raise. *)
Inductive result (A : Type) : Type :=
  | Ok (a : A)
  | Raise (e : exn).
Arguments Ok {A} a.
Arguments Raise {A} e.

Definition bind {A B : Type} (r : result A) (k : A -> result B) : result B :=
  match r with
  | Ok a => k a
  | Raise e => Raise e
  end.

(** [result] is a monad; stdpp's [x ← r; k] sequences two steps and
    propagates the first exception. *)
#[global] Instance result_ret : MRet result := @Ok.
#[global] Instance result_bind : MBind result :=
  fun A B (k : A -> result B) (r : result A) => bind r k.

Definition is_ok {A : Type} (r : result A) : bool :=
  match r with Ok _ => true | Raise _ => false end.

(** [assert cond] *)
Definition assert (cond : bool) : result unit :=
  if cond then Ok tt else Raise AssertionError.

(** *** binary64 *)

Definition float : Type := spec_float.

Definition fadd : float -> float -> float := SFadd 53 1024.
Definition fsub : float -> float -> float := SFsub 53 1024.
Definition fmul : float -> float -> float := SFmul 53 1024.
Definition fabs : float -> float := SFabs.
Definition flt : float -> float -> bool := SFltb.
Definition fle : float -> float -> bool := SFleb.
Definition feq : float -> float -> bool := SFeqb.

Definition is_zero (x : float) : bool :=
  match x with S754_zero _ => true | _ => false end.

Definition is_nan (x : float) : bool :=
  match x with S754_nan => true | _ => false end.

(** The sign bit of a float is clear, or the float is a NaN. *)
Definition not_negative (x : float) : bool :=
  match x with
  | S754_nan => true
  | S754_zero s | S754_infinity s | S754_finite s _ _ => negb s
  end.

(** The magnitude of a float is [2^(b-1)] or more: the float is an
    infinity, or has [b] binary digits or more above its unit
    [2^0], counting those of its exponent. *)
Definition reaches (b : Z) (x : float) : Prop :=
  match x with
  | S754_finite _ m e => b <= Zdigits2 (Zpos m) + e
  | S754_infinity _ => True
  | _ => False
  end.

(** [x / y] on floats: Python raises on a zero divisor where IEEE 754
    would return an infinity or a NaN. *)
Definition fdiv (x y : float) : result float :=
  if is_zero y then Raise ZeroDivisionError else Ok (SFdiv 53 1024 x y).

(** The float nearest to an integer: the conversion Python applies to
    an [int] operand of a mixed operation.  It is exact below [2^53]
    and raises when the integer is beyond the largest float. *)
Definition float_of_int_nearest (z : Z) : float :=
  binary_normalize 53 1024 z 0 false.

Definition float_of_int (z : Z) : result float :=
  match float_of_int_nearest z with
  | S754_infinity _ => Raise OverflowError
  | x => Ok x
  end.

(** A decimal literal [m]e[e10] with [|m| < 2^53] and [|e10| <= 22]:
    both [m] and the power of ten are floats, so one correctly rounded
    operation gives the float nearest to the literal. *)
Definition literal (m e10 : Z) : float :=
  if 0 <=? e10 then float_of_int_nearest (m * 10 ^ e10)
  else SFdiv 53 1024 (float_of_int_nearest m) (float_of_int_nearest (10 ^ (- e10))).

(** The integer part of [m * 2^e], towards zero. *)
Definition trunc_mag (m : positive) (e : Z) : Z := Z.shiftl (Zpos m) e.

(** [m * 2^e] rounded to the nearest integer, ties to even. *)
Definition round_mag (m : positive) (e : Z) : Z :=
  if 0 <=? e then Z.shiftl (Zpos m) e
  else
    let q := Z.shiftr (Zpos m) (- e) in
    let r := Zpos m - Z.shiftl q (- e) in
    match r ?= Z.shiftl 1 (- e - 1) with
    | Lt => q
    | Gt => q + 1
    | Eq => if Z.even q then q else q + 1
    end.

(** [int(x)] for a float [x]. *)
Definition int_of_float (x : float) : result Z :=
  match x with
  | S754_zero _ => Ok 0
  | S754_finite s m e => Ok (cond_Zopp s (trunc_mag m e))
  | S754_infinity _ => Raise OverflowError
  | S754_nan => Raise (ValueError "cannot convert float NaN to integer")
  end.

(** [round(x)] for a float [x]: an [int], ties to even. *)
Definition round_float (x : float) : result Z :=
  match x with
  | S754_zero _ => Ok 0
  | S754_finite s m e => Ok (cond_Zopp s (round_mag m e))
  | S754_infinity _ => Raise OverflowError
  | S754_nan => Raise (ValueError "cannot convert float NaN to integer")
  end.

(** [math.floor(x)] for a finite float [x]: the greatest integer not
    above it. *)
Definition floor_float (x : float) : option Z :=
  match x with
  | S754_zero _ => Some 0
  | S754_finite s m e => Some (Z.shiftl (cond_Zopp s (Zpos m)) e)
  | _ => None
  end.

(** The exact value of a finite float, as a rational. *)
Definition Q_of_float (x : float) : option Q :=
  match x with
  | S754_zero _ => Some 0%Q
  | S754_finite s m e =>
      Some (if 0 <=? e then inject_Z (cond_Zopp s (Zpos m * 2 ^ e))
            else Qmake (cond_Zopp s (Zpos m)) (Z.to_pos (2 ^ (- e))))
  | _ => None
  end.

(** A float is finite and its value is the rational [q]. *)
Definition represents (x : float) (q : Q) : Prop :=
  match Q_of_float x with
  | Some v => (v == q)%Q
  | None => False
  end.

Definition representsb (x : float) (q : Q) : bool :=
  match Q_of_float x with
  | Some v => Qeq_bool v q
  | None => false
  end.

(** [str(n)] for an [int]. *)
Definition str_of_int (n : Z) : string := NilZero.string_of_int (Z.to_int n).

(** [c.lower()] on the ASCII range. *)
Definition lower_ascii (c : ascii) : ascii :=
  let n := nat_of_ascii c in
  if ((65 <=? n)%nat && (n <=? 90)%nat)%bool then ascii_of_nat (n + 32) else c.

Fixpoint lower (s : string) : string :=
  match s with
  | EmptyString => EmptyString
  | String c s' => String (lower_ascii c) (lower s')
  end.

(** [x in l] for a list of strings. *)
Definition contains (x : string) (l : list string) : bool :=
  existsb (String.eqb x) l.

(** [sorted(l)]: a stable sort that compares with [<] only, here by
    insertion.  On elements that [<] orders totally every such sort
    returns the same list. *)
Fixpoint insert_sorted {A : Type} (lt : A -> A -> bool) (x : A) (l : list A) : list A :=
  match l with
  | [] => [x]
  | y :: l' => if lt x y then x :: l else y :: insert_sorted lt x l'
  end.

Definition sorted {A : Type} (lt : A -> A -> bool) (l : list A) : list A :=
  fold_left (fun acc x => insert_sorted lt x acc) l [].

(** [enumerate(l)] *)
Definition enumerate {A : Type} (l : list A) : list (Z * A) :=
  imap (fun i x => (Z.of_nat i, x)) l.

(** *** binary32, the [f] format of [struct] *)

(** [(float)x], the conversion of a double to single precision: the
    result is a float of the format with [prec = 24], [emax = 128]. *)
Definition round_single (x : float) : float :=
  match x with
  | S754_finite s m e => binary_round 24 128 s m e
  | _ => x
  end.

(** A single-precision value read as a double: the same number, in
    the representation of the wider format. *)
Definition double_of_single (x : float) : float :=
  match x with
  | S754_finite s m e => binary_round 53 1024 s m e
  | _ => x
  end.

Definition sign_bit (s : bool) : Z := if s then 2 ^ 31 else 0.

(** The 32 bits of a single-precision value: sign, 8 bits of biased
    exponent, 23 bits of fraction.  A NaN is the quiet NaN. *)
Definition bits_of_single (x : float) : Z :=
  match x with
  | S754_zero s => sign_bit s
  | S754_infinity s => sign_bit s + 255 * 2 ^ 23
  | S754_nan => 255 * 2 ^ 23 + 2 ^ 22
  | S754_finite s m e =>
      if Zpos m <? 2 ^ 23 then sign_bit s + Zpos m
      else sign_bit s + (e + 150) * 2 ^ 23 + (Zpos m - 2 ^ 23)
  end.

Definition single_of_bits (b : Z) : float :=
  let s := Z.testbit b 31 in
  let e := (b / 2 ^ 23) `mod` 256 in
  let f := b `mod` 2 ^ 23 in
  if e =? 0 then
    match f with
    | Zpos m => S754_finite s m (-149)
    | _ => S754_zero s
    end
  else if e =? 255 then
    if f =? 0 then S754_infinity s else S754_nan
  else
    match f + 2 ^ 23 with
    | Zpos m => S754_finite s m (e - 150)
    | _ => S754_nan
    end.

(** [n] bytes of an unsigned integer, least significant first. *)
Fixpoint le_bytes (n : nat) (v : Z) : list Z :=
  match n with
  | O => []
  | S n' => v `mod` 256 :: le_bytes n' (v / 256)
  end.

Fixpoint le_value (bs : list Z) : Z :=
  match bs with
  | [] => 0
  | b :: bs' => b + 256 * le_value bs'
  end.

(** [struct.pack('<f', x)]: a finite double beyond the single range
    is an error. *)
Definition pack_f (x : float) : result (list Z) :=
  match x, round_single x with
  | S754_finite _ _ _, S754_infinity _ => Raise OverflowError
  | _, y => Ok (le_bytes 4 (bits_of_single y))
  end.

(** [struct.unpack('<f', bs)[0]] for four bytes [bs]. *)
Definition unpack_f (bs : list Z) : float :=
  double_of_single (single_of_bits (le_value bs)).

(** [bytes(l)] for a list of integers. *)
Definition bytes_of_ints (l : list Z) : result (list Z) :=
  if forallb (fun b => (0 <=? b) && (b <? 256)) l then Ok l
  else Raise (ValueError "bytes must be in range(0, 256)").

(** [a / b] for two integers below [2^53] and [b] not zero: the
    operands convert exactly and the quotient is rounded once. *)
Definition int_truediv (a b : Z) : float :=
  SFdiv 53 1024 (float_of_int_nearest a) (float_of_int_nearest b).

(** [a / b] for two integers that are floats (such as the results of
    [int(x)] and [round(x)] on a float [x]): again one rounding. *)
Definition int_div (a b : Z) : result float :=
  if b =? 0 then Raise ZeroDivisionError
  else
    x ← float_of_int a;
    y ← float_of_int b;
    Ok (SFdiv 53 1024 x y).

(** [range(a, b)] *)
Fixpoint range_from (n : nat) (a : Z) : list Z :=
  match n with
  | O => []
  | S n' => a :: range_from n' (a + 1)
  end.

Definition range (a b : Z) : list Z := range_from (Z.to_nat (b - a)) a.

(** [l[-1]] on a list that is not empty. *)
Definition last_item {A : Type} (l : list A) : option A := last l.

(** [int(s, 16)] on a token of hexadecimal digits.  Python's parser
    also accepts a sign, a [0x] prefix, underscores and surrounding
    blanks. *)
Definition hex_digit (c : ascii) : option Z :=
  let n := Z.of_nat (nat_of_ascii c) in
  if (48 <=? n) && (n <=? 57) then Some (n - 48)
  else if (65 <=? n) && (n <=? 70) then Some (n - 55)
  else if (97 <=? n) && (n <=? 102) then Some (n - 87)
  else None.

Fixpoint hex_value (acc : Z) (s : string) : option Z :=
  match s with
  | EmptyString => Some acc
  | String c s' =>
      match hex_digit c with
      | Some d => hex_value (16 * acc + d) s'
      | None => None
      end
  end.

Definition int_base16 (s : string) : result Z :=
  match s with
  | EmptyString => Raise (ValueError "invalid literal for int() with base 16")
  | _ =>
      match hex_value 0 s with
      | Some n => Ok n
      | None => Raise (ValueError "invalid literal for int() with base 16")
      end
  end.

(** The value of a byte, as iterating over [bytes] gives it. *)
Definition byte_value (b : Byte.byte) : Z := Z.of_N (Byte.to_N b).

End Py.

(** ** The transport of [streams.py] *)

Module Streams.
Import Py.

(** What [self._connection.write(data)] does with one attempt: the
    non-blocking port takes at most [room] bytes from the front of
    [data] and returns their number, raises
    [serial.SerialTimeoutException], or raises another exception. *)
Inductive behaviour : Type :=
  | Accepts (room : nat)
  | TimesOut
  | Fails.

(** The state of the future in [self._output_buffer_empty]: still
    pending, or completed by [set_exception]. *)
Inductive future : Type :=
  | Pending
  | Failed.

(** A [SerialStream] with its port and the event loop's writer
    registration.  [received] is what the port has accepted so far and
    [attempts] counts the calls of [self._connection.write]. *)
Record SerialStream : Type := {
  _output_buffer : list Byte.byte;
  _output_buffer_empty : option future;
  writer : bool;
  received : list Byte.byte;
  attempts : nat
}.

(** The stream [__init__] leaves. *)
Definition opened : SerialStream := {|
  _output_buffer := [];
  _output_buffer_empty := None;
  writer := false;
  received := [];
  attempts := 0
|}.

Definition is_empty (data : list Byte.byte) : bool :=
  match data with [] => true | _ => false end.

Section Port.

(** The port's behaviour at each attempt. *)
Variable port : nat -> behaviour.

(** [self._connection.write(data)] under the two [except] clauses:
    the number of bytes written ([0] on a timeout), or the exception. *)
Definition connection_write (st : SerialStream) (data : list Byte.byte)
  : result nat * SerialStream :=
  let count (taken : list Byte.byte) := {|
    _output_buffer := _output_buffer st;
    _output_buffer_empty := _output_buffer_empty st;
    writer := writer st;
    received := received st ++ taken;
    attempts := S (attempts st)
  |} in
  match port (attempts st) with
  | Accepts room =>
      let n := Nat.min room (length data) in
      (Ok n, count (take n data))
  | TimesOut => (Ok 0%nat, count [])
  | Fails => (Raise OSError, count [])
  end.

Definition set_buffer (st : SerialStream) (data : list Byte.byte) : SerialStream := {|
  _output_buffer := data;
  _output_buffer_empty := _output_buffer_empty st;
  writer := writer st;
  received := received st;
  attempts := attempts st
|}.

(** Lines 63 to 65: arm the completion future and register
    [_feed_data] as the writer. *)
Definition arm (st : SerialStream) : SerialStream :=
  match _output_buffer st, _output_buffer_empty st with
  | _ :: _, None => {|
      _output_buffer := _output_buffer st;
      _output_buffer_empty := Some Pending;
      writer := true;
      received := received st;
      attempts := attempts st
    |}
  | _, _ => st
  end.

(** [write(data)] *)
Definition write (st : SerialStream) (data : list Byte.byte)
  : result unit * SerialStream :=
  if is_empty (_output_buffer st) then
    match connection_write st data with
    | (Ok n, st') => (Ok tt, arm (set_buffer st' (drop n data)))
    | (Raise e, st') => (Raise e, st')
    end
  else (Ok tt, arm (set_buffer st (_output_buffer st ++ data))).

(** [_feed_data()], the callback the event loop runs when the port
    is writable.  After an exception other than a timeout the name
    [n] is unbound, and the callback ends there. *)
Definition _feed_data (st : SerialStream) : SerialStream :=
  match connection_write st (_output_buffer st) with
  | (Raise _, st') => {|
      _output_buffer := _output_buffer st';
      _output_buffer_empty := Some Failed;
      writer := false;
      received := received st';
      attempts := attempts st'
    |}
  | (Ok n, st') =>
      let st' := if (0 <? n)%nat then set_buffer st' (drop n (_output_buffer st')) else st' in
      if is_empty (_output_buffer st') then {|
        _output_buffer := _output_buffer st';
        _output_buffer_empty := None;
        writer := false;
        received := received st';
        attempts := attempts st'
      |}
      else st'
  end.

(** One turn of the event loop while the port is writable: the
    registered writer runs. *)
Definition loop_turn (st : SerialStream) : SerialStream :=
  if writer st then _feed_data st else st.

(** [await drain()], given [turns] turns of the event loop: [None]
    when the coroutine is still suspended after them. *)
Fixpoint drain (turns : nat) (st : SerialStream) : option (result unit) * SerialStream :=
  match _output_buffer_empty st with
  | None => (Some (Ok tt), st)
  | Some Failed => (Some (Raise OSError), st)
  | Some Pending =>
      match turns with
      | O => (None, st)
      | S turns' => drain turns' (loop_turn st)
      end
  end.

(** A caller's history: calls of [write], with turns of the event
    loop in between. *)
Inductive action : Type :=
  | Write (data : list Byte.byte)
  | Turn.

(** The stream after a history, with the bytes of the writes that
    returned, in call order; a [write] that raises ends the history. *)
Fixpoint run (st : SerialStream) (written : list Byte.byte) (h : list action)
  : result (SerialStream * list Byte.byte) :=
  match h with
  | [] => Ok (st, written)
  | Write data :: h' =>
      match write st data with
      | (Ok _, st') => run st' (written ++ data) h'
      | (Raise e, _) => Raise e
      end
  | Turn :: h' => run (loop_turn st) written h'
  end.

(** The future is armed exactly while bytes wait, and the writer is
    registered exactly while the future is pending. *)
Definition consistent (st : SerialStream) : Prop :=
  (_output_buffer_empty st = None <-> _output_buffer st = []) /\
  (writer st = true <-> _output_buffer_empty st = Some Pending).

(** The room the port offers at an attempt that does not fail. *)
Definition offered (b : behaviour) : option nat :=
  match b with
  | Accepts room => Some room
  | TimesOut => Some 0%nat
  | Fails => None
  end.

(** A port that takes at least one byte at every attempt. *)
Definition generous : Prop := forall i, exists room, port i = Accepts (S room).

End Port.

End Streams.

(** ** The receiving side of [streams.py] ([read], [readexactly]) *)

Module Input.
Import Py.

(** The receive queue of the port: the bytes [in_waiting] counts, and
    the number of times the stream has looked at it. *)
Record connection : Type := {
  in_waiting : list Byte.byte;
  polls : nat
}.

Section Source.

(** The bytes that reach the port between one look at [in_waiting]
    and the next; an empty burst is a wake-up with nothing to read. *)
Variable source : nat -> list Byte.byte.

(** [w = self._connection.in_waiting]: what has arrived since the last
    look is now waiting. *)
Definition look (c : connection) : connection := {|
  in_waiting := in_waiting c ++ source (polls c);
  polls := S (polls c)
|}.

(** [self._connection.read(size)] on a port opened with [timeout=0]. *)
Definition connection_read (c : connection) (size : nat)
  : list Byte.byte * connection :=
  (take size (in_waiting c),
   {| in_waiting := drop size (in_waiting c); polls := polls c |}).

(** [read(n)], given [turns] wake-ups by the event loop: [None] when
    the coroutine still waits for its reader future after them. *)
Fixpoint read (turns : nat) (n : option Z) (c : connection)
  : option (list Byte.byte) * connection :=
  let c := look c in
  let w := length (in_waiting c) in
  if (0 <? w)%nat then
    let size := match n with
                | None => w
                | Some n => Z.to_nat (Z.min n (Z.of_nat w))
                end in
    let '(data, c) := connection_read c size in
    (Some data, c)
  else
    match turns with
    | O => (None, c)
    | S turns' => read turns' n c
    end.

(** The [while len(data) < n] loop of [readexactly].  Every round that
    returns adds a byte or more to [data], so [rounds] is never used up
    when it starts at [n]. *)
Fixpoint readexactly_from (rounds turns : nat) (n : Z) (data : list Byte.byte)
    (c : connection) : option (list Byte.byte) * connection :=
  if Z.of_nat (length data) <? n then
    match rounds with
    | O => (None, c)
    | S rounds' =>
        match read turns (Some (n - Z.of_nat (length data))) c with
        | (Some more, c') => readexactly_from rounds' turns n (data ++ more) c'
        | (None, c') => (None, c')
        end
    end
  else (Some data, c).

(** [readexactly(n)], when each [read] it awaits is given [turns]
    wake-ups. *)
Definition readexactly (turns : nat) (n : Z) (c : connection)
  : option (list Byte.byte) * connection :=
  readexactly_from (Z.to_nat n) turns n [] c.

(** The bytes of [k] bursts from burst [i] on. *)
Definition arrived (i k : nat) : list Byte.byte :=
  concat (map source (seq i k)).

End Source.

End Input.


(** ** Finding the port ([devices_matching], [stream_matching]) *)

Module Lookup.
Import Py Streams.

(** An entry of [serial.tools.list_ports.comports()]; an attribute the
    port does not have is [None]. *)
Module ListPortInfo.
Record t : Type := {
  device : string;
  vid : option Z;
  pid : option Z;
  serial_number : option string
}.
End ListPortInfo.

(** [want is None or want == have] *)
Definition accepts {A : Type} (eqb : A -> A -> bool) (want have : option A) : bool :=
  match want with
  | None => true
  | Some x => match have with Some y => eqb x y | None => false end
  end.

(** The condition of line 24. *)
Definition matches (vid pid : option Z) (serial : option string) (port : ListPortInfo.t)
  : bool :=
  accepts Z.eqb vid (ListPortInfo.vid port)
  && accepts Z.eqb pid (ListPortInfo.pid port)
  && accepts String.eqb serial (ListPortInfo.serial_number port).

(** [devices_matching]: the devices the generator yields, in order. *)
Definition devices_matching (comports : list ListPortInfo.t)
    (vid pid : option Z) (serial : option string) : list string :=
  map ListPortInfo.device (List.filter (matches vid pid serial) comports).

Section Open.

(** [serial.Serial(device, timeout=0, write_timeout=0, **kwargs)],
    which [__init__] calls: it opens the device or raises. *)
Variable Serial : string -> result unit.

(** [stream_matching]: the [return] in the body of the [for] ends the
    loop at the first device. *)
Definition stream_matching (comports : list ListPortInfo.t)
    (vid pid : option Z) (serial : option string) : result (string * SerialStream) :=
  match devices_matching comports vid pid serial with
  | device :: _ => _ ← Serial device; Ok (device, opened)
  | [] => Raise (RuntimeError "No matching serial device")
  end.

End Open.

End Lookup.

(** ** The command layer [vm.py]

    [vm.py] is not among the sources.  Its enumerations are kept by
    name, its integer flag constants are parameters, and what it sends
    to the device is recorded as a log of events. *)

Module Vm.
Import Py.

Module DumpMode.
Inductive t : Type := Native | Raw.
End DumpMode.

Module TraceMode.
Inductive t : Type :=
    | Macro | MacroChop | Analog | AnalogChop
    | AnalogFast | AnalogFastChop | AnalogShot | AnalogShotChop.
End TraceMode.

Module BufferMode.
Inductive t : Type := Single | Chop | Macro | MacroChop.
End BufferMode.

(** The flag constants [vm.SpockOption.*], [vm.KitchenSinkA.*] and
    [vm.KitchenSinkB.*] that [scope.py] combines with [|]. *)
Record flags : Type := {
  TriggerTypeHardwareComparator : Z;
  TriggerSourceA : Z;
  TriggerSourceB : Z;
  TriggerInvert : Z;
  ChannelAComparatorEnable : Z;
  ChannelBComparatorEnable : Z;
  AnalogFilterEnable : Z;
  WaveformGeneratorEnable : Z
}.

(** A register value as [scope.py] passes it to [set_registers]. *)
Inductive value : Type :=
  | VInt (n : Z)
  | VFloat (x : float)
  | VTrace (m : TraceMode.t)
  | VBuffer (m : BufferMode.t)
  | VDump (m : DumpMode.t).

Inductive command : Type :=
  | program_spock_registers
  | configure_device_hardware
  | triggered_trace
  | analog_dump_binary
  | synthesize_wavetable
  | translate_wavetable
  | control_waveform_generator
  | wavetable_write_bytes (table : list Z)
  | issue (text : string).

(** What the session does to the command layer, in order.
    [TransactionExit raised] closes an [async with self.transaction()]
    block; [raised] tells whether an exception left the block. *)
Inductive event : Type :=
  | TransactionEnter
  | TransactionExit (raised : bool)
  | SetRegisters (kw : list (string * value))
  | Issue (c : command).

(** A flag is set in an option word when all its bits are. *)
Definition has_flag (word flag : Z) : bool := Z.land word flag =? flag.

(** [TriggerInvert] is a bit of its own: it is not zero and shares no
    bit with the other flags that go into the SpockOption word. *)
Definition invert_is_own_bit (fl : flags) : Prop :=
  TriggerInvert fl <> 0 /\
  Z.land (TriggerTypeHardwareComparator fl) (TriggerInvert fl) = 0 /\
  Z.land (TriggerSourceA fl) (TriggerInvert fl) = 0 /\
  Z.land (TriggerSourceB fl) (TriggerInvert fl) = 0.

(** The value a [set_registers] call gives to a register. *)
Fixpoint register (name : string) (kw : list (string * value)) : option value :=
  match kw with
  | [] => None
  | (k, v) :: kw' => if String.eqb k name then Some v else register name kw'
  end.

End Vm.

(** ** The device session of [scope.py] *)

Module Scope.
Import Py Vm.

(** *** Session state and the device's answers *)

(** The attributes [setup] gives a session: the hardware profile and
    the two calibration triples.  The integer attributes stay integers;
    they are below [2^53], so Python's mixed arithmetic converts them
    without rounding. *)
Record scope : Type := {
  awg_clock_period : float;
  awg_wavetable_size : Z;
  awg_sample_buffer_size : Z;
  awg_minimum_clock : Z;
  awg_maximum_voltage : float;
  analog_low_ks : float * float * float;
  analog_high_ks : float * float * float;
  analog_min : float;
  analog_max : float;
  capture_clock_period : float;
  capture_buffer_size : Z;
  trigger_timeout_tick : float;
  trigger_low : float;
  trigger_high : float
}.

(** The profile [setup] selects for a revision starting with [BS0005].
    The six calibration coefficients have more digits than [literal]
    takes; they are given as the doubles nearest to
    0.43307040504672523, 0.060970272170312846, -0.0037186072558476487
    and 0.37575241029061407, -0.0039308497942329686,
    0.060955881466731247. *)
Definition BS0005 : scope := {|
  awg_clock_period := literal 25 (-9);
  awg_wavetable_size := 1024;
  awg_sample_buffer_size := 1024;
  awg_minimum_clock := 33;
  awg_maximum_voltage := literal 33 (-1);
  analog_low_ks := (S754_finite false 7801502859174486 (-54),
                    S754_finite false 8786742240860757 (-57),
                    S754_finite true 8574524544907619 (-61));
  analog_high_ks := (S754_finite false 6768953659873501 (-54),
                     S754_finite true 4531961259150589 (-60),
                     S754_finite false 8784668321907551 (-57));
  analog_min := literal (-57) (-1);
  analog_max := literal 8 0;
  capture_clock_period := literal 25 (-9);
  capture_buffer_size := 12 * 1024;
  trigger_timeout_tick := literal 64 (-7);
  trigger_low := literal (-7517) (-3);
  trigger_high := literal 10816 (-3)
|}.

(** The arguments of [capture]; [None] is Python's [None]. *)
Record capture_args : Type := {
  channels : list string;
  trigger_channel : option string;
  trigger_level : float;
  trigger_type : string;
  period : float;
  nsamples : Z;
  timeout : option float;
  low : option float;
  high : option float;
  raw : bool
}.

(** [capture()] with every argument at its default. *)
Definition default_args : capture_args := {|
  channels := ["A"%string];
  trigger_channel := None;
  trigger_level := literal 0 0;
  trigger_type := "rising";
  period := literal 1 (-3);
  nsamples := 1000;
  timeout := None;
  low := None;
  high := None;
  raw := false
|}.

(** The world a session talks to: the events sent so far, the reply
    tokens the device will give to [read_replies], and the bytes it will
    deliver to [self._stream]. *)
Record world : Type := {
  log : list event;
  replies : list string;
  incoming : list Byte.byte
}.

(** A coroutine either returns, raises, or waits for ever on input
    that never comes. *)
Inductive outcome (A : Type) : Type :=
  | Returns (a : A)
  | Raises (e : exn)
  | Blocks.
Arguments Returns {A} a.
Arguments Raises {A} e.
Arguments Blocks {A}.

Definition io (A : Type) : Type := world -> outcome A * world.

#[global] Instance io_ret : MRet io := fun A a w => (Returns a, w).
#[global] Instance io_bind : MBind io := fun A B (k : A -> io B) (m : io A) w =>
  match m w with
  | (Returns a, w') => k a w'
  | (Raises e, w') => (Raises e, w')
  | (Blocks, w') => (Blocks, w')
  end.

Definition lift {A : Type} (r : result A) : io A := fun w =>
  match r with
  | Ok a => (Returns a, w)
  | Raise e => (Raises e, w)
  end.

Definition emit (e : event) : io unit := fun w =>
  (Returns tt, {| log := log w ++ [e]; replies := replies w; incoming := incoming w |}).

(** [async with self.transaction(): body] *)
Definition transaction {A : Type} (body : io A) : io A := fun w =>
  match emit TransactionEnter w with
  | (_, w1) =>
      match body w1 with
      | (Returns a, w2) => (Returns a, snd (emit (TransactionExit false) w2))
      | (Raises e, w2) => (Raises e, snd (emit (TransactionExit true) w2))
      | (Blocks, w2) => (Blocks, w2)
      end
  end.

Definition set_registers (kw : list (string * value)) : io unit :=
  emit (SetRegisters kw).

Definition issue_command (c : command) : io unit := emit (Issue c).

(** Modelled from the spec: [read_replies(n)], the reply reader of the
    command layer, "returning a fixed count of ASCII-encoded tokens";
    it waits until the device has given that many. *)
Definition read_replies (n : nat) : io (list string) := fun w =>
  if (n <=? length (replies w))%nat
  then (Returns (take n (replies w)),
        {| log := log w; replies := drop n (replies w); incoming := incoming w |})
  else (Blocks, w).

(** [self._stream.readexactly(n)]: the loop of [streams.py] gathers
    bytes until it holds [n] of them, and returns at once when
    [n <= 0]. *)
Definition readexactly (n : Z) : io (list Byte.byte) := fun w =>
  let k := Z.to_nat n in
  if (k <=? length (incoming w))%nat
  then (Returns (take k (incoming w)),
        {| log := log w; replies := replies w; incoming := drop k (incoming w) |})
  else (Blocks, w).

(** *** [capture]: timing regime (lines 64 to 115) *)

Definition both_channels (chans : list string) : bool :=
  contains "A" chans && contains "B" chans.

Definition nsamples_multiplier (chans : list string) : Z :=
  if both_channels chans then 2 else 1.

(** [period / nsamples / nsamples_multiplier / self.capture_clock_period] *)
Definition ticks_quotient (s : scope) (a : capture_args) : result float :=
  n ← float_of_int (nsamples a);
  x ← fdiv (period a) n;
  m ← float_of_int (nsamples_multiplier (channels a));
  x ← fdiv x m;
  fdiv x (capture_clock_period s).

(** [ticks = int(...)], line 68. *)
Definition requested_ticks (s : scope) (a : capture_args) : result Z :=
  q ← ticks_quotient s a;
  int_of_float q.

(** What one branch of the regime selection fixes; [ticks] is the
    value of the variable [ticks] when the branch is left. *)
Record regime : Type := {
  ticks : Z;
  sample_width : Z;
  buffer_width : Z;
  dump_mode : DumpMode.t;
  trace_mode : TraceMode.t;
  buffer_mode : BufferMode.t
}.

(** The [if]/[elif] chain of lines 69 to 112. *)
Definition select_regime (chans : list string) (ticks : Z) : result regime :=
  if (40 <=? ticks) && (ticks <? 65536) then
    Ok {| ticks := ticks; sample_width := 2; buffer_width := 6 * 1024;
          dump_mode := DumpMode.Native;
          trace_mode := if both_channels chans then TraceMode.MacroChop else TraceMode.Macro;
          buffer_mode := if both_channels chans then BufferMode.MacroChop else BufferMode.Macro |}
  else if (15 <=? ticks) && (ticks <? 40) then
    Ok {| ticks := ticks; sample_width := 1; buffer_width := 12 * 1024;
          dump_mode := DumpMode.Raw;
          trace_mode := if both_channels chans then TraceMode.AnalogChop else TraceMode.Analog;
          buffer_mode := if both_channels chans then BufferMode.Chop else BufferMode.Single |}
  else if (8 <=? ticks) && (ticks <? 15) then
    Ok {| ticks := ticks; sample_width := 1; buffer_width := 12 * 1024;
          dump_mode := DumpMode.Raw;
          trace_mode := if both_channels chans then TraceMode.AnalogFastChop else TraceMode.AnalogFast;
          buffer_mode := if both_channels chans then BufferMode.Chop else BufferMode.Single |}
  else if (2 <=? ticks) && (ticks <? 8) then
    let ticks := if 5 <? ticks then 5 else ticks in
    Ok {| ticks := ticks; sample_width := 1; buffer_width := 12 * 1024;
          dump_mode := DumpMode.Raw;
          trace_mode := if both_channels chans then TraceMode.AnalogShotChop else TraceMode.AnalogShot;
          buffer_mode := if both_channels chans then BufferMode.Chop else BufferMode.Single |}
  else Raise (RuntimeError ("Unsupported clock period: " ++ str_of_int ticks)).

(** [round(period / ticks / nsamples_multiplier / self.capture_clock_period)],
    line 113, for the [ticks] the regime left. *)
Definition recomputed_nsamples (s : scope) (a : capture_args) (ticks : Z) : result Z :=
  t ← float_of_int ticks;
  x ← fdiv (period a) t;
  m ← float_of_int (nsamples_multiplier (channels a));
  x ← fdiv x m;
  x ← fdiv x (capture_clock_period s);
  round_float x.

(** The local variables of [capture] after line 115. *)
Record timing : Type := {
  multiplier : Z;
  mode : regime;
  count : Z;
  total_samples : Z
}.

Definition capture_timing (s : scope) (a : capture_args) : result timing :=
  t ← requested_ticks s a;
  r ← select_regime (channels a) t;
  n ← recomputed_nsamples s a (ticks r);
  let total := n * nsamples_multiplier (channels a) in
  _ ← assert (total <=? buffer_width r);
  Ok {| multiplier := nsamples_multiplier (channels a); mode := r;
        count := n; total_samples := total |}.

(** *** [capture]: value range and trigger encoding (lines 117 to 142) *)

Section Session.

(** The flag constants of [vm.py]. *)
Variable fl : flags.

(** [int(token.decode('ascii'), 16)], Python's parser of a reply token. *)
Variable int16 : string -> result Z.

(** The local variables of [capture] after line 142. *)
Record encoding : Type := {
  low_value : float;
  high_value : float;
  trigger : string;
  spock_option : Z;
  kitchen_sink_a : option Z;
  trigger_intro : Z;
  level : float;
  analog_enable : Z
}.

(** Lines 122 to 125. *)
Definition effective_trigger_channel (a : capture_args) : result string :=
  match trigger_channel a with
  | None =>
      match channels a with
      | c :: _ => Ok c
      | [] => Raise IndexError
      end
  | Some c => _ ← assert (contains c (channels a)); Ok c
  end.

(** Lines 133 to 135, on the lower-cased trigger type. *)
Definition inverts (trigger_type : string) : bool :=
  contains (lower trigger_type) ["falling"%string; "below"%string].

Definition intro_samples (trigger_type : string) : Z :=
  if contains (lower trigger_type) ["above"%string; "below"%string] then 0 else 4.

Definition capture_trigger (s : scope) (a : capture_args) : result encoding :=
  let lo := match low a with
            | None => if raw a then literal 0 0 else analog_min s
            | Some x => x
            end in
  let hi := match high a with
            | None => if raw a then literal 1 0 else analog_max s
            | Some x => x
            end in
  tc ← effective_trigger_channel a;
  let spock := TriggerTypeHardwareComparator fl in
  let '(ksa, spock) :=
    if String.eqb tc "A" then
      (Some (ChannelAComparatorEnable fl), Z.lor spock (TriggerSourceA fl))
    else if String.eqb tc "B" then
      (Some (ChannelBComparatorEnable fl), Z.lor spock (TriggerSourceB fl))
    else (None, spock) in
  let spock := if inverts (trigger_type a) then Z.lor spock (TriggerInvert fl) else spock in
  lv ← (if raw a then Ok (trigger_level a)
        else fdiv (fsub (trigger_level a) (trigger_low s))
                  (fsub (trigger_high s) (trigger_low s)));
  let enable := 0 in
  let enable := if contains "A" (channels a) then Z.lor enable 1 else enable in
  let enable := if contains "B" (channels a) then Z.lor enable 2 else enable in
  Ok {| low_value := lo; high_value := hi; trigger := tc; spock_option := spock;
        kitchen_sink_a := ksa; trigger_intro := intro_samples (trigger_type a);
        level := lv; analog_enable := enable |}.

(** *** [capture]: the register block (lines 144 to 157) *)

(** [Scope._analog_map_func] *)
Definition _analog_map_func (ks : float * float * float) (lo hi : float) : float :=
  let '(k0, k1, k2) := ks in
  fadd (fadd k0 (fmul k1 lo)) (fmul k2 hi).

(** The keyword arguments of the first [set_registers], evaluated in
    the order they are written. *)
Definition capture_registers (s : scope) (a : capture_args) (t : timing) (e : encoding)
  : result (list (string * value)) :=
  let wait := match timeout a with
              | None => fmul (period a) (literal 5 0)
              | Some x => x
              end in
  x ← fdiv wait (trigger_timeout_tick s);
  timeout_ticks ← round_float x;
  let converter_lo :=
    if raw a then low_value e
    else _analog_map_func (analog_low_ks s) (low_value e) (high_value e) in
  let converter_hi :=
    if raw a then high_value e
    else _analog_map_func (analog_high_ks s) (low_value e) (high_value e) in
  ksa ← match kitchen_sink_a e with
        | Some k => Ok k
        | None => Raise UnboundLocalError
        end;
  Ok [ ("TraceMode"%string, VTrace (trace_mode (mode t)));
       ("ClockTicks"%string, VInt (ticks (mode t)));
       ("ClockScale"%string, VInt 1);
       ("TraceIntro"%string, VInt (total_samples t / 2));
       ("TraceOutro"%string, VInt (total_samples t / 2));
       ("TraceDelay"%string, VInt 0);
       ("Timeout"%string, VInt timeout_ticks);
       ("TriggerMask"%string, VInt 127);
       ("TriggerLogic"%string, VInt 128);
       ("TriggerLevel"%string, VFloat (level e));
       ("TriggerIntro"%string, VInt (trigger_intro e));
       ("TriggerOutro"%string, VInt 4);
       ("SpockOption"%string, VInt (spock_option e));
       ("Prelude"%string, VInt 0);
       ("ConverterLo"%string, VFloat converter_lo);
       ("ConverterHi"%string, VFloat converter_hi);
       ("KitchenSinkA"%string, VInt ksa);
       ("KitchenSinkB"%string,
        VInt (Z.lor (AnalogFilterEnable fl) (WaveformGeneratorEnable fl)));
       ("AnalogEnable"%string, VInt (analog_enable e));
       ("BufferMode"%string, VBuffer (buffer_mode (mode t)));
       ("SampleAddress"%string, VInt 0) ].

(** *** [capture]: waiting for the trace (lines 158 to 167) *)

(** The [while True] loop over the reply queue: every round is a
    [read_replies(2)], and a code other than 2 ends it.  The recursion
    is on the queue, which each round shortens by two tokens. *)
Fixpoint await_trace_on (rs : list string) : outcome unit * list string :=
  match rs with
  | code :: timestamp :: rest =>
      match int16 code with
      | Raise e => (Raises e, rest)
      | Ok c =>
          match int16 timestamp with
          | Raise e => (Raises e, rest)
          | Ok _ => if c =? 2 then await_trace_on rest else (Returns tt, rest)
          end
      end
  | _ => (Blocks, rs)
  end.

Definition await_trace : io unit := fun w =>
  let '(o, rest) := await_trace_on (replies w) in
  (o, {| log := log w; replies := rest; incoming := incoming w |}).

(** Line 167. *)
Definition read_address (mult : Z) : io Z :=
  r ← read_replies 1;
  match r with
  | token :: _ => n ← lift (int16 token); mret (n / mult)
  | [] => lift (Raise IndexError)
  end.

(** *** [capture]: dumping and decoding (lines 168 to 188) *)

(** The values of [struct.unpack('>{}h'.format(n), data)] when the
    format fits: big-endian signed 16-bit integers. *)
Fixpoint int16_be (data : list Byte.byte) : list Z :=
  match data with
  | hi :: lo :: rest =>
      let u := byte_value hi * 256 + byte_value lo in
      (if u <? 32768 then u else u - 65536) :: int16_be rest
  | _ => []
  end.

Definition unpack_int16_be (n : Z) (data : list Byte.byte) : result (list Z) :=
  if (n <? 0) || negb (Z.of_nat (length data) =? 2 * n) then Raise StructError
  else Ok (int16_be data).

(** The four list comprehensions of lines 179 to 186, per sample. *)
Definition decode_int16 (raw : bool) (lo hi : float) (value : Z) : float :=
  let x := fadd (int_truediv value 65536) (literal 5 (-1)) in
  if raw then x else fadd (fmul x (fsub hi lo)) lo.

Definition decode_byte (raw : bool) (lo hi : float) (value : Z) : float :=
  let x := int_truediv value 256 in
  if raw then x else fadd (fmul x (fsub hi lo)) lo.

Definition decode (width : Z) (raw : bool) (lo hi : float) (n : Z) (data : list Byte.byte)
  : result (list float) :=
  if width =? 2 then
    values ← unpack_int16_be n data;
    Ok (map (decode_int16 raw lo hi) values)
  else Ok (map (fun b => decode_byte raw lo hi (byte_value b)) data).

(** The body of the [for] loop, for one [(dump_channel, channel)]. *)
Definition dump_one (a : capture_args) (t : timing) (e : encoding) (address : Z)
    (dump_channel : Z) : io (list float) :=
  _ ← transaction (
        _ ← set_registers
              [ ("SampleAddress"%string,
                 VInt (((address - count t) * multiplier t) `mod` buffer_width (mode t)));
                ("DumpMode"%string, VDump (dump_mode (mode t)));
                ("DumpChan"%string, VInt dump_channel);
                ("DumpCount"%string, VInt (count t));
                ("DumpRepeat"%string, VInt 1);
                ("DumpSend"%string, VInt 1);
                ("DumpSkip"%string, VInt 0) ];
        _ ← issue_command program_spock_registers;
        issue_command analog_dump_binary);
  data ← readexactly (count t * sample_width (mode t));
  lift (decode (sample_width (mode t)) (raw a) (low_value e) (high_value e) (count t) data).

Fixpoint dump_channels (a : capture_args) (t : timing) (e : encoding) (address : Z)
    (todo : list (Z * string)) (traces : gmap string (list float))
  : io (gmap string (list float)) :=
  match todo with
  | [] => mret traces
  | (dump_channel, channel) :: rest =>
      trace ← dump_one a t e address dump_channel;
      dump_channels a t e address rest (<[channel := trace]> traces)
  end.

(** *** [capture] *)

Definition capture (s : scope) (a : capture_args) : io (gmap string (list float)) :=
  t ← lift (capture_timing s a);
  e ← lift (capture_trigger s a);
  _ ← transaction (
        kw ← lift (capture_registers s a t e);
        _ ← set_registers kw;
        _ ← issue_command program_spock_registers;
        _ ← issue_command configure_device_hardware;
        issue_command triggered_trace);
  _ ← await_trace;
  address ← read_address (multiplier t);
  dump_channels a t e address (enumerate (sorted String.ltb (channels a))) ∅.

(** *** [start_generator]: the clock search (lines 192 to 209) *)

(** The arguments of [start_generator].  [frequency] and [min_samples]
    are floats; an [int] argument below [2^53] is the same value in
    every operation of the function. *)
Record generator_args : Type := {
  frequency : float;
  waveform : string;
  wavetable : option (list Z);
  ratio : float;
  vpp : option float;
  offset : float;
  min_samples : float;
  max_error : float
}.

(** An entry of [possible_params]:
    [((error == 0, width), (size, nwaves, clock, actualf))]. *)
Definition plan : Type := Z * Z * Z * float.
Definition candidate : Type := (bool * float) * plan.

(** [max_clock], line 195; [int(round(x, 0))] is [round(x)]. *)
Definition max_clock (s : scope) (g : generator_args) : result Z :=
  x ← fdiv (literal 1 0) (frequency g);
  x ← fdiv x (min_samples g);
  x ← fdiv x (awg_clock_period s);
  round_float x.

(** One round of the [for] loop, lines 197 to 205: the entry it
    appends, if any. *)
Definition try_clock (s : scope) (g : generator_args) (clock : Z) : result (option candidate) :=
  c ← float_of_int clock;
  x ← fdiv (literal 1 0) (frequency g);
  width ← fdiv x (fmul c (awg_clock_period s));
  buffer ← float_of_int (awg_sample_buffer_size s);
  if fle width buffer then
    x ← fdiv buffer width;
    nwaves ← int_of_float x;
    n ← float_of_int nwaves;
    size ← round_float (fmul n width);
    width ← int_div size nwaves;
    actualf ← fdiv (literal 1 0) (fmul (fmul width c) (awg_clock_period s));
    error ← fdiv (fabs (fsub (frequency g) actualf)) (frequency g);
    if flt error (max_error g)
    then Ok (Some ((feq error (literal 0 0), width), (size, nwaves, clock, actualf)))
    else Ok None
  else Ok None.

(** The loop over [range(self.awg_minimum_clock, max_clock+1)].  The
    [clock += 1] that ends its body changes nothing: the next round
    takes [clock] from the range again. *)
Fixpoint search (s : scope) (g : generator_args) (clocks : list Z)
    (possible_params : list candidate) : result (list candidate) :=
  match clocks with
  | [] => Ok possible_params
  | clock :: rest =>
      c ← try_clock s g clock;
      search s g rest (match c with
                       | Some p => possible_params ++ [p]
                       | None => possible_params
                       end)
  end.

Definition possible_params (s : scope) (g : generator_args) : result (list candidate) :=
  m ← max_clock s g;
  search s g (range (awg_minimum_clock s) (m + 1)) [].

(** Python's [<] on the tuples of [possible_params]: the first
    component that is not [==] decides. *)
Definition bool_lt (a b : bool) : bool := negb a && b.

Definition key_eq (k1 k2 : bool * float) : bool :=
  Bool.eqb k1.1 k2.1 && feq k1.2 k2.2.

Definition key_lt (k1 k2 : bool * float) : bool :=
  if negb (Bool.eqb k1.1 k2.1) then bool_lt k1.1 k2.1
  else if negb (feq k1.2 k2.2) then flt k1.2 k2.2
  else false.

Definition plan_lt (p1 p2 : plan) : bool :=
  let '(size1, nwaves1, clock1, actualf1) := p1 in
  let '(size2, nwaves2, clock2, actualf2) := p2 in
  if negb (size1 =? size2) then size1 <? size2
  else if negb (nwaves1 =? nwaves2) then nwaves1 <? nwaves2
  else if negb (clock1 =? clock2) then clock1 <? clock2
  else if negb (feq actualf1 actualf2) then flt actualf1 actualf2
  else false.

Definition candidate_lt (c1 c2 : candidate) : bool :=
  if negb (key_eq c1.1 c2.1) then key_lt c1.1 c2.1 else plan_lt c1.2 c2.2.

Definition no_solution : exn :=
  ValueError "No solution to required frequency/min_samples/max_error".

(** Lines 207 to 209. *)
Definition choose (l : list candidate) : result plan :=
  match last_item (sorted candidate_lt l) with
  | None => Raise no_solution
  | Some c => Ok c.2
  end.

Definition generator_plan (s : scope) (g : generator_args) : result plan :=
  l ← possible_params s g;
  choose l.

(** *** [start_generator]: programming the device (lines 210 to 231) *)

Definition waveform_mode (name : string) : result Z :=
  let n := lower name in
  if String.eqb n "sine" then Ok 0
  else if String.eqb n "triangle" then Ok 1
  else if String.eqb n "sawtooth" then Ok 1
  else if String.eqb n "exponential" then Ok 2
  else if String.eqb n "square" then Ok 3
  else Raise KeyError.

Definition load_wavetable (s : scope) (g : generator_args) : io unit :=
  match wavetable g with
  | None =>
      m ← lift (waveform_mode (waveform g));
      _ ← set_registers [ ("Cmd"%string, VInt 0); ("Mode"%string, VInt m);
                          ("Ratio"%string, VFloat (ratio g)) ];
      issue_command synthesize_wavetable
  | Some table =>
      if negb (Z.of_nat (length table) =? awg_wavetable_size s) then
        lift (Raise (ValueError ("Wavetable data must be "
                                 ++ str_of_int (awg_wavetable_size s) ++ " samples")))
      else
        _ ← set_registers [ ("Cmd"%string, VInt 0); ("Mode"%string, VInt 1);
                            ("Address"%string, VInt 0); ("Size"%string, VInt 1) ];
        issue_command (wavetable_write_bytes table)
  end.

Definition start_generator (s : scope) (g : generator_args) : io float :=
  let v := match vpp g with None => awg_maximum_voltage s | Some x => x end in
  p ← lift (generator_plan s g);
  let '(size, nwaves, clock, actualf) := p in
  _ ← transaction (
        _ ← load_wavetable s g;
        lv ← lift (fdiv v (awg_maximum_voltage s));
        off ← lift (fdiv (fmul (literal 2 0) (offset g)) (awg_maximum_voltage s));
        r ← lift (int_div (nwaves * awg_wavetable_size s) size);
        _ ← set_registers [ ("Cmd"%string, VInt 0); ("Mode"%string, VInt 0);
                            ("Level"%string, VFloat lv); ("Offset"%string, VFloat off);
                            ("Ratio"%string, VFloat r); ("Index"%string, VInt 0);
                            ("Address"%string, VInt 0); ("Size"%string, VInt size) ];
        _ ← issue_command translate_wavetable;
        _ ← set_registers [ ("Cmd"%string, VInt 2); ("Mode"%string, VInt 0);
                            ("Clock"%string, VInt clock); ("Modulo"%string, VInt size);
                            ("Mark"%string, VInt 10); ("Space"%string, VInt 1);
                            ("Rest"%string, VInt 32512); ("Option"%string, VInt 32772) ];
        _ ← issue_command control_waveform_generator;
        _ ← set_registers [ ("KitchenSinkB"%string, VInt (WaveformGeneratorEnable fl)) ];
        _ ← issue_command configure_device_hardware;
        issue_command (issue "."));
  mret actualf.

End Session.

(** *** [load_params] and [save_params] (lines 47 to 60) *)

Definition PARAMS_MAGIC : Z := 45234.

(** Modelled from the spec: the EEPROM behind [read_eeprom] and
    [write_eeprom], a "byte-addressable store with [read(address)] /
    [write(address,value)] primitives".  The image gives the value
    held at each address. *)
Definition eeprom : Type := Z -> Z.

Definition read_eeprom (image : eeprom) (address : Z) : Z := image address.

Definition write_eeprom (image : eeprom) (address byte : Z) : eeprom :=
  fun a => if a =? address then byte else image a.

(** [struct.calcsize('<H3f3f')] *)
Definition params_size : Z := 2 + 3 * 4 + 3 * 4.

(** [struct.pack('<H3f3f', magic, *(low_ks + high_ks))] *)
Definition pack_params (magic : Z) (low_ks high_ks : float * float * float)
  : result (list Z) :=
  let '(l0, l1, l2) := low_ks in
  let '(h0, h1, h2) := high_ks in
  if (magic <? 0) || (65535 <? magic) then Raise StructError
  else
    b0 ← pack_f l0; b1 ← pack_f l1; b2 ← pack_f l2;
    b3 ← pack_f h0; b4 ← pack_f h1; b5 ← pack_f h2;
    Ok (le_bytes 2 magic ++ b0 ++ b1 ++ b2 ++ b3 ++ b4 ++ b5).

(** [struct.unpack('<H3f3f', data)], as the magic and the two triples
    [params[1:4]] and [params[4:7]]. *)
Definition unpack_params (data : list Z)
  : result (Z * (float * float * float) * (float * float * float)) :=
  if negb (Z.of_nat (length data) =? params_size) then Raise StructError
  else
    let f (i : nat) := unpack_f (take 4 (drop (2 + 4 * i) data)) in
    Ok (le_value (take 2 data), (f 0%nat, f 1%nat, f 2%nat), (f 3%nat, f 4%nat, f 5%nat)).

Definition with_ks (s : scope) (low_ks high_ks : float * float * float) : scope := {|
  awg_clock_period := awg_clock_period s;
  awg_wavetable_size := awg_wavetable_size s;
  awg_sample_buffer_size := awg_sample_buffer_size s;
  awg_minimum_clock := awg_minimum_clock s;
  awg_maximum_voltage := awg_maximum_voltage s;
  analog_low_ks := low_ks;
  analog_high_ks := high_ks;
  analog_min := analog_min s;
  analog_max := analog_max s;
  capture_clock_period := capture_clock_period s;
  capture_buffer_size := capture_buffer_size s;
  trigger_timeout_tick := trigger_timeout_tick s;
  trigger_low := trigger_low s;
  trigger_high := trigger_high s
|}.

(** [load_params]: the session afterwards. *)
Definition load_params (s : scope) (image : eeprom) : result scope :=
  let params := map (fun i => read_eeprom image (i + 100)) (range 0 params_size) in
  data ← bytes_of_ints params;
  p ← unpack_params data;
  let '(magic, low_ks, high_ks) := p in
  if magic =? PARAMS_MAGIC then Ok (with_ks s low_ks high_ks) else Ok s.

(** [save_params]: the image afterwards. *)
Definition save_params (s : scope) (image : eeprom) : result eeprom :=
  params ← pack_params PARAMS_MAGIC (analog_low_ks s) (analog_high_ks s);
  Ok (fold_left (fun img '(i, byte) => write_eeprom img (i + 100) byte)
                (enumerate params) image).

(** A double after a trip through the [f] format: rounded to single
    precision. *)
Definition as_single (x : float) : float := double_of_single (round_single x).

Definition as_single3 (ks : float * float * float) : float * float * float :=
  let '(k0, k1, k2) := ks in (as_single k0, as_single k1, as_single k2).

(** The first two bytes of the record, read as [<H]. *)
Definition stored_magic (image : eeprom) : Z :=
  le_value [read_eeprom image 100; read_eeprom image 101].

(** The image holds a byte at every address of the record. *)
Definition holds_bytes (image : eeprom) : Prop :=
  forall a, 100 <= a < 100 + params_size -> 0 <= image a < 256.

(** *** [stop_generator] (lines 233 to 238) *)

Definition stop_generator : io unit :=
  transaction (
    _ ← set_registers [ ("Cmd"%string, VInt 1); ("Mode"%string, VInt 0) ];
    _ ← issue_command control_waveform_generator;
    _ ← set_registers [ ("KitchenSinkB"%string, VInt 0) ];
    issue_command configure_device_hardware).

(** *** What a coroutine sends and takes *)

(** The events a coroutine adds to the log of the world it starts in. *)
Definition sent {A : Type} (m : io A) (w : world) : list event :=
  drop (length (log w)) (log (m w).2).

(** A coroutine that adds to the log only events that satisfy [P]. *)
Definition emits {A : Type} (P : event -> Prop) (m : io A) : Prop :=
  forall w, exists l, log (m w).2 = log w ++ l /\ Forall P l.

(** The value the log last gave to a register. *)
Definition last_register (name : string) (l : list event) : option value :=
  fold_left (fun found ev =>
               match ev with
               | SetRegisters kw =>
                   match register name kw with
                   | Some v => Some v
                   | None => found
                   end
               | _ => found
               end) l None.

(** A register block that keeps to a sample buffer of [width] samples
    for [mult] channels: the address it gives is an offset into the
    buffer, and the samples it asks to trace or to dump fit. *)
Definition fits_buffer (width mult : Z) (ev : event) : Prop :=
  match ev with
  | SetRegisters kw =>
      (forall v, register "SampleAddress" kw = Some (VInt v) -> 0 <= v < width) /\
      (forall i o, register "TraceIntro" kw = Some (VInt i) ->
                   register "TraceOutro" kw = Some (VInt o) -> i + o <= width) /\
      (forall n, register "DumpCount" kw = Some (VInt n) -> n * mult <= width)
  | _ => True
  end.

(** A coroutine that takes nothing from the bytes the device delivers. *)
Definition leaves_input {A : Type} (m : io A) : Prop :=
  forall w, incoming (m w).2 = incoming w.

(** An event that gives no value to the register [name]. *)
Definition spares (name : string) (ev : event) : Prop :=
  match ev with
  | SetRegisters kw => register name kw = None
  | _ => True
  end.

(** Two register blocks that name the same registers in the same
    order and give them the same values, but for the registers
    [names]. *)
Definition same_but (names : list string) (kw1 kw2 : list (string * value)) : Prop :=
  Forall2 (fun p q : string * value => p.1 = q.1 /\ (In p.1 names \/ p.2 = q.2)) kw1 kw2.

(** Two events that are the same but for the values that
    [set_registers] gives to the registers [names]. *)
Definition same_event_but (names : list string) (e1 e2 : event) : Prop :=
  match e1, e2 with
  | SetRegisters kw1, SetRegisters kw2 => same_but names kw1 kw2
  | _, _ => e1 = e2
  end.

(** Two worlds with the same replies and the same bytes to come, which
    were sent the same but for the registers [names]. *)
Definition alike (names : list string) (w1 w2 : world) : Prop :=
  Forall2 (same_event_but names) (log w1) (log w2) /\
  replies w1 = replies w2 /\ incoming w1 = incoming w2.

(** Two coroutines that end the same way, take the same input and
    send the same but for the registers [names]. *)
Definition agree {A : Type} (names : list string) (m1 m2 : io A) : Prop :=
  forall w1 w2, alike names w1 w2 ->
    (m1 w1).1 = (m2 w2).1 /\ alike names (m1 w1).2 (m2 w2).2.

End Scope.

(** ** Concrete sessions, requests and devices *)

Module Examples.
Import Py Vm Scope Streams.

(** A port that takes at most three bytes at each attempt. *)
Definition three_at_a_time : nat -> behaviour := fun _ => Accepts 3.

Definition nine_bytes : list Byte.byte :=
  [Byte.x01; Byte.x02; Byte.x03; Byte.x04; Byte.x05; Byte.x06; Byte.x07;
   Byte.x08; Byte.x09].

(** [write(b'\x01...\x07')] then [write(b'\x08\x09')] *)
Definition two_writes : list action :=
  [Write (take 7 nine_bytes); Write (drop 7 nine_bytes)].

(** An assignment of the flag constants with one bit each. *)
Definition one_bit_flags : flags := {|
  TriggerTypeHardwareComparator := 1;
  TriggerSourceA := 0;
  TriggerSourceB := 4;
  TriggerInvert := 64;
  ChannelAComparatorEnable := 128;
  ChannelBComparatorEnable := 64;
  AnalogFilterEnable := 128;
  WaveformGeneratorEnable := 64
|}.

(** [capture(channels=chans, period=p, nsamples=n)] *)
Definition request (chans : list string) (p : float) (n : Z) : capture_args := {|
  channels := chans;
  trigger_channel := None;
  trigger_level := literal 0 0;
  trigger_type := "rising";
  period := p;
  nsamples := n;
  timeout := None;
  low := None;
  high := None;
  raw := false
|}.

(** [capture(nsamples=20000)]: 20000 samples of channel A in 1 ms. *)
Definition oversized : capture_args := request ["A"%string] (literal 1 (-3)) 20000.

(** [capture(nsamples=6000)]: a request of 6 ticks per sample. *)
Definition six_ticks : capture_args := request ["A"%string] (literal 1 (-3)) 6000.

(** [capture(period=2.1e-3, nsamples=12000)]: a request of 7 ticks
    per sample that fits the 12288 samples of its regime. *)
Definition seven_ticks : capture_args := request ["A"%string] (literal 21 (-4)) 12000.

(** [capture(channels='AB', trigger_channel='B',
    trigger_type='Falling')] *)
Definition falling_on_b : capture_args := {|
  channels := ["A"%string; "B"%string];
  trigger_channel := Some "B"%string;
  trigger_level := literal 0 0;
  trigger_type := "Falling";
  period := literal 1 (-3);
  nsamples := 1000;
  timeout := None;
  low := None;
  high := None;
  raw := false
|}.

(** [capture(channels=['B','A'], period=2e-6, nsamples=7, raw=True)]:
    7 samples are asked for and 8 are taken. *)
Definition eight_for_seven : capture_args := {|
  channels := ["B"%string; "A"%string];
  trigger_channel := None;
  trigger_level := literal 0 0;
  trigger_type := "rising";
  period := literal 2 (-6);
  nsamples := 7;
  timeout := None;
  low := None;
  high := None;
  raw := true
|}.

(** A device that reports the trace armed, then complete, then the
    address 0x10, and delivers 16 bytes. *)
Definition answering : world := {|
  log := [];
  replies := ["2"; "0"; "1"; "a"; "10"]%string;
  incoming := repeat Byte.x80 16
|}.

(** [capture(period=-1e-9)]: a negative period. *)
Definition negative_period : capture_args := request ["A"%string] (literal (-1) (-9)) 1000.

(** An EEPROM that was never written. *)
Definition blank : eeprom := fun _ => 255.

(** [start_generator(1000, max_error=tolerance)] *)
Definition thousand_hertz (tolerance : float) : generator_args := {|
  frequency := literal 1000 0;
  waveform := "sine";
  wavetable := None;
  ratio := literal 5 (-1);
  vpp := None;
  offset := literal 0 0;
  min_samples := literal 50 0;
  max_error := tolerance
|}.

(** A device that sends two bytes, then three, with wake-ups that
    bring nothing in between. *)
Definition bursts (i : nat) : list Byte.byte :=
  match i with
  | 1%nat => [Byte.x01; Byte.x02]
  | 3%nat => [Byte.x03; Byte.x04; Byte.x05]
  | _ => []
  end.

(** A port nothing has reached yet. *)
Definition quiet : Input.connection := {| Input.in_waiting := []; Input.polls := 0 |}.

(** A device that never sends. *)
Definition silence (i : nat) : list Byte.byte := [].

(** A port that takes one byte and then is gone. *)
Definition unplugged (i : nat) : behaviour :=
  match i with
  | O => Accepts 1
  | _ => Fails
  end.

(** A port that is never ready. *)
Definition never_ready (i : nat) : behaviour := TimesOut.

(** The stream after [write(b'\x01\x02\x03')] on a port that took the
    first byte. *)
Definition two_left : SerialStream := {|
  _output_buffer := [Byte.x02; Byte.x03];
  _output_buffer_empty := Some Pending;
  writer := true;
  received := [Byte.x01];
  attempts := 1
|}.

(** [capture(channels=[])] *)
Definition no_channels : capture_args := request [] (literal 1 (-3)) 1000.

(** [capture(channels=['C'])] *)
Definition channel_c : capture_args := request ["C"%string] (literal 1 (-3)) 1000.

(** The replies of a device that reports the trace armed twice before
    it reports it complete. *)
Definition armed_twice : world := {|
  log := [];
  replies := ["2"; "0"; "2"; "5"; "1"; "a"; "10"]%string;
  incoming := []
|}.

(** [start_generator(0)] *)
Definition zero_hertz : generator_args := {|
  frequency := literal 0 0;
  waveform := "sine";
  wavetable := None;
  ratio := literal 5 (-1);
  vpp := None;
  offset := literal 0 0;
  min_samples := literal 50 0;
  max_error := literal 1 (-4)
|}.

(** [start_generator(1000, wavetable=[0, 1, 2])] *)
Definition three_samples : generator_args := {|
  frequency := literal 1000 0;
  waveform := "sine";
  wavetable := Some [0; 1; 2];
  ratio := literal 5 (-1);
  vpp := None;
  offset := literal 0 0;
  min_samples := literal 50 0;
  max_error := literal 1 (-4)
|}.

(** [start_generator(1000, waveform='noise')] *)
Definition noise : generator_args := {|
  frequency := literal 1000 0;
  waveform := "noise";
  wavetable := None;
  ratio := literal 5 (-1);
  vpp := None;
  offset := literal 0 0;
  min_samples := literal 50 0;
  max_error := literal 1 (-4)
|}.

End Examples.

(** * Properties *)

(** ** Integers of floats *)

Module PyFacts.
Import Py.

Lemma trunc_mag_nonneg (m : positive) (e : Z) : 0 <= trunc_mag m e.
Proof. unfold trunc_mag. apply Z.shiftl_nonneg. lia. Qed.

(** On a float that is not negative [int] is the floor. *)
Lemma int_of_float_floor_nonneg (x : float) (t : Z) :
  floor_float x = Some t -> 0 <= t -> int_of_float x = Ok t.
Proof.
  destruct x as [s | s | | s m e]; simpl; try discriminate.
  - now intros [= <-].
  - intros [= <-] Ht. destruct s; simpl in *; [|reflexivity].
    exfalso. rewrite Z.shiftl_nonneg in Ht. lia.
Qed.

(** On a negative float [int] is not positive. *)
Lemma int_of_float_floor_neg (x : float) (t : Z) :
  floor_float x = Some t -> t < 0 -> exists t', int_of_float x = Ok t' /\ t' <= 0.
Proof.
  destruct x as [s | s | | s m e]; simpl; try discriminate.
  - intros _ _. exists 0. split; [reflexivity | lia].
  - intros [= <-] Ht. destruct s; simpl in *.
    + eexists. split; [reflexivity|]. pose proof (trunc_mag_nonneg m e). lia.
    + exfalso. assert (0 <= Z.shiftl (Z.pos m) e) by (apply Z.shiftl_nonneg; lia). lia.
Qed.

Lemma in_range_from (n : nat) (a z : Z) :
  In z (range_from n a) <-> a <= z < a + Z.of_nat n.
Proof.
  revert a. induction n as [|n IH]; intros a; simpl range_from.
  - simpl. lia.
  - simpl In. rewrite IH. lia.
Qed.

Lemma in_range (a b z : Z) : In z (range a b) <-> a <= z < b.
Proof. unfold range. rewrite in_range_from. lia. Qed.

(** A test that holds on a whole range holds at each of its points. *)
Lemma forallb_range (P : Z -> bool) (a b : Z) :
  forallb P (range a b) = true -> forall z, a <= z < b -> P z = true.
Proof.
  intros H z Hz. rewrite forallb_forall in H. apply H. now apply in_range.
Qed.

Lemma representsb_sound (x : float) (q : Q) : representsb x q = true -> represents x q.
Proof.
  unfold representsb, represents. destruct (Q_of_float x); [|discriminate].
  apply Qeq_bool_iff.
Qed.

(** *** The order of floats *)

Ltac compare_cases :=
  change (Pos.compare_cont Eq) with Pos.compare in *;
  repeat match goal with
  | H : context [Z.compare ?a ?b] |- _ => destruct (Z.compare_spec a b); simpl in H
  | |- context [Z.compare ?a ?b] => destruct (Z.compare_spec a b); simpl
  | H : context [Pos.compare ?a ?b] |- _ => destruct (Pos.compare_spec a b); simpl in H
  | |- context [Pos.compare ?a ?b] => destruct (Pos.compare_spec a b); simpl
  end;
  try discriminate; try reflexivity; try lia.

Lemma flt_nan_l (y : float) : flt S754_nan y = false.
Proof. reflexivity. Qed.

Lemma flt_nan_r (x : float) : flt x S754_nan = false.
Proof. now destruct x. Qed.

Lemma flt_asym (x y : float) : flt x y = true -> flt y x = false.
Proof.
  unfold flt, SFltb, SFcompare.
  destruct x as [[]|[]| |[] mx ex], y as [[]|[]| |[] my ey]; simpl;
    try discriminate; try reflexivity; compare_cases.
Qed.

Lemma feq_sym (x y : float) : feq x y = feq y x.
Proof.
  unfold feq, SFeqb, SFcompare.
  destruct x as [[]|[]| |[] mx ex], y as [[]|[]| |[] my ey]; simpl;
    try discriminate; try reflexivity; compare_cases.
Qed.

Lemma feq_not_flt (x y : float) : feq x y = true -> flt x y = false.
Proof.
  unfold feq, flt, SFeqb, SFltb, SFcompare.
  destruct x as [[]|[]| |[] mx ex], y as [[]|[]| |[] my ey]; simpl;
    try discriminate; try reflexivity; compare_cases.
Qed.

Lemma flt_negtrans (x y z : float) :
  is_nan y = false -> flt x y = false -> flt y z = false -> flt x z = false.
Proof.
  unfold flt, SFltb, SFcompare.
  destruct x as [[]|[]| |[] mx ex], y as [[]|[]| |[] my ey], z as [[]|[]| |[] mz ez];
    simpl; try discriminate; try reflexivity; intros _; compare_cases.
Qed.

(** *** Sorting *)

Lemma in_insert_sorted {A : Type} (lt : A -> A -> bool) (x y : A) (l : list A) :
  In y (insert_sorted lt x l) <-> y = x \/ In y l.
Proof.
  induction l as [|z l IH]; simpl.
  - intuition.
  - destruct (lt x z); simpl; rewrite ?IH; intuition.
Qed.

Lemma in_sorted {A : Type} (lt : A -> A -> bool) (y : A) (l : list A) :
  In y (sorted lt l) <-> In y l.
Proof.
  unfold sorted.
  enough (H : forall acc, In y (fold_left (fun acc x => insert_sorted lt x acc) l acc)
                          <-> In y acc \/ In y l).
  { rewrite H. simpl. tauto. }
  induction l as [|x l IH]; intros acc; simpl.
  - tauto.
  - rewrite IH, in_insert_sorted. intuition.
Qed.

Section SortFacts.
Context {A : Type} (lt : A -> A -> bool).

Lemma last_insert_sorted (x : A) (l : list A) :
  last (insert_sorted lt x l) = Some x \/
  (last (insert_sorted lt x l) = last l /\ l <> []).
Proof.
  induction l as [|y l IH]; simpl.
  - now left.
  - destruct (lt x y).
    + right. split; [|discriminate]. now rewrite last_cons_cons.
    + destruct IH as [IH | (IH & Hne)].
      * left. destruct (insert_sorted lt x l) eqn:E; [discriminate|].
        now rewrite last_cons_cons.
      * right. split; [|discriminate].
        destruct (insert_sorted lt x l) eqn:E.
        -- destruct l; simpl in E; [contradiction|]. destruct (lt x a); discriminate.
        -- rewrite last_cons_cons, IH. destruct l; [contradiction|].
           now rewrite last_cons_cons.
Qed.

(** [le a b]: [b] is not below [a]. *)
Variable le : A -> A -> Prop.
Variable good : A -> Prop.
Hypothesis le_of_not_lt : forall x y, lt x y = false -> le y x.
Hypothesis le_of_lt : forall x y, lt x y = true -> le x y.
Hypothesis le_trans : forall x y z, good y -> le x y -> le y z -> le x z.

Lemma insert_sorted_sorted (x : A) (l : list A) :
  Forall good l -> StronglySorted le l -> StronglySorted le (insert_sorted lt x l).
Proof.
  intros Hgood Hs. induction Hs as [|y l Hs IH Hall]; simpl.
  - repeat constructor.
  - inversion Hgood as [|? ? Hy Hl]; subst.
    destruct (lt x y) eqn:E.
    + constructor; [now constructor|]. constructor; [now apply le_of_lt|].
      rewrite Forall_forall in Hall |- *. intros z Hz.
      apply le_trans with y; [assumption | now apply le_of_lt | now apply Hall].
    + constructor; [now apply IH|].
      rewrite Forall_forall in Hall |- *. intros z Hz.
      apply list_elem_of_In, in_insert_sorted in Hz. destruct Hz as [-> | Hz].
      * now apply le_of_not_lt.
      * now apply Hall, list_elem_of_In.
Qed.

Lemma sorted_sorted (l : list A) :
  Forall good l -> StronglySorted le (sorted lt l).
Proof.
  intros Hgood. unfold sorted.
  enough (H : forall acc, Forall good acc -> StronglySorted le acc ->
            StronglySorted le (fold_left (fun acc x => insert_sorted lt x acc) l acc)
            /\ True).
  { apply H; constructor. }
  induction Hgood as [|x l Hx Hl IH]; intros acc Hacc Hs; simpl; [auto|].
  apply IH.
  - rewrite Forall_forall in Hacc |- *. intros z Hz.
    apply list_elem_of_In, in_insert_sorted in Hz. destruct Hz as [-> | Hz]; [assumption|].
    now apply Hacc, list_elem_of_In.
  - now apply insert_sorted_sorted.
Qed.

Lemma strongly_sorted_last (l : list A) (m : A) :
  StronglySorted le l -> last l = Some m -> forall c, In c l -> c = m \/ le c m.
Proof.
  intros Hs. induction Hs as [|y l Hs IH Hall]; intros Hlast c Hc; [contradiction|].
  destruct l as [|z l].
  - simpl in Hlast. injection Hlast as <-. destruct Hc as [-> | []]. now left.
  - rewrite last_cons_cons in Hlast. destruct Hc as [<- | Hc].
    + right. rewrite Forall_forall in Hall. apply Hall.
      apply list_elem_of_In. apply last_Some_elem_of in Hlast.
      now apply list_elem_of_In in Hlast.
    + now apply IH.
Qed.

End SortFacts.

Lemma sorted_nil_inv {A : Type} (lt : A -> A -> bool) (l : list A) :
  sorted lt l = [] -> l = [].
Proof.
  destruct l as [|x l]; [reflexivity|]. intros H.
  assert (Hin : In x (sorted lt (x :: l))) by (apply in_sorted; now left).
  rewrite H in Hin. contradiction.
Qed.

(** *** NaN and signs *)

Lemma flt_irrefl (x : float) : flt x x = false.
Proof. destruct (flt x x) eqn:E; [|reflexivity]. now apply flt_asym in E as E'; congruence. Qed.

Lemma flt_not_nan (x y : float) : flt x y = true -> is_nan x = false /\ is_nan y = false.
Proof. destruct x, y; simpl; try discriminate; auto. Qed.

Lemma fdiv_not_nan (x y z : float) :
  fdiv x y = Ok z -> is_nan z = false -> is_nan x = false /\ is_nan y = false.
Proof.
  unfold fdiv. destruct (is_zero y); [discriminate|]. intros [= <-].
  destruct x, y; simpl; try discriminate; auto.
Qed.

Lemma fmul_not_nan (x y : float) :
  is_nan (fmul x y) = false -> is_nan x = false /\ is_nan y = false.
Proof. destruct x, y; simpl; try discriminate; auto. Qed.

Lemma fsub_not_nan (x y : float) :
  is_nan (fsub x y) = false -> is_nan x = false /\ is_nan y = false.
Proof. destruct x, y; simpl; try discriminate; auto. Qed.

Lemma fabs_not_nan (x : float) : is_nan (fabs x) = false -> is_nan x = false.
Proof. destruct x; simpl; try discriminate; auto. Qed.

Lemma binary_round_aux_sign (prec emax : Z) (sx : bool) (mx ex : Z) (lx : location) :
  match binary_round_aux prec emax sx mx ex lx with
  | S754_zero s | S754_infinity s | S754_finite s _ _ => s = sx
  | S754_nan => True
  end.
Proof.
  unfold binary_round_aux.
  destruct (shr_fexp prec emax mx ex lx) as [mrs' e'].
  destruct (shr_fexp prec emax _ e' loc_Exact) as [mrs'' e''].
  destruct (shr_m mrs''); [reflexivity | | exact I].
  destruct (Z.leb e'' (emax - prec)); reflexivity.
Qed.

Lemma fabs_not_negative (x : float) : not_negative (fabs x) = true.
Proof. now destruct x. Qed.

Lemma positive_not_negative (x : float) :
  flt (literal 0 0) x = true -> not_negative x = true /\ is_nan x = false /\ is_zero x = false.
Proof. destruct x as [[]|[]| |[] m e]; simpl; try discriminate; auto. Qed.

Lemma SFdiv_not_negative (x y : float) :
  not_negative x = true -> not_negative y = true ->
  not_negative (SFdiv 53 1024 x y) = true.
Proof.
  destruct x as [[]|[]| |[] mx ex], y as [[]|[]| |[] my ey]; simpl;
    try discriminate; try reflexivity.
  intros _ _.
  destruct (SFdiv_core_binary 53 1024 (Z.pos mx) ex (Z.pos my) ey) as [[mz ez] lz].
  pose proof (binary_round_aux_sign 53 1024 false mz ez lz) as H.
  destruct (binary_round_aux 53 1024 false mz ez lz); simpl; try reflexivity; now subst.
Qed.

Lemma not_negative_not_below_zero (x z : float) :
  not_negative x = true -> is_zero z = true -> flt x z = false.
Proof. destruct x as [[]|[]| |[] m e], z as [[]|[]| |[] mz ez]; simpl; try discriminate; reflexivity. Qed.

(** *** Rounding gives floats of the format *)

Lemma digits2_pos_size (p : positive) : digits2_pos p = Pos.size p.
Proof. induction p; simpl; congruence. Qed.

Lemma Zdigits2_log2 (m : Z) : 0 < m -> Zdigits2 m = Z.log2 m + 1.
Proof.
  destruct m as [|p|p]; try lia. intros _. simpl. rewrite digits2_pos_size.
  destruct p; simpl; lia.
Qed.

Lemma shr_1_div2 (r : shr_record) : 0 <= shr_m r -> shr_m (shr_1 r) = shr_m r / 2.
Proof.
  destruct r as [m r s]. cbn [shr_m]. intros Hm.
  destruct m as [|[p|p|]|p]; cbn [shr_1 shr_m]; try lia; try reflexivity.
  - rewrite Pos2Z.inj_xI. apply Z.div_unique with 1; lia.
  - rewrite Pos2Z.inj_xO. apply Z.div_unique with 0; lia.
Qed.

Lemma shr_1_nonneg (r : shr_record) : 0 <= shr_m r -> 0 <= shr_m (shr_1 r).
Proof. intros H. rewrite shr_1_div2 by assumption. apply Z.div_pos; lia. Qed.

Lemma iter_shr_1_div (p : positive) : forall r,
  0 <= shr_m r -> shr_m (SpecFloat.iter_pos shr_1 p r) = shr_m r / 2 ^ Zpos p.
Proof.
  induction p as [p IH | p IH |]; intros r Hr; simpl SpecFloat.iter_pos.
  - assert (H1 : 0 <= shr_m (shr_1 r)) by now apply shr_1_nonneg.
    assert (H2 : 0 <= shr_m (SpecFloat.iter_pos shr_1 p (shr_1 r))).
    { rewrite IH by assumption. apply Z.div_pos; lia. }
    rewrite IH, IH, shr_1_div2 by assumption.
    rewrite !Z.div_div by lia. f_equal.
    rewrite Pos2Z.inj_xI, <- !Z.pow_add_r by lia. rewrite <- (Z.pow_1_r 2) at 1.
    rewrite <- Z.pow_add_r by lia. f_equal. lia.
  - assert (H2 : 0 <= shr_m (SpecFloat.iter_pos shr_1 p r)).
    { rewrite IH by assumption. apply Z.div_pos; lia. }
    rewrite IH, IH by assumption.
    rewrite !Z.div_div by lia. f_equal.
    rewrite Pos2Z.inj_xO, <- !Z.pow_add_r by lia. f_equal. lia.
  - rewrite shr_1_div2 by assumption. reflexivity.
Qed.

Lemma Zdigits2_nonneg (m : Z) : 0 <= Zdigits2 m.
Proof. destruct m; simpl; lia. Qed.

Lemma Zdigits2_mono (a b : Z) : 0 <= a <= b -> Zdigits2 a <= Zdigits2 b.
Proof.
  intros [Ha Hab]. destruct (Z.eq_dec a 0) as [-> | Hne].
  - apply Zdigits2_nonneg.
  - rewrite !Zdigits2_log2 by lia. pose proof (Z.log2_le_mono a b Hab). lia.
Qed.

(** The digits of a quotient by a power of two. *)
Lemma Zdigits2_div_pow2 (m n : Z) :
  0 < m -> 0 <= n ->
  (m / 2 ^ n = 0 /\ Zdigits2 m <= n) \/
  (0 < m / 2 ^ n /\ Zdigits2 (m / 2 ^ n) = Zdigits2 m - n).
Proof.
  intros Hm Hn. rewrite (Zdigits2_log2 m) by assumption.
  destruct (Z.lt_ge_cases (Z.log2 m) n) as [Hlt | Hge].
  - left. apply Z.log2_lt_pow2 in Hlt; [|assumption].
    split; [apply Z.div_small; lia | ].
    apply Z.log2_lt_pow2 in Hlt; [lia | assumption].
  - right. assert (Hpow : 2 ^ n <= m) by (apply Z.log2_le_pow2; assumption).
    assert (Hq : 0 < m / 2 ^ n) by (apply Z.div_str_pos; lia).
    split; [assumption|]. rewrite Zdigits2_log2 by assumption.
    rewrite <- Z.shiftr_div_pow2 by assumption.
    rewrite Z.log2_shiftr by assumption. lia.
Qed.

Section Format.

Variables prec emax : Z.
Hypothesis prec_positive : 0 < prec.

Lemma fexp_mono (a b : Z) : a <= b -> fexp prec emax a <= fexp prec emax b.
Proof. unfold fexp. lia. Qed.

Lemma fexp_emin (a : Z) : emin prec emax <= fexp prec emax a.
Proof. unfold fexp. lia. Qed.

Lemma shr_m_of_loc (m : Z) (l : location) : shr_m (shr_record_of_loc m l) = m.
Proof. destruct l as [|[]]; reflexivity. Qed.

Lemma shr_fexp_spec (m e : Z) (l : location) (mrs : shr_record) (e' : Z) :
  0 <= m ->
  shr_fexp prec emax m e l = (mrs, e') ->
  shr_m mrs = m / 2 ^ Z.max 0 (fexp prec emax (Zdigits2 m + e) - e) /\
  e' = e + Z.max 0 (fexp prec emax (Zdigits2 m + e) - e).
Proof.
  intros Hm. unfold shr_fexp, shr.
  destruct (fexp prec emax (Zdigits2 m + e) - e) as [|p|p] eqn:E; intros [= <- <-].
  - rewrite shr_m_of_loc. simpl. rewrite Z.div_1_r. lia.
  - rewrite iter_shr_1_div by (rewrite shr_m_of_loc; assumption).
    rewrite shr_m_of_loc. rewrite Z.max_r by lia. auto.
  - rewrite shr_m_of_loc. rewrite Z.max_l by lia. simpl. rewrite Z.div_1_r. lia.
Qed.

(** A shift to the exponent of the format leaves a mantissa that
    fits it. *)
Lemma shr_fexp_canonical (m e : Z) (l : location) (mrs : shr_record) (e' : Z) :
  0 <= m -> e <= fexp prec emax (Zdigits2 m + e) ->
  shr_fexp prec emax m e l = (mrs, e') ->
  0 <= shr_m mrs /\
  (0 < shr_m mrs -> fexp prec emax (Zdigits2 (shr_m mrs) + e') = e') /\
  (shr_m mrs = 0 -> e' = emin prec emax).
Proof.
  intros Hm He H. apply shr_fexp_spec in H as (Hmrs & He'); [|assumption].
  rewrite Z.max_r in Hmrs, He' by lia.
  set (n := fexp prec emax (Zdigits2 m + e) - e) in *.
  assert (Hn : 0 <= n) by (subst n; lia).
  destruct (Z.eq_dec m 0) as [-> | Hne].
  - rewrite Z.div_0_l in Hmrs by (apply Z.pow_nonzero; lia).
    rewrite Hmrs. split; [lia|]. split; [lia|]. intros _.
    subst n. change (Zdigits2 0) with 0 in *. unfold fexp, emin in *. lia.
  - destruct (Zdigits2_div_pow2 m n) as [(Hq & Hd) | (Hq & Hd)]; try lia.
    + rewrite Hmrs, Hq. split; [lia|]. split; [lia|]. intros _.
      subst n. unfold fexp, emin in *. lia.
    + rewrite Hmrs. split; [lia|]. split; [|lia]. intros _.
      rewrite Hd, He'. subst n.
      replace (Zdigits2 m - (fexp prec emax (Zdigits2 m + e) - e)
               + (e + (fexp prec emax (Zdigits2 m + e) - e)))
        with (Zdigits2 m + e) by lia.
      lia.
Qed.

Lemma round_nearest_even_bounds (m : Z) (l : location) :
  m <= round_nearest_even m l <= m + 1.
Proof.
  unfold round_nearest_even. destruct l as [|[]]; try lia.
  destruct (Z.even m); lia.
Qed.

(** Rounding a mantissa that is not negative, from an exponent not
    above the one its digits ask for, gives a float of the format. *)
Lemma binary_round_aux_valid (sx : bool) (m e : Z) (l : location) :
  0 <= m -> e <= fexp prec emax (Zdigits2 m + e) ->
  valid_binary prec emax (binary_round_aux prec emax sx m e l) = true.
Proof.
  intros Hm He. unfold binary_round_aux.
  destruct (shr_fexp prec emax m e l) as [mrs' e'] eqn:H1.
  destruct (shr_fexp_canonical _ _ _ _ _ Hm He H1) as (Hm' & Hcan' & Hzero').
  pose proof (round_nearest_even_bounds (shr_m mrs') (loc_of_shr_record mrs')) as Hr.
  set (m1 := round_nearest_even (shr_m mrs') (loc_of_shr_record mrs')) in *.
  destruct (shr_fexp prec emax m1 e' loc_Exact) as [mrs'' e''] eqn:H2.
  assert (He1 : e' <= fexp prec emax (Zdigits2 m1 + e')).
  { destruct (Z.eq_dec (shr_m mrs') 0) as [Hz | Hnz].
    - rewrite (Hzero' Hz). apply fexp_emin.
    - rewrite <- (Hcan' ltac:(lia)) at 1. apply fexp_mono.
      pose proof (Zdigits2_mono (shr_m mrs') m1). lia. }
  assert (Hm1 : 0 <= m1) by lia.
  destruct (shr_fexp_canonical _ _ _ _ _ Hm1 He1 H2) as (Hm'' & Hcan'' & _).
  destruct (shr_m mrs'') as [|mf|mf] eqn:Hmf; [reflexivity| |reflexivity].
  destruct (Z.leb_spec e'' (emax - prec)); [|reflexivity].
  simpl. unfold bounded, canonical_mantissa.
  apply andb_true_iff. split; [|apply Z.leb_le; assumption].
  apply Z.eqb_eq. specialize (Hcan'' ltac:(lia)). exact Hcan''.
Qed.

Lemma Zpos_iter_xO (m d : positive) : Zpos (Pos.iter xO m d) = Zpos m * 2 ^ Zpos d.
Proof.
  rewrite (Pos.iter_swap_gen _ _ Zpos xO (Z.mul 2)) by (intros; apply Pos2Z.inj_xO).
  rewrite <- Z.shiftl_mul_pow2 by lia. reflexivity.
Qed.

Lemma binary_round_valid (sx : bool) (mx : positive) (ex : Z) :
  valid_binary prec emax (binary_round prec emax sx mx ex) = true.
Proof.
  unfold binary_round.
  change (Zpos (digits2_pos mx)) with (Zdigits2 (Zpos mx)).
  destruct (shl_align mx ex (fexp prec emax (Zdigits2 (Zpos mx) + ex))) as [mz ez] eqn:H.
  apply binary_round_aux_valid; [lia|].
  revert H. unfold shl_align.
  destruct (fexp prec emax (Zdigits2 (Zpos mx) + ex) - ex) as [|d|d] eqn:E;
    intros [= <- <-]; try lia.
  assert (Hd : Zdigits2 (Zpos (Pos.iter xO mx d)) = Zdigits2 (Zpos mx) + Zpos d).
  { rewrite Zpos_iter_xO, !Zdigits2_log2 by lia.
    rewrite Z.log2_mul_pow2 by lia. lia. }
  rewrite Hd. change (Zpos (digits2_pos mx)) with (Zdigits2 (Zpos mx)).
  replace (Zdigits2 (Zpos mx) + Zpos d + fexp prec emax (Zdigits2 (Zpos mx) + ex))
    with (Zdigits2 (Zpos mx) + ex) by lia.
  apply Z.le_refl.
Qed.

(** *** The magnitude of quotients and differences *)

Lemma Zdigits2_pos (m : Z) : 0 < m -> 0 < Zdigits2 m.
Proof. destruct m; simpl; lia. Qed.

(** Rounding does not lower the magnitude of what is above the
    smallest exponent of the format. *)
Lemma binary_round_aux_reaches (sx : bool) (m e : Z) (l : location) :
  0 < m -> e <= fexp prec emax (Zdigits2 m + e) ->
  emin prec emax < Zdigits2 m + e ->
  reaches (Zdigits2 m + e) (binary_round_aux prec emax sx m e l).
Proof.
  intros Hm He Hmin. unfold binary_round_aux.
  destruct (shr_fexp prec emax m e l) as [mrs' e'] eqn:H1.
  apply shr_fexp_spec in H1 as (Hm1 & He1); [|lia].
  rewrite Z.max_r in Hm1, He1 by lia.
  set (n := fexp prec emax (Zdigits2 m + e) - e) in *.
  assert (Hn : 0 <= n < Zdigits2 m) by (subst n; unfold fexp, emin in *; lia).
  destruct (Zdigits2_div_pow2 m n) as [(Hq & Hd) | (Hq & Hd)]; try lia.
  rewrite <- Hm1 in Hq, Hd.
  pose proof (round_nearest_even_bounds (shr_m mrs') (loc_of_shr_record mrs')) as Hr.
  set (m2 := round_nearest_even (shr_m mrs') (loc_of_shr_record mrs')) in *.
  clearbody m2.
  assert (Hd2 : Zdigits2 (shr_m mrs') <= Zdigits2 m2) by (apply Zdigits2_mono; lia).
  destruct (shr_fexp prec emax m2 e' loc_Exact) as [mrs'' e''] eqn:H2.
  apply shr_fexp_spec in H2 as (Hm3 & He3); [|lia].
  set (n2 := Z.max 0 (fexp prec emax (Zdigits2 m2 + e') - e')) in *.
  assert (Hn2 : 0 <= n2 < Zdigits2 m2).
  { assert (H0 : 0 < m2) by lia. apply Zdigits2_pos in H0. subst n2 n. unfold fexp, emin in *. lia. }
  destruct (Zdigits2_div_pow2 m2 n2) as [(Hq3 & Hd3) | (Hq3 & Hd3)]; try lia.
  rewrite <- Hm3 in Hq3, Hd3.
  destruct (shr_m mrs'') as [|p|p] eqn:E; try lia.
  destruct (e'' <=? emax - prec); cbn [reaches]; [|exact I]. subst n2 n. lia.
Qed.


(** A quotient has at least the digits of the dividend less those
    of the divisor. *)
Lemma Zdigits2_quotient (a b : Z) :
  0 < a -> 0 < b -> 0 < a / b -> Zdigits2 a - Zdigits2 b <= Zdigits2 (a / b).
Proof.
  intros Ha Hb Hq. rewrite !Zdigits2_log2 by assumption.
  pose proof (Z.log2_spec a Ha) as [La _].
  pose proof (Z.log2_spec b Hb) as [_ Lb].
  pose proof (Z.log2_spec (a / b) Hq) as [_ Lq].
  pose proof (Z.mul_succ_div_gt a b Hb) as Hlt.
  assert (H : 2 ^ Z.log2 a < 2 ^ (Z.succ (Z.log2 (a / b)) + Z.succ (Z.log2 b))).
  { rewrite Z.pow_add_r by (pose proof (Z.log2_nonneg (a / b)); pose proof (Z.log2_nonneg b); lia).
    nia. }
  apply Z.pow_lt_mono_r_iff in H; [lia|lia|].
  pose proof (Z.log2_nonneg (a / b)); pose proof (Z.log2_nonneg b); lia.
Qed.

Lemma Zdigits2_mul_pow2 (m n : Z) :
  0 < m -> 0 <= n -> Zdigits2 (m * 2 ^ n) = Zdigits2 m + n.
Proof.
  intros Hm Hn. assert (0 < 2 ^ n) by (apply Z.pow_pos_nonneg; lia).
  rewrite !Zdigits2_log2 by nia. rewrite Z.log2_mul_pow2 by lia. lia.
Qed.

Lemma Zdigits2_pow2 (n : Z) : 0 <= n -> Zdigits2 (2 ^ n) = n + 1.
Proof.
  intros Hn. rewrite Zdigits2_log2 by (apply Z.pow_pos_nonneg; lia).
  now rewrite Z.log2_pow2.
Qed.

(** A quotient that is zero has a dividend of no more digits than
    the divisor. *)
Lemma Zdigits2_small (a b : Z) : 0 <= a < b -> Zdigits2 a <= Zdigits2 b.
Proof. intros H. apply Zdigits2_mono. lia. Qed.

(** The quotient [SFdiv] hands to the rounding: its exponent is not
    above the one its digits ask for, and away from the smallest
    exponent it is not zero and keeps the magnitude of the ratio. *)
Lemma SFdiv_core_binary_spec (m1 e1 m2 e2 q e' : Z) (l : location) :
  0 < m1 -> 0 < m2 ->
  SFdiv_core_binary prec emax m1 e1 m2 e2 = (q, e', l) ->
  0 <= q /\ e' <= fexp prec emax (Zdigits2 q + e') /\
  (emin prec emax + prec <= Zdigits2 m1 + e1 - (Zdigits2 m2 + e2) ->
   0 < q /\ Zdigits2 m1 + e1 - (Zdigits2 m2 + e2) <= Zdigits2 q + e').
Proof.
  intros H1 H2. unfold SFdiv_core_binary.
  set (D := Zdigits2 m1 + e1 - (Zdigits2 m2 + e2)).
  set (e0 := Z.min (fexp prec emax D) (e1 - e2)).
  set (s := e1 - e2 - e0).
  assert (Hs : 0 <= s) by (subst s e0; lia).
  set (m' := match s with Z.pos _ => Z.shiftl m1 s | 0 => m1 | Z.neg _ => 0 end).
  assert (Hm' : m' = m1 * 2 ^ s).
  { subst m'. destruct s; [simpl; lia | apply Z.shiftl_mul_pow2; lia | lia]. }
  assert (Hd' : Zdigits2 m' = Zdigits2 m1 + s) by (rewrite Hm'; now apply Zdigits2_mul_pow2).
  assert (Hpos' : 0 < m') by (rewrite Hm'; assert (0 < 2 ^ s) by (apply Z.pow_pos_nonneg; lia); nia).
  clearbody m'.
  pose proof (Z_div_mod m' m2 ltac:(lia)) as Hdm.
  destruct (Z.div_eucl m' m2) as [q0 r] eqn:E. intros [= <- <- _].
  destruct Hdm as [Heq Hr].
  assert (Hq0 : q0 = m' / m2).
  { apply Z.div_unique with r; [lia|]. lia. }
  assert (Hq : 0 <= q0) by (rewrite Hq0; apply Z.div_pos; lia).
  assert (Hkey : D <= Zdigits2 q0 + e0).
  { destruct (Z.eq_dec q0 0) as [Hz | Hnz].
    - rewrite Hz. change (Zdigits2 0) with 0.
      assert (Zdigits2 m' <= Zdigits2 m2) by (apply Zdigits2_small; lia).
      subst D s. lia.
    - pose proof (Zdigits2_quotient m' m2 Hpos' H2 ltac:(lia)) as Hd.
      rewrite <- Hq0 in Hd. subst D s. lia. }
  split; [assumption|]. split.
  - apply Z.le_trans with (fexp prec emax D); [subst e0; lia | now apply fexp_mono].
  - intros HD. split; [|assumption].
    destruct (Z.eq_dec q0 0) as [Hz | Hnz]; [|lia]. exfalso.
    assert (Zdigits2 m' <= Zdigits2 m2) by (apply Zdigits2_small; lia).
    subst s e0. unfold fexp in *. fold D in HD. lia.
Qed.

Lemma SFdiv_valid (x y : spec_float) :
  valid_binary prec emax (SFdiv prec emax x y) = true.
Proof.
  destruct x as [sx|sx| |sx mx ex], y as [sy|sy| |sy my ey]; try reflexivity.
  unfold SFdiv.
  destruct (SFdiv_core_binary prec emax (Zpos mx) ex (Zpos my) ey) as [[q e'] l] eqn:E.
  apply SFdiv_core_binary_spec in E as (Hq & He & _); try lia.
  now apply binary_round_aux_valid.
Qed.

Lemma SFdiv_reaches (sx sy : bool) (mx my : positive) (ex ey : Z) :
  emin prec emax + prec <= Zdigits2 (Zpos mx) + ex - (Zdigits2 (Zpos my) + ey) ->
  reaches (Zdigits2 (Zpos mx) + ex - (Zdigits2 (Zpos my) + ey))
    (SFdiv prec emax (S754_finite sx mx ex) (S754_finite sy my ey)).
Proof.
  intros HD. unfold SFdiv.
  destruct (SFdiv_core_binary prec emax (Zpos mx) ex (Zpos my) ey) as [[q e'] l] eqn:E.
  apply SFdiv_core_binary_spec in E as (_ & He & H); try lia.
  destruct (H HD) as (Hq & Hle).
  pose proof (binary_round_aux_reaches (xorb sx sy) q e' l Hq He) as Hr.
  assert (Hmin : emin prec emax < Zdigits2 q + e') by lia.
  specialize (Hr Hmin).
  destruct (binary_round_aux prec emax (xorb sx sy) q e' l); simpl in *; try assumption; lia.
Qed.


Lemma reaches_le (b b' : Z) (x : spec_float) : b' <= b -> reaches b x -> reaches b' x.
Proof. destruct x; simpl; try tauto. lia. Qed.

Lemma shl_align_spec (mx : positive) (ex e' : Z) :
  (shl_align mx ex e').2 = Z.min ex e' /\
  Zpos (shl_align mx ex e').1 = Zpos mx * 2 ^ (ex - Z.min ex e').
Proof.
  unfold shl_align. destruct (e' - ex) as [|d|d] eqn:E; simpl.
  - rewrite Z.min_l by lia. rewrite Z.sub_diag. simpl. lia.
  - rewrite Z.min_l by lia. rewrite Z.sub_diag. simpl. lia.
  - rewrite Z.min_r by lia. split; [reflexivity|].
    unfold shift_pos. rewrite Zpos_iter_xO. do 2 f_equal. lia.
Qed.

Lemma binary_round_reaches (sx : bool) (mx : positive) (ex : Z) :
  emin prec emax < Zdigits2 (Zpos mx) + ex ->
  reaches (Zdigits2 (Zpos mx) + ex) (binary_round prec emax sx mx ex).
Proof.
  intros Hmin. unfold binary_round.
  change (Zpos (digits2_pos mx)) with (Zdigits2 (Zpos mx)).
  pose proof (shl_align_spec mx ex (fexp prec emax (Zdigits2 (Zpos mx) + ex))) as [He Hm].
  destruct (shl_align mx ex (fexp prec emax (Zdigits2 (Zpos mx) + ex))) as [mz ez].
  cbn [fst snd] in He, Hm.
  assert (Hd : Zdigits2 (Zpos mz) + ez = Zdigits2 (Zpos mx) + ex).
  { rewrite Hm, Zdigits2_mul_pow2 by lia. lia. }
  rewrite <- Hd. apply binary_round_aux_reaches; [lia| |lia].
  rewrite Hd. lia.
Qed.

Lemma bounded_canonical (m : positive) (e : Z) :
  bounded prec emax m e = true -> fexp prec emax (Zdigits2 (Zpos m) + e) = e.
Proof.
  unfold bounded, canonical_mantissa. intros H.
  apply andb_prop in H as [H _]. now apply Z.eqb_eq in H.
Qed.

Lemma Zdigits2_bounds (m : Z) : 0 < m -> 2 ^ (Zdigits2 m - 1) <= m < 2 ^ Zdigits2 m.
Proof.
  intros Hm. rewrite Zdigits2_log2 by assumption.
  replace (Z.log2 m + 1 - 1) with (Z.log2 m) by lia.
  apply Z.log2_spec in Hm. lia.
Qed.

(** Two floats of the format with the same value are the same. *)
Lemma canonical_unique (mf ma : positive) (ef ea : Z) :
  bounded prec emax mf ef = true -> bounded prec emax ma ea = true ->
  Zpos mf * 2 ^ (ef - Z.min ef ea) = Zpos ma * 2 ^ (ea - Z.min ef ea) ->
  mf = ma /\ ef = ea.
Proof.
  intros Hf Ha H. apply bounded_canonical in Hf, Ha.
  assert (Hd : Zdigits2 (Zpos mf) + (ef - Z.min ef ea) = Zdigits2 (Zpos ma) + (ea - Z.min ef ea)).
  { rewrite <- !Zdigits2_mul_pow2 by lia. now rewrite H. }
  assert (ef = ea) by (unfold fexp in *; lia). subst ea.
  rewrite Z.min_id, Z.sub_diag in H. simpl in H. split; [lia | reflexivity].
Qed.

(** The difference of two finite floats of the format is zero when
    they are the same float, and otherwise is no smaller than the last
    digit of the first. *)
Lemma SFsub_finite_cases (sf sa : bool) (mf ma : positive) (ef ea : Z) :
  bounded prec emax mf ef = true -> bounded prec emax ma ea = true ->
  (is_zero (SFsub prec emax (S754_finite sf mf ef) (S754_finite sa ma ea)) = true /\
   sf = sa /\ mf = ma /\ ef = ea) \/
  reaches (Zdigits2 (Zpos mf) + ef - prec)
    (SFsub prec emax (S754_finite sf mf ef) (S754_finite sa ma ea)).
Proof.
  intros Hf Ha. unfold SFsub.
  set (ez := Z.min ef ea).
  pose proof (shl_align_spec mf ef ez) as [_ HMf].
  pose proof (shl_align_spec ma ea ez) as [_ HMa].
  replace (Z.min ef ez) with ez in HMf by (subst ez; lia).
  replace (Z.min ea ez) with ez in HMa by (subst ez; lia).
  set (Mf := (shl_align mf ef ez).1) in *.
  set (Ma := (shl_align ma ea ez).1) in *.
  change (fst (shl_align mf ef ez)) with Mf.
  change (fst (shl_align ma ea ez)) with Ma.
  clearbody Mf Ma.
  pose proof (bounded_canonical _ _ Hf) as Cf.
  pose proof (bounded_canonical _ _ Ha) as Ca.
  pose proof (Zdigits2_bounds (Zpos mf) ltac:(lia)) as Bf.
  pose proof (Zdigits2_bounds (Zpos ma) ltac:(lia)) as Ba.
  set (S := cond_Zopp sf (Zpos Mf) - cond_Zopp sa (Zpos Ma)).
  assert (Habs : Zpos Mf - Zpos Ma <= Z.abs S) by (subst S; destruct sf, sa; simpl; lia).
  assert (Hmag : S <> 0 -> Zdigits2 (Zpos mf) + ef - prec <= Zdigits2 (Z.abs S) + ez
                          /\ emin prec emax < Zdigits2 (Z.abs S) + ez).
  { intros Hne. pose proof (Zdigits2_pos (Z.abs S) ltac:(lia)) as Hp.
    split; [|subst ez; unfold fexp, emin in *; lia].
    destruct (Z.le_gt_cases ef ea) as [Hle | Hgt].
    - subst ez. rewrite Z.min_l by lia. unfold fexp in *. lia.
    - subst ez. rewrite Z.min_r in * by lia.
      rewrite Z.sub_diag in HMa. simpl in HMa.
      assert (Hdf : Zdigits2 (Zpos mf) = prec) by (unfold fexp, emin in *; lia).
      assert (Hda : Zdigits2 (Zpos ma) <= prec) by (unfold fexp in *; lia).
      rewrite Hdf in *.
      assert (Hpa : 2 ^ Zdigits2 (Zpos ma) <= 2 ^ prec) by (apply Z.pow_le_mono_r; lia).
      assert (Hk : 2 ^ (ef - ea) = 2 * 2 ^ (ef - ea - 1)).
      { rewrite <- (Z.pow_succ_r 2) by lia. f_equal. lia. }
      assert (HP : 2 ^ prec = 2 * 2 ^ (prec - 1)).
      { rewrite <- (Z.pow_succ_r 2) by lia. f_equal. lia. }
      assert (HK : 0 < 2 ^ (ef - ea - 1)) by (apply Z.pow_pos_nonneg; lia).
      assert (HPp : 0 < 2 ^ (prec - 1)) by (apply Z.pow_pos_nonneg; lia).
      assert (Hbig : 2 ^ (ef - ea - 1) <= Z.abs S).
      { rewrite HMf, HMa, Hk in Habs. nia. }
      assert (Hd : Zdigits2 (2 ^ (ef - ea - 1)) <= Zdigits2 (Z.abs S)) by (apply Zdigits2_mono; lia).
      rewrite Zdigits2_pow2 in Hd by lia. lia. }
  unfold binary_normalize. fold S.
  destruct S as [|p|p] eqn:ES.
  - left. split; [reflexivity|].
    assert (sf = sa /\ Zpos Mf = Zpos Ma) as [-> HM].
    { revert ES. subst S. destruct sf, sa; simpl; lia || (intros; split; [reflexivity | lia]). }
    rewrite HMf, HMa in HM. subst ez.
    destruct (canonical_unique _ _ _ _ Hf Ha HM). auto.
  - right. destruct Hmag as [H1 H2]; [lia|].
    change (Z.abs (Z.pos p)) with (Z.pos p) in H1, H2.
    apply reaches_le with (Zdigits2 (Zpos p) + ez); [lia|].
    now apply binary_round_reaches.
  - right. destruct Hmag as [H1 H2]; [lia|].
    change (Z.abs (Z.neg p)) with (Z.pos p) in H1, H2.
    apply reaches_le with (Zdigits2 (Zpos p) + ez); [lia|].
    now apply binary_round_reaches.
Qed.

End Format.

(** *** A zero error is an exact frequency *)

Lemma fdiv_valid (x y z : float) : fdiv x y = Ok z -> valid_binary 53 1024 z = true.
Proof.
  unfold fdiv. destruct (is_zero y); [discriminate|]. intros H.
  assert (Hz : z = SFdiv 53 1024 x y) by congruence.
  rewrite Hz. apply SFdiv_valid. lia.
Qed.

Lemma SFeqb_finite_refl (s : bool) (m : positive) (e : Z) :
  SFeqb (S754_finite s m e) (S754_finite s m e) = true.
Proof.
  unfold SFeqb, SFcompare. rewrite Z.compare_refl, Pos.compare_cont_refl.
  destruct s; reflexivity.
Qed.

Lemma feq_zero (x : float) : feq x (literal 0 0) = is_zero x.
Proof. destruct x as [[]|[]| |[] m e]; reflexivity. Qed.

Lemma reaches_not_zero (b : Z) (x : float) : reaches b x -> is_zero x = false.
Proof. destruct x; simpl; tauto. Qed.

(** [abs(f - a) / f == 0] only when [f == a]: the difference of two
    different floats is not lost in the division by one of them. *)
Lemma exact_error_means_equal (f a error : float) :
  valid_binary 53 1024 f = true -> valid_binary 53 1024 a = true ->
  fdiv (fabs (fsub f a)) f = Ok error ->
  feq error (literal 0 0) = true ->
  feq f a = true.
Proof.
  intros Hf Ha Hdiv Hzero. rewrite feq_zero in Hzero.
  unfold fdiv in Hdiv. destruct (is_zero f) eqn:Hnz; [discriminate|].
  injection Hdiv as <-. unfold fabs, fsub in Hzero.
  destruct f as [sf|sf| |sf mf ef]; [discriminate| | |].
  - destruct a as [sa|sa| |sa ma ea], sf; try destruct sa; discriminate.
  - destruct a; discriminate.
  - cbn [valid_binary] in Hf.
    assert (Hdiv : forall mx ex,
              Zdigits2 (Zpos mf) + ef - 53 <= Zdigits2 (Zpos mx) + ex ->
              is_zero (SFdiv 53 1024 (S754_finite false mx ex) (S754_finite sf mf ef)) = false).
    { intros mx ex Hmag. apply reaches_not_zero with (Zdigits2 (Zpos mx) + ex - (Zdigits2 (Zpos mf) + ef)).
      apply SFdiv_reaches; [lia|]. unfold emin. lia. }
    destruct a as [sa|sa| |sa ma ea].
    + cbn [SFsub SFabs] in Hzero. rewrite Hdiv in Hzero by lia. discriminate.
    + discriminate.
    + discriminate.
    + cbn [valid_binary] in Ha.
      assert (Hp : 0 < 53) by lia.
      destruct (SFsub_finite_cases 53 1024 Hp sf sa mf ma ef ea Hf Ha)
        as [(_ & -> & -> & ->) | Hr].
      * apply SFeqb_finite_refl.
      * destruct (SFsub 53 1024 (S754_finite sf mf ef) (S754_finite sa ma ea))
          as [sx|sx| |sx mx ex]; cbn [reaches] in Hr; try contradiction.
        -- discriminate.
        -- cbn [SFabs] in Hzero. rewrite Hdiv in Hzero by lia. discriminate.
Qed.

(** *** Single precision and its 32 bits *)

Lemma round_single_valid (x : float) : valid_binary 24 128 (round_single x) = true.
Proof. destruct x; simpl; try reflexivity. apply binary_round_valid. lia. Qed.

(** The two shapes of a finite single-precision float. *)
Lemma bounded_single (m : positive) (e : Z) :
  bounded 24 128 m e = true ->
  (Zpos m < 2 ^ 23 /\ e = -149) \/
  (2 ^ 23 <= Zpos m < 2 ^ 24 /\ -149 <= e <= 104).
Proof.
  unfold bounded, canonical_mantissa. intros H.
  apply andb_true_iff in H as (Hc & He).
  apply Z.eqb_eq in Hc. apply Z.leb_le in He.
  change (Zpos (digits2_pos m)) with (Zdigits2 (Zpos m)) in Hc.
  rewrite Zdigits2_log2 in Hc by lia. unfold fexp, emin in Hc.
  destruct (Z.lt_ge_cases (Zpos m) (2 ^ 23)) as [Hlt | Hge].
  - left. split; [assumption|].
    apply Z.log2_lt_pow2 in Hlt; lia.
  - right. apply Z.log2_le_pow2 in Hge; [|lia].
    assert (Hlog : Z.log2 (Zpos m) = 23) by lia.
    assert (Hup : Zpos m < 2 ^ 24) by (apply Z.log2_lt_pow2; lia).
    apply Z.log2_le_pow2 in Hge; lia.
Qed.

Lemma sign_bit_cases (s : bool) : sign_bit s = 0 \/ sign_bit s = 2147483648.
Proof. destruct s; simpl; auto. Qed.

Lemma testbit_31 (s : bool) (r : Z) :
  0 <= r < 2147483648 -> Z.testbit (sign_bit s + r) 31 = s.
Proof.
  intros Hr. destruct s; unfold sign_bit.
  - apply Z.testbit_true; [lia|]. change (2 ^ 31) with 2147483648.
    Z.div_mod_to_equations. lia.
  - apply Z.testbit_false; [lia|]. change (2 ^ 31) with 2147483648.
    Z.div_mod_to_equations. lia.
Qed.

Lemma bits_of_single_range (x : float) :
  valid_binary 24 128 x = true -> 0 <= bits_of_single x < 2 ^ 32.
Proof.
  destruct x as [s | s | | s m e]; simpl valid_binary; intros H; unfold bits_of_single.
  - destruct (sign_bit_cases s) as [-> | ->]; lia.
  - destruct (sign_bit_cases s) as [-> | ->]; lia.
  - lia.
  - apply bounded_single in H.
    destruct (Z.ltb_spec (Zpos m) (2 ^ 23)); destruct (sign_bit_cases s) as [-> | ->];
      change (2 ^ 23) with 8388608 in *; change (2 ^ 24) with 16777216 in *;
      change (2 ^ 32) with 4294967296; lia.
Qed.

(** Decoding the bits of a single-precision float gives it back. *)
Lemma single_of_bits_of_single (x : float) :
  valid_binary 24 128 x = true -> single_of_bits (bits_of_single x) = x.
Proof.
  destruct x as [s | s | | s m e]; simpl valid_binary; intros H;
    unfold bits_of_single, single_of_bits.
  - replace (sign_bit s) with (sign_bit s + 0) by lia. rewrite testbit_31 by lia.
    replace (((sign_bit s + 0) / 2 ^ 23) `mod` 256) with 0;
      [replace ((sign_bit s + 0) `mod` 2 ^ 23) with 0; [reflexivity|]|];
      destruct s; reflexivity.
  - rewrite testbit_31 by lia.
    replace (((sign_bit s + 255 * 2 ^ 23) / 2 ^ 23) `mod` 256) with 255;
      [replace ((sign_bit s + 255 * 2 ^ 23) `mod` 2 ^ 23) with 0; [reflexivity|]|];
      destruct s; reflexivity.
  - reflexivity.
  - apply bounded_single in H. change (2 ^ 23) with 8388608 in *.
    change (2 ^ 24) with 16777216 in *.
    destruct (Z.ltb_spec (Zpos m) 8388608) as [Hsub | Hnorm].
    + rewrite testbit_31 by lia.
      replace (((sign_bit s + Zpos m) / 8388608) `mod` 256) with 0
        by (destruct (sign_bit_cases s) as [-> | ->]; Z.div_mod_to_equations; lia).
      replace ((sign_bit s + Zpos m) `mod` 8388608) with (Zpos m)
        by (destruct (sign_bit_cases s) as [-> | ->]; Z.div_mod_to_equations; lia).
      simpl. destruct H as [(_ & ->) | (? & _)]; [reflexivity | lia].
    + destruct H as [(? & _) | (Hm & He)]; [lia|].
      rewrite <- Z.add_assoc. rewrite testbit_31 by lia.
      replace (((sign_bit s + ((e + 150) * 8388608 + (Zpos m - 8388608))) / 8388608) `mod` 256)
        with (e + 150)
        by (destruct (sign_bit_cases s) as [-> | ->]; Z.div_mod_to_equations; lia).
      replace ((sign_bit s + ((e + 150) * 8388608 + (Zpos m - 8388608))) `mod` 8388608)
        with (Zpos m - 8388608)
        by (destruct (sign_bit_cases s) as [-> | ->]; Z.div_mod_to_equations; lia).
      destruct (Z.eqb_spec (e + 150) 0); [lia|].
      destruct (Z.eqb_spec (e + 150) 255); [lia|].
      replace (Zpos m - 8388608 + 8388608) with (Zpos m) by lia.
      f_equal. lia.
Qed.

Lemma le_value_le_bytes_4 (v : Z) : 0 <= v < 2 ^ 32 -> le_value (le_bytes 4 v) = v.
Proof.
  intros Hv. change (2 ^ 32) with 4294967296 in Hv. unfold le_bytes, le_value.
  Z.div_mod_to_equations. lia.
Qed.

Lemma le_bytes_4_shape (v : Z) :
  exists b0 b1 b2 b3, le_bytes 4 v = [b0; b1; b2; b3] /\
    0 <= b0 < 256 /\ 0 <= b1 < 256 /\ 0 <= b2 < 256 /\ 0 <= b3 < 256.
Proof.
  unfold le_bytes. do 4 eexists. split; [reflexivity|].
  repeat split; apply Z.mod_pos_bound; lia.
Qed.

(** Unpacking what [pack_f] packed gives the float rounded to single
    precision. *)
Lemma unpack_f_pack_f (x : float) (bs : list Z) :
  pack_f x = Ok bs -> unpack_f bs = double_of_single (round_single x).
Proof.
  unfold pack_f, unpack_f. intros H.
  assert (Hbs : bs = le_bytes 4 (bits_of_single (round_single x))).
  { destruct x; destruct (round_single _); congruence. }
  subst bs. rewrite le_value_le_bytes_4, single_of_bits_of_single;
    auto using round_single_valid, bits_of_single_range.
Qed.

(** *** The exception monad *)

(** A sequence of two steps returns only if both do. *)
Lemma bind_ok {A B : Type} (r : result A) (k : A -> result B) (b : B) :
  (r ≫= k) = Ok b -> exists a, r = Ok a /\ k a = Ok b.
Proof. destruct r as [a|e]; simpl; [eauto | discriminate]. Qed.

Lemma bind_raise {A B : Type} (r : result A) (k : A -> result B) (e : exn) :
  r = Raise e -> (r ≫= k) = Raise e.
Proof. now intros ->. Qed.

Lemma bind_step {A B : Type} (r : result A) (k : A -> result B) (a : A) :
  r = Ok a -> (r ≫= k) = k a.
Proof. now intros ->. Qed.

Lemma assert_ok (c : bool) (u : unit) : assert c = Ok u -> c = true.
Proof. now destruct c. Qed.

Ltac bind_inv H :=
  let x := fresh "x" in
  let Hx := fresh "H" x in
  apply bind_ok in H; destruct H as (x & Hx & H).

End PyFacts.

(** ** The transport: [write] then [drain] *)

Module StreamsProofs.
Import Py PyFacts Streams Examples.

Section PortFacts.

Variable port : nat -> behaviour.

Lemma is_empty_spec (data : list Byte.byte) : is_empty data = true <-> data = [].
Proof. destruct data; simpl; split; congruence. Qed.

Lemma connection_write_ok st data n st' :
  connection_write port st data = (Ok n, st') ->
  (n <= length data)%nat /\
  received st' = received st ++ take n data /\
  _output_buffer st' = _output_buffer st /\
  _output_buffer_empty st' = _output_buffer_empty st /\
  writer st' = writer st.
Proof.
  unfold connection_write. destruct (port (attempts st)) as [room | |];
    intros [= <- <-]; simpl; repeat split; lia.
Qed.

Lemma connection_write_raise st data e st' :
  connection_write port st data = (Raise e, st') ->
  received st' = received st /\
  _output_buffer st' = _output_buffer st /\
  _output_buffer_empty st' = _output_buffer_empty st /\
  writer st' = writer st.
Proof.
  unfold connection_write. destruct (port (attempts st)) as [room | |];
    intros [= <- <-]; simpl; repeat split.
  apply app_nil_r.
Qed.

Lemma arm_consistent st :
  (_output_buffer_empty st = None -> writer st = false) ->
  (_output_buffer_empty st <> None -> consistent st) ->
  consistent (arm st) /\ received (arm st) = received st /\
  _output_buffer (arm st) = _output_buffer st.
Proof.
  intros Hnone Hsome. unfold arm.
  destruct (_output_buffer st) as [|b rest] eqn:Hb;
    destruct (_output_buffer_empty st) as [f|] eqn:Hf; simpl; rewrite ?Hb;
    (split; [|split; reflexivity]).
  - apply Hsome. discriminate.
  - unfold consistent. rewrite Hb, Hf. specialize (Hnone eq_refl).
    rewrite Hnone. split; split; congruence.
  - apply Hsome. discriminate.
  - unfold consistent. simpl. split; split; congruence.
Qed.

(** What a [write] that returns does: the port takes a prefix of the
    data (nothing while bytes wait), the rest goes to the end of the
    output buffer. *)
Lemma write_appends_remainder st data st' :
  consistent st ->
  write port st data = (Ok tt, st') ->
  consistent st' /\
  exists n, (n <= length data)%nat /\
    received st' = received st ++ take n data /\
    _output_buffer st' = _output_buffer st ++ drop n data /\
    (_output_buffer st <> [] -> n = 0%nat).
Proof.
  intros (Hfut & Hwr). unfold write.
  destruct (is_empty (_output_buffer st)) eqn:Hemp.
  - apply is_empty_spec in Hemp.
    destruct (connection_write port st data) as [[n | e] st1] eqn:Hcw; [|discriminate].
    intros [= <-].
    destruct (connection_write_ok _ _ _ _ Hcw) as (Hn & Hrec & Hbuf & Hf & Hw).
    assert (Hnone : _output_buffer_empty st = None) by now apply Hfut.
    destruct (arm_consistent (set_buffer st1 (drop n data))) as (Hc & Hr & Hb).
    + simpl. intros _. rewrite Hw.
      destruct (writer st) eqn:E; [|reflexivity].
      destruct Hwr as [Hwr _]. specialize (Hwr eq_refl). congruence.
    + simpl. rewrite Hf, Hnone. congruence.
    + split; [assumption|]. exists n. rewrite Hr, Hb. simpl.
      rewrite Hemp. repeat split; try assumption. congruence.
  - intros [= <-].
    assert (Hne : _output_buffer st <> []).
    { intros H. apply is_empty_spec in H. congruence. }
    assert (Hsome : _output_buffer_empty st <> None) by (intros H; now apply Hfut in H).
    destruct (arm_consistent (set_buffer st (_output_buffer st ++ data))) as (Hc & Hr & Hb).
    + simpl. intros H. contradiction.
    + simpl. intros _. unfold consistent. simpl. split; [|assumption].
      split; [contradiction|]. intros H. apply app_eq_nil in H. tauto.
    + split; [assumption|]. exists 0%nat. rewrite Hr, Hb. simpl.
      rewrite app_nil_r. repeat split; auto. lia.
Qed.

Lemma feed_data_offered st room :
  offered (port (attempts st)) = Some room ->
  let n := Nat.min room (length (_output_buffer st)) in
  let rest := drop n (_output_buffer st) in
  _feed_data port st = {|
    _output_buffer := rest;
    _output_buffer_empty := if is_empty rest then None else _output_buffer_empty st;
    writer := if is_empty rest then false else writer st;
    received := received st ++ take n (_output_buffer st);
    attempts := S (attempts st)
  |}.
Proof.
  intros Hroom. unfold _feed_data, connection_write.
  destruct (port (attempts st)) as [r | |]; simpl in Hroom; [| |discriminate];
    injection Hroom as <-; cbv zeta.
  - destruct (Nat.ltb_spec 0 (Nat.min r (length (_output_buffer st)))) as [Hpos | Hzero].
    + simpl. now destruct (is_empty _).
    + replace (Nat.min r (length (_output_buffer st))) with 0%nat by lia.
      simpl. now destruct (is_empty _).
  - simpl. now destruct (is_empty _).
Qed.

Lemma feed_data_fails st :
  port (attempts st) = Fails ->
  _feed_data port st = {|
    _output_buffer := _output_buffer st;
    _output_buffer_empty := Some Failed;
    writer := false;
    received := received st ++ [];
    attempts := S (attempts st)
  |}.
Proof. intros H. unfold _feed_data, connection_write. now rewrite H. Qed.

(** What the callback does: a prefix of the output buffer moves to the
    port, and the future completes when nothing is left. *)
Lemma feed_data_moves_prefix st :
  consistent st -> writer st = true ->
  consistent (_feed_data port st) /\
  exists n, (n <= length (_output_buffer st))%nat /\
    received (_feed_data port st) = received st ++ take n (_output_buffer st) /\
    _output_buffer (_feed_data port st) = drop n (_output_buffer st) /\
    (forall room, offered (port (attempts st)) = Some room ->
       n = Nat.min room (length (_output_buffer st)) /\
       _output_buffer_empty (_feed_data port st) <> Some Failed).
Proof.
  intros (Hfut & Hwr) Hw.
  assert (Hpend : _output_buffer_empty st = Some Pending) by now apply Hwr.
  destruct (offered (port (attempts st))) as [room|] eqn:Hroom.
  - rewrite (feed_data_offered st room Hroom). cbv zeta.
    set (n := Nat.min room (length (_output_buffer st))).
    split.
    + unfold consistent. simpl.
      destruct (is_empty (drop n (_output_buffer st))) eqn:Hemp.
      * apply is_empty_spec in Hemp. split; split; congruence.
      * assert (drop n (_output_buffer st) <> []).
        { intros H. apply is_empty_spec in H. congruence. }
        rewrite Hpend, Hw. split; split; congruence.
    + exists n. simpl. split; [subst n; lia|]. split; [reflexivity|].
      split; [reflexivity|]. intros room' [= <-]. split; [reflexivity|].
      destruct (is_empty (drop n (_output_buffer st))); rewrite ?Hpend; congruence.
  - assert (Hfails : port (attempts st) = Fails).
    { destruct (port (attempts st)); simpl in Hroom; congruence. }
    rewrite (feed_data_fails st Hfails). split.
    + unfold consistent. simpl. split; split; try congruence.
      intros H. apply Hfut in H. congruence.
    + exists 0%nat. simpl. repeat split; try lia; discriminate.
Qed.

Lemma loop_turn_moves_prefix st :
  consistent st ->
  consistent (loop_turn port st) /\
  received (loop_turn port st) ++ _output_buffer (loop_turn port st)
  = received st ++ _output_buffer st.
Proof.
  intros Hc. unfold loop_turn. destruct (writer st) eqn:Hw; [|auto].
  destruct (feed_data_moves_prefix st Hc Hw) as (Hc' & n & _ & Hr & Hb & _).
  split; [assumption|]. rewrite Hr, Hb, <- app_assoc. now rewrite take_drop.
Qed.

Lemma opened_consistent : consistent opened.
Proof. unfold consistent, opened. simpl. split; split; congruence. Qed.

(** Nothing is lost and nothing overtakes: what the port has taken,
    followed by what still waits, is what was written, in call order. *)
Lemma run_conserves h : forall st written st' written',
  consistent st -> received st ++ _output_buffer st = written ->
  run port st written h = Ok (st', written') ->
  consistent st' /\ received st' ++ _output_buffer st' = written'.
Proof.
  induction h as [|[data|] h IH]; intros st written st' written' Hc Hw Hrun; simpl in Hrun.
  - injection Hrun as <- <-. auto.
  - destruct (write port st data) as [[[]|e] st1] eqn:Hwrite; [|discriminate].
    destruct (write_appends_remainder st data st1 Hc Hwrite) as (Hc1 & n & _ & Hr & Hb & Hz).
    apply (IH _ _ _ _ Hc1) in Hrun; [assumption|].
    rewrite Hr, Hb, <- Hw. destruct (_output_buffer st) as [|b rest].
    + simpl. rewrite app_nil_r, <- app_assoc. now rewrite take_drop.
    + rewrite (Hz ltac:(discriminate)). simpl. now rewrite app_nil_r, <- app_assoc.
  - destruct (loop_turn_moves_prefix st Hc) as (Hc1 & Hcons).
    apply (IH _ _ _ _ Hc1) in Hrun; [assumption|]. now rewrite Hcons.
Qed.

(** [drain] returns only when the buffer is empty. *)
Lemma drain_returns turns : forall st st',
  consistent st ->
  drain port turns st = (Some (Ok tt), st') ->
  consistent st' /\ _output_buffer st' = [] /\
  received st' = received st ++ _output_buffer st.
Proof.
  induction turns as [|turns IH]; intros st st' Hc Hd; simpl in Hd;
    destruct (_output_buffer_empty st) as [[|]|] eqn:Hf; try discriminate.
  - injection Hd as <-. destruct Hc as (Hfut & Hwr).
    rewrite (proj1 Hfut Hf), app_nil_r. repeat split; tauto.
  - destruct (loop_turn_moves_prefix st Hc) as (Hc1 & Hcons).
    destruct (IH _ _ Hc1 Hd) as (Hc' & Hb & Hr). now rewrite Hr, Hcons.
  - injection Hd as <-. destruct Hc as (Hfut & Hwr).
    rewrite (proj1 Hfut Hf), app_nil_r. repeat split; tauto.
Qed.

(** While the future is pending [drain] stays suspended. *)
Lemma drain_suspended st :
  _output_buffer_empty st = Some Pending -> drain port 0 st = (None, st).
Proof. intros H. simpl. now rewrite H. Qed.

Lemma drain_immediate turns st :
  consistent st -> _output_buffer st = [] ->
  drain port turns st = (Some (Ok tt), st).
Proof.
  intros (Hfut & _) Hb. apply Hfut in Hb. destruct turns; simpl; now rewrite Hb.
Qed.

Lemma drain_completes : generous port -> forall turns st,
  consistent st -> _output_buffer_empty st <> Some Failed ->
  (length (_output_buffer st) <= turns)%nat ->
  exists st', drain port turns st = (Some (Ok tt), st').
Proof.
  intros Hgen. induction turns as [|turns IH]; intros st Hc Hnf Hlen.
  - exists st. apply drain_immediate; [assumption|].
    destruct (_output_buffer st); [reflexivity | simpl in Hlen; lia].
  - simpl. destruct (_output_buffer_empty st) as [[|]|] eqn:Hf;
      [|contradiction|eauto].
    assert (Hw : writer st = true) by now apply Hc.
    unfold loop_turn. rewrite Hw.
    destruct (Hgen (attempts st)) as (room & Hport).
    destruct (feed_data_moves_prefix st Hc Hw) as (Hc1 & n & Hn & _ & Hb & Hroom).
    destruct (Hroom (S room)) as (Hmin & Hnf1); [now rewrite Hport|].
    apply IH; [assumption | assumption |].
    rewrite Hb, length_drop.
    assert (_output_buffer st <> []).
    { intros H. apply Hc in H. congruence. }
    destruct (_output_buffer st); [contradiction|]. simpl in *. lia.
Qed.

Lemma arm_not_failed st :
  _output_buffer_empty st <> Some Failed -> _output_buffer_empty (arm st) <> Some Failed.
Proof.
  intros H. unfold arm. destruct (_output_buffer st); [assumption|].
  destruct (_output_buffer_empty st) eqn:E; [now rewrite E | simpl; discriminate].
Qed.

Lemma run_healthy : generous port -> forall h st written st' written',
  consistent st -> _output_buffer_empty st <> Some Failed ->
  run port st written h = Ok (st', written') ->
  _output_buffer_empty st' <> Some Failed.
Proof.
  intros Hgen. induction h as [|[data|] h IH];
    intros st written st' written' Hc Hnf Hrun; simpl in Hrun.
  - now injection Hrun as <- <-.
  - destruct (write port st data) as [[[]|e] st1] eqn:Hwrite; [|discriminate].
    destruct (write_appends_remainder st data st1 Hc Hwrite) as (Hc1 & _).
    apply (IH _ _ _ _ Hc1) in Hrun; [assumption|].
    revert Hwrite. unfold write.
    destruct (is_empty (_output_buffer st)).
    + destruct (connection_write port st data) as [[n|e] st2] eqn:Hcw; [|discriminate].
      intros [= <-]. destruct (connection_write_ok _ _ _ _ Hcw) as (_ & _ & _ & Hf & _).
      apply arm_not_failed. simpl. congruence.
    + intros [= <-]. now apply arm_not_failed.
  - destruct (loop_turn_moves_prefix st Hc) as (Hc1 & _).
    apply (IH _ _ _ _ Hc1) in Hrun; [assumption|].
    unfold loop_turn. destruct (writer st) eqn:Hw; [|assumption].
    destruct (Hgen (attempts st)) as (room & Hport).
    destruct (feed_data_moves_prefix st Hc Hw) as (_ & n & _ & _ & _ & Hroom).
    destruct (Hroom (S room)) as (_ & H); [now rewrite Hport | assumption].
Qed.

(** C7: after any history of [write] calls (and turns of the event
    loop) on a fresh stream, the bytes the port has taken followed by
    the output buffer are the bytes written, in call order; a further
    [write] hands a prefix of its data to the port and appends the rest
    to the end of the buffer; [drain] returns only with every byte
    taken and the buffer empty, returns at once when the buffer is
    empty already, and does return, within one turn per waiting byte,
    when each attempt of the port takes at least one byte. *)
Theorem drain_waits_for_every_byte h st written :
  run port opened [] h = Ok (st, written) ->
  received st ++ _output_buffer st = written /\
  (forall data st1, write port st data = (Ok tt, st1) ->
     exists n, received st1 = received st ++ take n data /\
       _output_buffer st1 = _output_buffer st ++ drop n data) /\
  (forall turns st', drain port turns st = (Some (Ok tt), st') ->
     received st' = written /\ _output_buffer st' = []) /\
  (_output_buffer st = [] -> forall turns, drain port turns st = (Some (Ok tt), st)) /\
  (generous port ->
     exists st', drain port (length (_output_buffer st)) st = (Some (Ok tt), st') /\
       received st' = written /\ _output_buffer st' = []).
Proof.
  intros Hrun.
  destruct (run_conserves h opened [] st written opened_consistent eq_refl Hrun)
    as (Hc & Hcons).
  split; [assumption|]. split.
  { intros data st1 Hw.
    destruct (write_appends_remainder st data st1 Hc Hw) as (_ & n & _ & Hr & Hb & _).
    eauto. }
  assert (Hsafe : forall turns st', drain port turns st = (Some (Ok tt), st') ->
                    received st' = written /\ _output_buffer st' = []).
  { intros turns st' Hd. destruct (drain_returns turns st st' Hc Hd) as (_ & Hb & Hr).
    split; [congruence | assumption]. }
  split; [assumption|]. split.
  { intros Hb turns. apply drain_immediate; assumption. }
  intros Hgen.
  destruct (drain_completes Hgen (length (_output_buffer st)) st Hc) as (st' & Hd);
    [|lia|].
  { apply (run_healthy Hgen h opened [] st written opened_consistent);
      [discriminate | assumption]. }
  exists st'. split; [assumption|]. exact (Hsafe _ _ Hd).
Qed.

End PortFacts.

Lemma three_at_a_time_generous : generous three_at_a_time.
Proof. intros i. exists 2%nat. reflexivity. Qed.

Lemma drain_waits_for_every_byte_witness :
  exists st,
    run three_at_a_time opened [] two_writes = Ok (st, nine_bytes) /\
    _output_buffer st = drop 3 nine_bytes /\
    drain three_at_a_time 1 st = (None, loop_turn three_at_a_time st) /\
    exists st', drain three_at_a_time 6 st = (Some (Ok tt), st') /\
      received st' = nine_bytes /\ _output_buffer st' = [].
Proof.
  eexists. split; [vm_compute; reflexivity|]. split; [reflexivity|].
  split; [reflexivity|].
  destruct (drain_waits_for_every_byte three_at_a_time two_writes _ nine_bytes
              ltac:(vm_compute; reflexivity)) as (_ & _ & _ & _ & Hlive).
  exact (Hlive three_at_a_time_generous).
Defined.

End StreamsProofs.

(** ** [capture]: timing regimes *)

Module CaptureProofs.
Import Py Vm Scope PyFacts Examples.

(** An exception of the timing stage leaves [capture] before anything
    is sent or read. *)
Lemma capture_raises_in_timing fl int16 s a e w :
  capture_timing s a = Raise e -> capture fl int16 s a w = (Raises e, w).
Proof.
  intros H. unfold capture. unfold mbind at 1, io_bind. unfold lift at 1.
  now rewrite H.
Qed.

Lemma within_spec (a b t : Z) : (a <=? t) && (t <? b) = true <-> a <= t < b.
Proof. rewrite andb_true_iff, Z.leb_le, Z.ltb_lt. tauto. Qed.

Lemma within_true (a b t : Z) : a <= t < b -> (a <=? t) && (t <? b) = true.
Proof. apply within_spec. Qed.

Lemma within_false (a b t : Z) : ~ (a <= t < b) -> (a <=? t) && (t <? b) = false.
Proof. rewrite <- within_spec. now destruct ((a <=? t) && (t <? b)). Qed.

Lemma select_regime_unsupported chans t :
  ~ (2 <= t < 65536) ->
  select_regime chans t = Raise (RuntimeError ("Unsupported clock period: " ++ str_of_int t)).
Proof.
  intros H. unfold select_regime.
  rewrite !within_false by lia. reflexivity.
Qed.

Lemma select_regime_native chans t :
  40 <= t < 65536 ->
  exists r, select_regime chans t = Ok r /\ ticks r = t /\ sample_width r = 2 /\
            buffer_width r = 6144 /\ dump_mode r = DumpMode.Native.
Proof.
  intros H. unfold select_regime. rewrite within_true by lia.
  eexists. split; [reflexivity|]. now simpl.
Qed.

Lemma select_regime_bytes chans t :
  2 <= t < 40 ->
  exists r, select_regime chans t = Ok r /\ ticks r = (if t <? 8 then Z.min t 5 else t) /\
            sample_width r = 1 /\ buffer_width r = 12288 /\ dump_mode r = DumpMode.Raw.
Proof.
  intros H. unfold select_regime. rewrite (within_false 40) by lia.
  destruct (Z.le_gt_cases 15 t).
  { rewrite within_true by lia. eexists. split; [reflexivity|]. simpl.
    destruct (Z.ltb_spec t 8); repeat split; lia. }
  rewrite (within_false 15) by lia.
  destruct (Z.le_gt_cases 8 t).
  { rewrite within_true by lia. eexists. split; [reflexivity|]. simpl.
    destruct (Z.ltb_spec t 8); repeat split; lia. }
  rewrite (within_false 8) by lia. rewrite within_true by lia.
  eexists. split; [reflexivity|]. simpl.
  destruct (Z.ltb_spec t 8); destruct (Z.ltb_spec 5 t); repeat split; lia.
Qed.

(** The timing stage returns what its three steps computed. *)
Lemma capture_timing_ok s a tm :
  capture_timing s a = Ok tm ->
  exists t, requested_ticks s a = Ok t /\
    select_regime (channels a) t = Ok (mode tm) /\
    recomputed_nsamples s a (ticks (mode tm)) = Ok (count tm) /\
    multiplier tm = nsamples_multiplier (channels a) /\
    total_samples tm = count tm * nsamples_multiplier (channels a) /\
    total_samples tm <= buffer_width (mode tm).
Proof.
  unfold capture_timing. intros H.
  bind_inv H. bind_inv H. bind_inv H. bind_inv H.
  apply assert_ok, Z.leb_le in Hx2. injection H as <-. simpl.
  exists x. repeat split; assumption.
Qed.

Lemma register_clock_ticks fl s a tm e kw :
  capture_registers fl s a tm e = Ok kw ->
  register "ClockTicks" kw = Some (VInt (ticks (mode tm))).
Proof.
  unfold capture_registers. intros H.
  bind_inv H. bind_inv H. bind_inv H. injection H as <-. reflexivity.
Qed.

Lemma contains_spec (x : string) (l : list string) : contains x l = true <-> In x l.
Proof.
  unfold contains. rewrite existsb_exists. split.
  - intros (y & Hy & Heq). apply String.eqb_eq in Heq. now subst.
  - intros H. exists x. split; [assumption | apply String.eqb_refl].
Qed.

Lemma both_channels_spec (chans : list string) :
  both_channels chans = true <-> In "A"%string chans /\ In "B"%string chans.
Proof. unfold both_channels. now rewrite andb_true_iff, !contains_spec. Qed.

Lemma requested_ticks_of_quotient s a q t :
  ticks_quotient s a = Ok q -> int_of_float q = Ok t -> requested_ticks s a = Ok t.
Proof. intros Hq Ht. unfold requested_ticks. now rewrite (bind_step _ _ _ Hq). Qed.

(** C2: with [ticks] the floor of the quotient
    [period / nsamples / multiplier / capture_clock_period], where the
    multiplier is 2 exactly when both A and B are requested and 1
    otherwise: the code's [ticks] is that floor whenever it is not
    negative; for [ticks] in [40,65536) the sample width is 2 bytes, the
    buffer width 6144 and the dump mode Native; for [ticks] in [2,40)
    the sample width is 1 byte and the buffer width 12288; and for
    [ticks] outside [2,65536) [capture] raises the "unsupported clock
    period" error with nothing sent to or read from the device. *)
Theorem regime_of_floor_ticks fl int16 s a q t :
  ticks_quotient s a = Ok q -> floor_float q = Some t ->
  (nsamples_multiplier (channels a) = 2 <->
     In "A"%string (channels a) /\ In "B"%string (channels a)) /\
  (nsamples_multiplier (channels a) <> 2 -> nsamples_multiplier (channels a) = 1) /\
  (0 <= t -> requested_ticks s a = Ok t) /\
  (40 <= t < 65536 ->
     exists r, select_regime (channels a) t = Ok r /\
       sample_width r = 2 /\ buffer_width r = 6144 /\ dump_mode r = DumpMode.Native) /\
  (2 <= t < 40 ->
     exists r, select_regime (channels a) t = Ok r /\
       sample_width r = 1 /\ buffer_width r = 12288) /\
  (~ (2 <= t < 65536) ->
     forall w, exists t',
       requested_ticks s a = Ok t' /\
       capture fl int16 s a w =
         (Raises (RuntimeError ("Unsupported clock period: " ++ str_of_int t')), w)).
Proof.
  intros Hq Hfloor.
  split.
  { rewrite <- both_channels_spec. unfold nsamples_multiplier.
    destruct (both_channels (channels a)); split; intros; (reflexivity || discriminate). }
  split.
  { unfold nsamples_multiplier. destruct (both_channels (channels a)); [easy | reflexivity]. }
  split.
  { intros Ht. eapply requested_ticks_of_quotient; [eassumption|].
    now apply int_of_float_floor_nonneg. }
  split.
  { intros Ht. destruct (select_regime_native (channels a) t Ht) as (r & ? & ? & ? & ? & ?).
    exists r. auto. }
  split.
  { intros Ht. destruct (select_regime_bytes (channels a) t Ht) as (r & ? & ? & ? & ? & ?).
    exists r. auto. }
  intros Ht w.
  assert (Hcode : exists t', int_of_float q = Ok t' /\ ~ (2 <= t' < 65536)).
  { destruct (Z.le_gt_cases 0 t).
    - exists t. split; [now apply int_of_float_floor_nonneg | assumption].
    - destruct (int_of_float_floor_neg q t Hfloor) as (t' & ? & ?); [assumption|].
      exists t'. split; [assumption | lia]. }
  destruct Hcode as (t' & Hint & Hout). exists t'.
  pose proof (requested_ticks_of_quotient _ _ _ _ Hq Hint) as Hreq.
  split; [assumption|].
  apply capture_raises_in_timing. unfold capture_timing.
  rewrite (bind_step _ _ _ Hreq). apply bind_raise.
  now apply select_regime_unsupported.
Qed.

(** C9: when the requested tick count lies in [2,8), the value of
    [ticks] that the rest of [capture] uses (the recomputation of the
    sample count and the ClockTicks register) is the smaller of the
    requested count and 5: it is at most 5, and a count of 2 to 5 is
    used unchanged. *)
Theorem shot_regime_clamps_ticks fl s a t :
  requested_ticks s a = Ok t -> 2 <= t < 8 ->
  exists r,
    select_regime (channels a) t = Ok r /\
    ticks r = Z.min t 5 /\ ticks r <= 5 /\ (t <= 5 -> ticks r = t) /\
    forall tm, capture_timing s a = Ok tm ->
      mode tm = r /\
      recomputed_nsamples s a (Z.min t 5) = Ok (count tm) /\
      forall e kw, capture_registers fl s a tm e = Ok kw ->
        register "ClockTicks" kw = Some (VInt (Z.min t 5)).
Proof.
  intros Ht Hr.
  assert (Hsel : exists r, select_regime (channels a) t = Ok r /\ ticks r = Z.min t 5).
  { unfold select_regime. rewrite !within_false by lia. rewrite within_true by lia.
    eexists. split; [reflexivity|]. simpl. destruct (Z.ltb_spec 5 t); lia. }
  destruct Hsel as (r & Hsel & Hticks). exists r.
  split; [assumption|]. split; [assumption|]. split; [lia|]. split; [lia|].
  intros tm Htm. destruct (capture_timing_ok _ _ _ Htm) as (t' & Ht' & Hsel' & Hn & _).
  assert (t' = t) by congruence. subst t'.
  assert (mode tm = r) by congruence. subst r.
  split; [reflexivity|]. rewrite <- Hticks. split; [assumption|].
  intros e kw Hkw. eapply register_clock_ticks; eassumption.
Qed.

Lemma shot_regime_clamps_ticks_witness :
  requested_ticks BS0005 six_ticks = Ok 6 /\ 2 <= 6 < 8 /\
  exists r,
    select_regime (channels six_ticks) 6 = Ok r /\
    ticks r = Z.min 6 5 /\ ticks r <= 5 /\ (6 <= 5 -> ticks r = 6) /\
    forall tm, capture_timing BS0005 six_ticks = Ok tm ->
      mode tm = r /\
      recomputed_nsamples BS0005 six_ticks (Z.min 6 5) = Ok (count tm) /\
      forall e kw, capture_registers one_bit_flags BS0005 six_ticks tm e = Ok kw ->
        register "ClockTicks" kw = Some (VInt (Z.min 6 5)).
Proof.
  split; [vm_compute; reflexivity|]. split; [lia|].
  apply (shot_regime_clamps_ticks one_bit_flags BS0005 six_ticks 6);
    [vm_compute; reflexivity | lia].
Defined.

Lemma regime_of_floor_ticks_witness :
  exists q, ticks_quotient BS0005 default_args = Ok q /\ floor_float q = Some 40 /\
    requested_ticks BS0005 default_args = Ok 40 /\
    exists r, select_regime (channels default_args) 40 = Ok r /\
      sample_width r = 2 /\ buffer_width r = 6144 /\ dump_mode r = DumpMode.Native.
Proof.
  eexists. split; [vm_compute; reflexivity|]. split; [vm_compute; reflexivity|].
  pose proof (regime_of_floor_ticks one_bit_flags int_base16 BS0005 default_args _ 40
                ltac:(vm_compute; reflexivity) ltac:(vm_compute; reflexivity)) as H.
  destruct H as (_ & _ & Hint & Hnative & _).
  split; [apply Hint; lia | apply Hnative; lia].
Defined.

(** The width of the buffer goes with the width of a sample. *)
Lemma select_regime_widths chans t r :
  select_regime chans t = Ok r ->
  sample_width r = 2 /\ buffer_width r = 6144 \/
  sample_width r = 1 /\ buffer_width r = 12288.
Proof.
  unfold select_regime.
  repeat match goal with
  | |- context [if ?c then Ok _ else _] => destruct c
  end;
  try discriminate; intros [= <-]; simpl; auto.
Qed.

(** What the assertion of line 115 does: when the timing stage is
    passed, [total_samples = nsamples * multiplier], with [nsamples]
    recomputed from the clamped [ticks], is within the buffer width of
    the regime (6144 for 2-byte samples, 12288 for 1-byte samples); a
    request whose recomputed total is beyond that width ends in an
    AssertionError, with nothing sent to or read from the device; and
    [capture] does nothing else unless the timing stage is passed. *)
Lemma total_samples_gated fl int16 s a :
  (forall tm, capture_timing s a = Ok tm ->
     recomputed_nsamples s a (ticks (mode tm)) = Ok (count tm) /\
     total_samples tm = count tm * multiplier tm /\
     total_samples tm <= buffer_width (mode tm) /\
     (sample_width (mode tm) = 2 /\ buffer_width (mode tm) = 6144 \/
      sample_width (mode tm) = 1 /\ buffer_width (mode tm) = 12288)) /\
  (forall t r n,
     requested_ticks s a = Ok t ->
     select_regime (channels a) t = Ok r ->
     recomputed_nsamples s a (ticks r) = Ok n ->
     buffer_width r < n * nsamples_multiplier (channels a) ->
     forall w, capture fl int16 s a w = (Raises AssertionError, w)) /\
  (forall w o w', capture fl int16 s a w = (o, w') ->
     (exists tm, capture_timing s a = Ok tm) \/
     (exists e, capture_timing s a = Raise e /\ o = Raises e /\ w' = w)).
Proof.
  split; [|split].
  - intros tm Htm.
    destruct (capture_timing_ok _ _ _ Htm) as (t & Ht & Hsel & Hn & Hm & Htot & Hle).
    split; [assumption|]. split; [now rewrite Hm|]. split; [assumption|].
    eapply select_regime_widths; eassumption.
  - intros t r n Ht Hsel Hn Hover w.
    apply capture_raises_in_timing. unfold capture_timing.
    rewrite (bind_step _ _ _ Ht), (bind_step _ _ _ Hsel), (bind_step _ _ _ Hn).
    apply bind_raise. unfold assert.
    destruct (Z.leb_spec (n * nsamples_multiplier (channels a)) (buffer_width r));
      [lia | reflexivity].
  - intros w o w' H. destruct (capture_timing s a) as [tm|e] eqn:Htm; [eauto|].
    right. exists e. rewrite (capture_raises_in_timing fl int16 s a e w Htm) in H.
    now injection H as <- <-.
Qed.

(** C1: the assertion of line 115 states the bound and the code does
    not keep it.  [capture(nsamples=20000)] asks for 2 ticks per
    sample, a supported count, so no regime refuses it; the recomputed
    total of 20000 samples is beyond the 12288 of the regime, and the
    assertion fails. *)
Lemma total_samples_can_exceed_buffer :
  requested_ticks BS0005 oversized = Ok 2 /\
  (exists r, select_regime (channels oversized) 2 = Ok r /\ buffer_width r = 12288 /\
     recomputed_nsamples BS0005 oversized (ticks r) = Ok 20000) /\
  nsamples_multiplier (channels oversized) = 1 /\
  ~ (20000 * 1 <= 12288) /\
  capture_timing BS0005 oversized = Raise AssertionError /\
  forall w, capture one_bit_flags int_base16 BS0005 oversized w = (Raises AssertionError, w).
Proof.
  assert (H : capture_timing BS0005 oversized = Raise AssertionError)
    by (vm_compute; reflexivity).
  split; [vm_compute; reflexivity|].
  split; [eexists; split; [reflexivity|]; split; vm_compute; reflexivity|].
  split; [reflexivity|]. split; [lia|]. split; [exact H|].
  intros w. now apply capture_raises_in_timing.
Qed.

(** The clamp of line 101 can push a request that fits over the
    width: 12000 samples at 7 ticks become 16800 at 5. *)
Example clamp_inflates_total :
  requested_ticks BS0005 seven_ticks = Ok 7 /\
  recomputed_nsamples BS0005 seven_ticks 5 = Ok 16800 /\
  capture_timing BS0005 seven_ticks = Raise AssertionError.
Proof. split; [|split]; vm_compute; reflexivity. Qed.

(** On a negative quotient [int] gives 0 where the floor is -1; both
    are outside the supported range and the request is refused. *)
Example negative_quotient_truncates :
  (exists q, ticks_quotient BS0005 negative_period = Ok q /\ floor_float q = Some (-1)) /\
  requested_ticks BS0005 negative_period = Ok 0 /\
  capture_timing BS0005 negative_period
    = Raise (RuntimeError "Unsupported clock period: 0").
Proof.
  split; [eexists; split; vm_compute; reflexivity|].
  split; vm_compute; reflexivity.
Qed.

(** ** [capture]: trigger encoding *)

Lemma capture_raises_in_trigger fl int16 s a tm e w :
  capture_timing s a = Ok tm -> capture_trigger fl s a = Raise e ->
  capture fl int16 s a w = (Raises e, w).
Proof.
  intros Htm He. unfold capture. unfold mbind at 1, io_bind. unfold lift at 1.
  rewrite Htm. unfold mbind at 1, io_bind. unfold lift at 1. now rewrite He.
Qed.

Lemma effective_trigger_channel_foreign a c :
  trigger_channel a = Some c -> ~ In c (channels a) ->
  effective_trigger_channel a = Raise AssertionError.
Proof.
  intros Hc Hin. unfold effective_trigger_channel. rewrite Hc.
  destruct (contains c (channels a)) eqn:E; [|reflexivity].
  apply contains_spec in E. contradiction.
Qed.

Lemma inverts_spec (trigger_type : string) :
  inverts trigger_type = true <->
  lower trigger_type = "falling"%string \/ lower trigger_type = "below"%string.
Proof.
  unfold inverts. rewrite contains_spec. simpl. intuition congruence.
Qed.

Lemma intro_samples_spec (trigger_type : string) :
  (lower trigger_type = "above"%string \/ lower trigger_type = "below"%string ->
   intro_samples trigger_type = 0) /\
  (lower trigger_type = "rising"%string \/ lower trigger_type = "falling"%string ->
   intro_samples trigger_type = 4).
Proof.
  unfold intro_samples. split; intros [-> | ->]; reflexivity.
Qed.

(** The SpockOption word after line 134. *)
Lemma capture_trigger_ok fl s a e :
  capture_trigger fl s a = Ok e ->
  effective_trigger_channel a = Ok (trigger e) /\
  trigger_intro e = intro_samples (trigger_type a) /\
  exists base,
    (base = TriggerTypeHardwareComparator fl \/
     base = Z.lor (TriggerTypeHardwareComparator fl) (TriggerSourceA fl) \/
     base = Z.lor (TriggerTypeHardwareComparator fl) (TriggerSourceB fl)) /\
    spock_option e =
      if inverts (trigger_type a) then Z.lor base (TriggerInvert fl) else base.
Proof.
  unfold capture_trigger. intros H. bind_inv H.
  destruct (String.eqb x "A"); [|destruct (String.eqb x "B")];
    bind_inv H; injection H as <-; simpl;
    (split; [assumption|]; split; [reflexivity|]);
    eexists; (split; [|reflexivity]); auto.
Qed.

Lemma has_flag_invert fl base :
  invert_is_own_bit fl ->
  (base = TriggerTypeHardwareComparator fl \/
   base = Z.lor (TriggerTypeHardwareComparator fl) (TriggerSourceA fl) \/
   base = Z.lor (TriggerTypeHardwareComparator fl) (TriggerSourceB fl)) ->
  has_flag (Z.lor base (TriggerInvert fl)) (TriggerInvert fl) = true /\
  has_flag base (TriggerInvert fl) = false.
Proof.
  intros (Hnz & Hc & Ha & Hb) Hbase.
  assert (Hdisj : Z.land base (TriggerInvert fl) = 0).
  { destruct Hbase as [-> | [-> | ->]]; [assumption| |];
      rewrite Z.land_lor_distr_l, Hc, ?Ha, ?Hb; reflexivity. }
  unfold has_flag. rewrite Z.land_lor_distr_l, Hdisj, Z.land_diag, Z.lor_0_l.
  split; [apply Z.eqb_refl | apply Z.eqb_neq; congruence].
Qed.

(** C8: without a trigger channel the first requested channel is
    taken; a trigger channel that is not among the requested ones is an
    error, raised before anything is sent; the TriggerInvert flag is set
    in the SpockOption word exactly for the types [falling] and [below];
    and the trigger intro count is 4 for [rising] and [falling] and 0
    for [above] and [below].  The type is compared in lower case. *)
Theorem trigger_encoding fl int16 s a :
  invert_is_own_bit fl ->
  (forall c rest, trigger_channel a = None -> channels a = c :: rest ->
     effective_trigger_channel a = Ok c) /\
  (forall c, trigger_channel a = Some c -> ~ In c (channels a) ->
     capture_trigger fl s a = Raise AssertionError /\
     forall w, exists e, capture fl int16 s a w = (Raises e, w) /\
       (is_ok (capture_timing s a) = true -> e = AssertionError)) /\
  (forall e, capture_trigger fl s a = Ok e ->
     effective_trigger_channel a = Ok (trigger e) /\
     (has_flag (spock_option e) (TriggerInvert fl) = true <->
        lower (trigger_type a) = "falling"%string \/
        lower (trigger_type a) = "below"%string) /\
     (lower (trigger_type a) = "rising"%string \/
      lower (trigger_type a) = "falling"%string -> trigger_intro e = 4) /\
     (lower (trigger_type a) = "above"%string \/
      lower (trigger_type a) = "below"%string -> trigger_intro e = 0)).
Proof.
  intros Hfl. split; [|split].
  - intros c rest Hnone Hchans. unfold effective_trigger_channel.
    now rewrite Hnone, Hchans.
  - intros c Hc Hin.
    assert (Htrig : capture_trigger fl s a = Raise AssertionError).
    { unfold capture_trigger. apply bind_raise.
      now apply effective_trigger_channel_foreign with c. }
    split; [assumption|]. intros w.
    destruct (capture_timing s a) as [tm|e] eqn:Htm.
    + exists AssertionError. split; [|reflexivity].
      now apply capture_raises_in_trigger with tm.
    + exists e. split; [now apply capture_raises_in_timing | discriminate].
  - intros e He.
    destruct (capture_trigger_ok _ _ _ _ He) as (Hch & Hintro & base & Hbase & Hspock).
    destruct (has_flag_invert fl base Hfl Hbase) as (Hset & Hclear).
    split; [assumption|]. split.
    + rewrite <- inverts_spec, Hspock.
      destruct (inverts (trigger_type a)); rewrite ?Hset, ?Hclear; intuition congruence.
    + rewrite Hintro. destruct (intro_samples_spec (trigger_type a)). auto.
Qed.

Lemma trigger_encoding_witness :
  invert_is_own_bit one_bit_flags /\
  exists e, capture_trigger one_bit_flags BS0005 falling_on_b = Ok e /\
    trigger e = "B"%string /\
    has_flag (spock_option e) (TriggerInvert one_bit_flags) = true /\
    trigger_intro e = 4.
Proof.
  assert (Hfl : invert_is_own_bit one_bit_flags)
    by (repeat split; [discriminate | reflexivity..]).
  split; [assumption|].
  destruct (trigger_encoding one_bit_flags int_base16 BS0005 falling_on_b Hfl)
    as (_ & _ & H).
  eexists. split; [vm_compute; reflexivity|].
  specialize (H _ ltac:(vm_compute; reflexivity)).
  destruct H as (_ & Hinv & Hintro & _).
  split; [reflexivity|]. split.
  - apply Hinv. left. reflexivity.
  - apply Hintro. right. reflexivity.
Defined.

(** ** [capture]: decoding *)

Lemma byte_value_range (b : Byte.byte) : 0 <= byte_value b < 256.
Proof.
  unfold byte_value. pose proof (Byte.to_N_bounded b) as H. lia.
Qed.

Lemma decode_byte_exact (v : Z) :
  0 <= v < 256 -> represents (int_truediv v 256) (v # 256).
Proof.
  intros Hv. apply representsb_sound.
  refine (forallb_range (fun v => representsb (int_truediv v 256) (v # 256)) 0 256 _ v Hv).
  vm_compute. reflexivity.
Qed.

Lemma decode_int16_exact (v : Z) :
  -32768 <= v < 32768 ->
  represents (fadd (int_truediv v 65536) (literal 5 (-1))) ((v # 65536) + (1 # 2)).
Proof.
  intros Hv. apply representsb_sound.
  refine (forallb_range
            (fun v => representsb (fadd (int_truediv v 65536) (literal 5 (-1)))
                                  ((v # 65536) + (1 # 2))) (-32768) 32768 _ v Hv).
  vm_compute. reflexivity.
Qed.

(** The value of two bytes read as [>h]. *)
Lemma int16_be_pair (hi lo : Byte.byte) :
  exists v, int16_be [hi; lo] = [v] /\ -32768 <= v < 32768 /\
    (v `mod` 65536 = byte_value hi * 256 + byte_value lo).
Proof.
  pose proof (byte_value_range hi). pose proof (byte_value_range lo).
  simpl. destruct (Z.ltb_spec (byte_value hi * 256 + byte_value lo) 32768).
  - eexists. split; [reflexivity|]. split; [lia|]. apply Z.mod_small. lia.
  - eexists. split; [reflexivity|]. split; [lia|].
    rewrite <- (Z.mod_add _ 1 65536) by lia.
    replace (byte_value hi * 256 + byte_value lo - 65536 + 1 * 65536)
      with (byte_value hi * 256 + byte_value lo) by lia.
    apply Z.mod_small. lia.
Qed.

(** Every value of [struct.unpack('>{}h')] is a signed 16-bit
    integer. *)
Lemma int16_be_range (data : list Byte.byte) :
  Forall (fun v => -32768 <= v < 32768) (int16_be data).
Proof.
  enough (H : Forall (fun v => -32768 <= v < 32768) (int16_be data) /\
              forall b, Forall (fun v => -32768 <= v < 32768) (int16_be (b :: data)))
    by apply H.
  induction data as [|hi data [IH1 IH2]].
  - split; [constructor | intros b; constructor].
  - split; [apply IH2|]. intros b. cbn [int16_be]. constructor; [|assumption].
    pose proof (byte_value_range b). pose proof (byte_value_range hi).
    destruct (Z.ltb_spec (byte_value b * 256 + byte_value hi) 32768); lia.
Qed.

(** The decoder in raw mode, sample by sample. *)
Lemma decode_raw_bytes (lo hi : float) (n : Z) (data : list Byte.byte) :
  exists trace, decode 1 true lo hi n data = Ok trace /\
    Forall2 (fun b x => represents x (byte_value b # 256)) data trace.
Proof.
  eexists. split; [reflexivity|].
  induction data as [|b data IH]; cbn [map]; constructor; [|exact IH].
  apply decode_byte_exact, byte_value_range.
Qed.

Lemma decode_raw_int16 (lo hi : float) (n : Z) (data : list Byte.byte) :
  0 <= n -> Z.of_nat (length data) = 2 * n ->
  exists trace, decode 2 true lo hi n data = Ok trace /\
    Forall2 (fun v x => represents x ((v # 65536) + (1 # 2))) (int16_be data) trace.
Proof.
  intros Hn Hlen. unfold decode, unpack_int16_be. simpl.
  destruct (Z.ltb_spec n 0); [lia|].
  destruct (Z.eqb_spec (Z.of_nat (length data)) (2 * n)); [|contradiction].
  eexists. split; [reflexivity|].
  pose proof (int16_be_range data) as Hr.
  induction Hr as [|v vs Hv _ IH]; cbn [map]; constructor; [|exact IH].
  now apply decode_int16_exact.
Qed.

(** C3: in raw mode the decoder gives for every 1-byte sample [b]
    exactly [b/256] (0x00 gives 0.0, 0xFF gives 255/256) and for every
    2-byte sample, the big-endian signed 16-bit [v], exactly
    [v/65536 + 1/2] (0x0000 gives 0.5, 0x7FFF gives
    1/2 + 32767/65536); outside raw mode the decoder gives, for the
    same bytes, each of these values [x] mapped on to
    [x * (high - low) + low], and it raises when the raw decoder
    does. *)
Theorem decode_normalises (lo hi : float) :
  (forall n data, exists trace,
     decode 1 true lo hi n data = Ok trace /\
     Forall2 (fun b x => represents x (byte_value b # 256)) data trace) /\
  decode 1 true lo hi 1 [Byte.x00] = Ok [S754_zero false] /\
  (exists x, decode 1 true lo hi 1 [Byte.xff] = Ok [x] /\ represents x (255 # 256)) /\
  (forall n data, 0 <= n -> Z.of_nat (length data) = 2 * n ->
     exists trace,
       decode 2 true lo hi n data = Ok trace /\
       Forall2 (fun v x => represents x ((v # 65536) + (1 # 2))) (int16_be data) trace) /\
  (forall b1 b0 : Byte.byte, exists v,
     int16_be [b1; b0] = [v] /\ -32768 <= v < 32768 /\
     v `mod` 65536 = byte_value b1 * 256 + byte_value b0) /\
  (int16_be [Byte.x00; Byte.x00] = [0] /\
   exists x, decode 2 true lo hi 1 [Byte.x00; Byte.x00] = Ok [x] /\ represents x (1 # 2)) /\
  (int16_be [Byte.x7f; Byte.xff] = [32767] /\
   exists x, decode 2 true lo hi 1 [Byte.x7f; Byte.xff] = Ok [x] /\
     represents x ((1 # 2) + (32767 # 65536))) /\
  (forall width n data,
     decode width false lo hi n data =
       (trace ← decode width true lo hi n data;
        Ok (map (fun x => fadd (fmul x (fsub hi lo)) lo) trace))).
Proof.
  split. { intros n data. apply decode_raw_bytes. }
  split. { vm_compute; reflexivity. }
  split. { eexists. split; [reflexivity|]. apply representsb_sound. vm_compute. reflexivity. }
  split. { intros n data. apply decode_raw_int16. }
  split.
  { intros b1 b0. destruct (int16_be_pair b1 b0) as (v & Hv & Hr & Hm).
    exists v. repeat split; try assumption; lia. }
  split.
  { split; [reflexivity|]. eexists. split; [reflexivity|].
    apply representsb_sound. vm_compute. reflexivity. }
  split.
  { split; [reflexivity|]. eexists. split; [reflexivity|].
    apply representsb_sound. vm_compute. reflexivity. }
  intros width n data. unfold decode. destruct (width =? 2).
  - destruct (unpack_int16_be n data) as [values|e]; [|reflexivity].
    cbn. now rewrite map_map.
  - cbn. now rewrite map_map.
Qed.

(** ** [capture]: the returned mapping *)

Lemma io_bind_returns {A B : Type} (m : io A) (k : A -> io B) (w w' : world) (b : B) :
  (m ≫= k) w = (Returns b, w') ->
  exists a w1, m w = (Returns a, w1) /\ k a w1 = (Returns b, w').
Proof.
  unfold mbind, io_bind. destruct (m w) as [[a | e |] w1]; try discriminate. eauto.
Qed.

Lemma lift_returns {A : Type} (r : result A) (w w' : world) (a : A) :
  lift r w = (Returns a, w') -> r = Ok a /\ w' = w.
Proof. unfold lift. destruct r; intros [= <- <-]; auto. Qed.

Lemma transaction_returns {A : Type} (body : io A) (w w' : world) (a : A) :
  transaction body w = (Returns a, w') -> exists w1 w2, body w1 = (Returns a, w2).
Proof.
  unfold transaction. simpl. destruct (body _) as [[x | e |] w2] eqn:E; try discriminate.
  intros [= <- <-]. eauto.
Qed.

Lemma readexactly_returns (n : Z) (w w' : world) (data : list Byte.byte) :
  readexactly n w = (Returns data, w') -> length data = Z.to_nat n.
Proof.
  unfold readexactly. destruct (Nat.leb_spec (Z.to_nat n) (length (incoming w))); [|discriminate].
  intros [= <- <-]. rewrite length_take. lia.
Qed.

Lemma length_int16_be (data : list Byte.byte) (n : nat) :
  length data = (2 * n)%nat -> length (int16_be data) = n.
Proof.
  revert data. induction n as [|n IH]; intros data Hlen.
  - destruct data; [reflexivity | discriminate].
  - destruct data as [|hi [|lo rest]]; simpl in Hlen; try lia.
    simpl. f_equal. apply IH. lia.
Qed.

Lemma decode_length (width : Z) (raw : bool) (lo hi : float) (n : Z)
    (data : list Byte.byte) (tr : list float) :
  width = 1 \/ width = 2 ->
  length data = Z.to_nat (n * width) ->
  decode width raw lo hi n data = Ok tr ->
  length tr = Z.to_nat n.
Proof.
  intros [-> | ->] Hlen; unfold decode; simpl.
  - intros [= <-]. rewrite length_map, Hlen. f_equal. lia.
  - unfold unpack_int16_be.
    destruct (Z.ltb_spec n 0); [discriminate|].
    destruct (Z.eqb_spec (Z.of_nat (length data)) (2 * n)); [|discriminate].
    simpl. intros [= <-]. rewrite length_map. apply length_int16_be. lia.
Qed.

Lemma dump_one_returns a t e address dump_channel w w' tr :
  sample_width (mode t) = 1 \/ sample_width (mode t) = 2 ->
  dump_one a t e address dump_channel w = (Returns tr, w') ->
  length tr = Z.to_nat (count t).
Proof.
  intros Hw H. unfold dump_one in H.
  apply io_bind_returns in H. destruct H as (u & w1 & _ & H).
  apply io_bind_returns in H. destruct H as (data & w2 & Hread & H).
  apply lift_returns in H. destruct H as (H & _).
  apply readexactly_returns in Hread.
  eapply decode_length; eassumption.
Qed.

Lemma dump_channels_returns a t e address todo traces0 w w' traces :
  sample_width (mode t) = 1 \/ sample_width (mode t) = 2 ->
  dump_channels a t e address todo traces0 w = (Returns traces, w') ->
  dom traces = dom traces0 ∪ list_to_set todo.*2 /\
  forall c tr, traces !! c = Some tr ->
    traces0 !! c = Some tr \/ (In c todo.*2 /\ length tr = Z.to_nat (count t)).
Proof.
  intros Hw. revert traces0 w. induction todo as [|[i c0] todo IH]; intros traces0 w H.
  - simpl in H. injection H as <- <-. split; [|auto].
    simpl. now rewrite (right_id_L ∅ (∪)).
  - simpl in H. apply io_bind_returns in H. destruct H as (tr0 & w1 & Hone & H).
    apply dump_one_returns in Hone; [|assumption].
    destruct (IH _ _ H) as (Hdom & Hval). split.
    + rewrite Hdom, dom_insert_L. simpl.
      now rewrite (comm_L (∪) {[c0]} (dom traces0)), (assoc_L (∪)).
    + intros c tr Hc. destruct (Hval c tr Hc) as [Hin | [Hin Hlen]].
      * destruct (decide (c0 = c)) as [-> | Hne].
        -- rewrite lookup_insert_eq in Hin. injection Hin as <-.
           right. split; [now left | assumption].
        -- rewrite lookup_insert_ne in Hin by assumption. now left.
      * right. split; [now right | assumption].
Qed.

Lemma enumerate_values {A : Type} (l : list A) : (enumerate l).*2 = l.
Proof.
  unfold enumerate.
  enough (H : forall (f : nat -> Z), (imap (fun i x => (f i, x)) l).*2 = l) by apply H.
  induction l as [|x l IH]; intros f; [reflexivity|].
  rewrite imap_cons. simpl. f_equal. apply (IH (f ∘ S)).
Qed.

Lemma list_to_set_sorted (l : list string) :
  list_to_set (C := gset string) (sorted String.ltb l) = list_to_set l.
Proof.
  apply set_eq. intros x. rewrite !elem_of_list_to_set, !list_elem_of_In.
  apply in_sorted.
Qed.

(** C10: when [capture] returns, the keys of the mapping are exactly
    the requested channels and every sequence has the length of the
    recomputed sample count
    [round(period / ticks / multiplier / capture_clock_period)], with
    [ticks] as the regime left it (a count below zero gives empty
    sequences).  The [nsamples] argument only enters through [ticks]. *)
Theorem capture_returns_requested_channels fl int16 s a w traces w' :
  capture fl int16 s a w = (Returns traces, w') ->
  exists tm,
    capture_timing s a = Ok tm /\
    recomputed_nsamples s a (ticks (mode tm)) = Ok (count tm) /\
    dom traces = list_to_set (channels a) /\
    forall c tr, traces !! c = Some tr ->
      In c (channels a) /\ Z.of_nat (length tr) = Z.max 0 (count tm).
Proof.
  intros H. unfold capture in H.
  apply io_bind_returns in H. destruct H as (tm & w1 & Htm & H).
  apply lift_returns in Htm. destruct Htm as (Htm & ->).
  apply io_bind_returns in H. destruct H as (e & w2 & _ & H).
  apply io_bind_returns in H. destruct H as (u1 & w3 & _ & H).
  apply io_bind_returns in H. destruct H as (u2 & w4 & _ & H).
  apply io_bind_returns in H. destruct H as (address & w5 & _ & H).
  destruct (capture_timing_ok _ _ _ Htm) as (t & _ & Hsel & Hn & _).
  assert (Hw : sample_width (mode tm) = 1 \/ sample_width (mode tm) = 2).
  { destruct (select_regime_widths _ _ _ Hsel) as [[? _] | [? _]]; auto. }
  destruct (dump_channels_returns _ _ _ _ _ _ _ _ _ Hw H) as (Hdom & Hval).
  rewrite enumerate_values in Hdom, Hval.
  exists tm. split; [assumption|]. split; [assumption|]. split.
  - rewrite Hdom, dom_empty_L, (left_id_L ∅ (∪)). apply list_to_set_sorted.
  - intros c tr Hc. destruct (Hval c tr Hc) as [Hemp | [Hin Hlen]].
    + rewrite lookup_empty in Hemp. discriminate.
    + split; [now apply in_sorted in Hin | lia].
Qed.

Lemma capture_returns_requested_channels_witness :
  exists traces w',
    capture one_bit_flags int_base16 BS0005 eight_for_seven answering = (Returns traces, w') /\
    nsamples eight_for_seven = 7 /\
    dom traces = list_to_set ["B"%string; "A"%string] /\
    forall c tr, traces !! c = Some tr -> Z.of_nat (length tr) = 8.
Proof.
  eexists. eexists. split; [vm_compute; reflexivity|].
  split; [reflexivity|].
  destruct (capture_returns_requested_channels one_bit_flags int_base16 BS0005
              eight_for_seven answering _ _ ltac:(vm_compute; reflexivity))
    as (tm & Htm & _ & Hdom & Hlen).
  vm_compute in Htm. injection Htm as <-.
  split; [exact Hdom|].
  intros c tr Hc. destruct (Hlen c tr Hc) as (_ & H). exact H.
Defined.

End CaptureProofs.

(** ** [start_generator]: the clock search *)

Module GeneratorProofs.
Import Py Vm Scope PyFacts Examples CaptureProofs.

(** What an entry of [possible_params] records. *)
Lemma try_clock_some s g clock c :
  try_clock s g clock = Ok (Some c) ->
  exists error size nwaves width actualf,
    c = ((feq error (literal 0 0), width), (size, nwaves, clock, actualf)) /\
    fdiv (fabs (fsub (frequency g) actualf)) (frequency g) = Ok error /\
    flt error (max_error g) = true /\
    is_nan width = false.
Proof.
  unfold try_clock. intros H.
  bind_inv H. bind_inv H. bind_inv H. bind_inv H.
  destruct (fle x1 x2); [|discriminate].
  bind_inv H. bind_inv H. bind_inv H. bind_inv H. bind_inv H. bind_inv H. bind_inv H.
  destruct (flt x9 (max_error g)) eqn:Hlt; [|discriminate].
  injection H as <-.
  exists x9, x6, x4, x7, x8. split; [reflexivity|]. split; [assumption|].
  split; [assumption|].
  apply flt_not_nan in Hlt as (Herr & _).
  apply (fdiv_not_nan _ _ _ Hx9) in Herr as (Habs & _).
  apply fabs_not_nan, fsub_not_nan in Habs as (_ & Hact).
  apply (fdiv_not_nan _ _ _ Hx8) in Hact as (_ & Hprod).
  apply fmul_not_nan in Hprod as (Hprod & _).
  now apply fmul_not_nan in Hprod as (Hw & _).
Qed.

Lemma try_clock_actualf_valid s g clock c :
  try_clock s g clock = Ok (Some c) -> valid_binary 53 1024 c.2.2 = true.
Proof.
  unfold try_clock. intros H.
  bind_inv H. bind_inv H. bind_inv H. bind_inv H.
  destruct (fle x1 x2); [|discriminate].
  bind_inv H. bind_inv H. bind_inv H. bind_inv H. bind_inv H. bind_inv H. bind_inv H.
  destruct (flt x9 (max_error g)); [|discriminate].
  injection H as <-. exact (fdiv_valid _ _ _ Hx8).
Qed.

Lemma search_spec s g clocks : forall acc l,
  search s g clocks acc = Ok l ->
  forall c, In c l <->
    In c acc \/ exists clock, In clock clocks /\ try_clock s g clock = Ok (Some c).
Proof.
  induction clocks as [|clock clocks IH]; intros acc l H c; simpl in H.
  - injection H as <-. split; [auto | intros [? | (? & [] & _)]; assumption].
  - bind_inv H. rewrite (IH _ _ H c). destruct x as [p|].
    + rewrite in_app_iff. simpl. split.
      * intros [[? | [<- | []]] | (k & ? & ?)]; eauto 6.
      * intros [? | (k & [<- | ?] & Hk)]; eauto 6.
        left. right. left. congruence.
    + simpl. split.
      * intros [? | (k & ? & ?)]; eauto 6.
      * intros [? | (k & [<- | ?] & Hk)]; eauto 6. congruence.
Qed.

Lemma possible_params_spec s g l :
  possible_params s g = Ok l ->
  exists m, max_clock s g = Ok m /\
    forall c, In c l <->
      exists clock, awg_minimum_clock s <= clock <= m /\ try_clock s g clock = Ok (Some c).
Proof.
  unfold possible_params. intros H. bind_inv H. exists x. split; [assumption|].
  intros c. rewrite (search_spec _ _ _ _ _ H c). simpl. split.
  - intros [[] | (k & Hk & ?)]. apply in_range in Hk. exists k. split; [lia | assumption].
  - intros (k & Hk & ?). right. exists k. split; [apply in_range; lia | assumption].
Qed.

(** *** The order of the keys *)

Lemma key_lt_irrefl (k : bool * float) : key_lt k k = false.
Proof.
  unfold key_lt. rewrite Bool.eqb_reflx. simpl.
  destruct (feq k.2 k.2); simpl; [reflexivity | apply flt_irrefl].
Qed.

Lemma key_lt_negtrans (a b c : bool * float) :
  is_nan b.2 = false -> key_lt a b = false -> key_lt b c = false -> key_lt a c = false.
Proof.
  destruct a as [ba wa], b as [bb wb], c as [bc wc]. unfold key_lt. simpl.
  intros Hnan.
  destruct ba, bb, bc; simpl; try discriminate; try reflexivity.
  all: intros Hab Hbc.
  all: assert (Hab' : flt wa wb = false)
         by (destruct (feq wa wb) eqn:E; [now apply feq_not_flt | assumption]).
  all: assert (Hbc' : flt wb wc = false)
         by (destruct (feq wb wc) eqn:E; [now apply feq_not_flt | assumption]).
  all: destruct (feq wa wc); simpl; [reflexivity|].
  all: now apply flt_negtrans with wb.
Qed.

Lemma key_lt_asym (a b : bool * float) : key_lt a b = true -> key_lt b a = false.
Proof.
  destruct a as [ba wa], b as [bb wb]. unfold key_lt. simpl.
  destruct ba, bb; simpl; try discriminate; try reflexivity.
  all: rewrite (feq_sym wb wa); destruct (feq wa wb); simpl; try discriminate.
  all: apply flt_asym.
Qed.

Lemma key_eq_not_lt (a b : bool * float) : key_eq a b = true -> key_lt b a = false.
Proof.
  destruct a as [ba wa], b as [bb wb]. unfold key_eq, key_lt. simpl.
  intros H. apply andb_true_iff in H as (Hb & Hw).
  apply Bool.eqb_prop in Hb. subst bb. rewrite Bool.eqb_reflx, feq_sym, Hw. reflexivity.
Qed.

Lemma candidate_not_lt (x y : candidate) : candidate_lt x y = false -> key_lt x.1 y.1 = false.
Proof.
  unfold candidate_lt. destruct (key_eq x.1 y.1) eqn:E; simpl; [|auto].
  intros _. apply key_eq_not_lt.
  unfold key_eq in *. apply andb_true_iff in E as (Hb & Hw).
  apply Bool.eqb_prop in Hb. now rewrite Hb, Bool.eqb_reflx, feq_sym.
Qed.

Lemma candidate_lt_key (x y : candidate) : candidate_lt x y = true -> key_lt y.1 x.1 = false.
Proof.
  unfold candidate_lt. destruct (key_eq x.1 y.1) eqn:E; simpl.
  - intros _. now apply key_eq_not_lt.
  - apply key_lt_asym.
Qed.

(** The chosen plan is an entry with a key that no entry exceeds. *)
Lemma choose_ok (l : list candidate) (p : plan) :
  Forall (fun c => is_nan c.1.2 = false) l ->
  choose l = Ok p ->
  exists k, In (k, p) l /\ forall c, In c l -> key_lt k c.1 = false.
Proof.
  intros Hgood. unfold choose, last_item.
  destruct (last (sorted candidate_lt l)) as [[k p']|] eqn:Hlast; [|discriminate].
  intros [= <-]. exists k. split.
  - apply last_Some_elem_of, list_elem_of_In in Hlast. now apply in_sorted in Hlast.
  - intros c Hc.
    pose proof (sorted_sorted candidate_lt
                  (fun a b : candidate => key_lt b.1 a.1 = false)
                  (fun c : candidate => is_nan c.1.2 = false)) as Hsort.
    specialize (Hsort candidate_not_lt candidate_lt_key).
    specialize (Hsort (fun x y z Hy Hxy Hyz => key_lt_negtrans z.1 y.1 x.1 Hy Hyz Hxy) l Hgood).
    apply (in_sorted candidate_lt) in Hc.
    destruct (strongly_sorted_last _ _ _ Hsort Hlast c Hc) as [-> | H].
    + apply key_lt_irrefl.
    + exact H.
Qed.


(** With a tolerance of zero no clock qualifies. *)
Lemma try_clock_zero_tolerance s g clock :
  is_zero (max_error g) = true -> flt (literal 0 0) (frequency g) = true ->
  forall c, try_clock s g clock <> Ok (Some c).
Proof.
  intros Hzero Hpos c H.
  destruct (try_clock_some _ _ _ _ H) as (error & _ & _ & _ & actualf & _ & Herr & Hlt & _).
  apply positive_not_negative in Hpos as (Hf & _ & _).
  unfold fdiv in Herr. destruct (is_zero (frequency g)); [discriminate|].
  injection Herr as <-.
  rewrite not_negative_not_below_zero in Hlt; [discriminate | | assumption].
  apply SFdiv_not_negative; [apply fabs_not_negative | assumption].
Qed.

Lemma choose_some (l : list candidate) : l <> [] -> exists p, choose l = Ok p.
Proof.
  intros Hne. unfold choose, last_item.
  destruct (last (sorted candidate_lt l)) as [c|] eqn:E; [eauto|].
  apply last_None in E. apply sorted_nil_inv in E. contradiction.
Qed.

Lemma start_generator_raises_in_plan fl s g e w :
  generator_plan s g = Raise e -> start_generator fl s g w = (Raises e, w).
Proof.
  intros H. unfold start_generator. unfold mbind at 1, io_bind. unfold lift at 1.
  now rewrite H.
Qed.

Lemma start_generator_returns fl s g w a w' :
  start_generator fl s g w = (Returns a, w') ->
  exists p, generator_plan s g = Ok p /\ a = p.2.
Proof.
  unfold start_generator. intros H.
  apply io_bind_returns in H. destruct H as (p & w1 & Hp & H).
  apply lift_returns in Hp as (Hp & ->). exists p. split; [assumption|].
  destruct p as [[[size nwaves] clock] actualf].
  apply io_bind_returns in H. destruct H as (u & w2 & _ & H).
  now injection H as <- _.
Qed.

Lemma possible_params_good s g l :
  possible_params s g = Ok l ->
  Forall (fun c : candidate => is_nan c.1.2 = false) l /\
  forall c, In c l ->
    exists error,
      fdiv (fabs (fsub (frequency g) c.2.2)) (frequency g) = Ok error /\
      flt error (max_error g) = true /\
      c.1.1 = feq error (literal 0 0).
Proof.
  intros H. destruct (possible_params_spec _ _ _ H) as (m & _ & Hl).
  split.
  - apply Forall_forall. intros c Hc. apply list_elem_of_In, Hl in Hc.
    destruct Hc as (clock & _ & Hc).
    destruct (try_clock_some _ _ _ _ Hc) as (? & ? & ? & ? & ? & -> & _ & _ & Hn).
    exact Hn.
  - intros c Hc. apply Hl in Hc. destruct Hc as (clock & _ & Hc).
    destruct (try_clock_some _ _ _ _ Hc) as (error & ? & ? & ? & ? & -> & He & Hlt & _).
    exists error. auto.
Qed.

(** C5: the plan [start_generator] accepts is an entry of
    [possible_params]: its fractional error
    [abs(frequency - actualf) / frequency] is below [max_error], as
    every entry's is, and no entry has a greater key
    [(error == 0, width)]: an entry of zero error wins over the others,
    and among entries alike in that the widest wins.  The entries are
    what the searched clocks give. *)
Theorem accepted_plan_is_best fl s g p :
  generator_plan s g = Ok p ->
  (exists l k error,
     possible_params s g = Ok l /\
     In (k, p) l /\
     fdiv (fabs (fsub (frequency g) p.2)) (frequency g) = Ok error /\
     flt error (max_error g) = true /\
     k.1 = feq error (literal 0 0) /\
     (forall c, In c l -> key_lt k c.1 = false) /\
     (forall c, In c l ->
        exists e, fdiv (fabs (fsub (frequency g) c.2.2)) (frequency g) = Ok e /\
          flt e (max_error g) = true /\ c.1.1 = feq e (literal 0 0)) /\
     (forall c, In c l <->
        exists m clock, max_clock s g = Ok m /\ awg_minimum_clock s <= clock <= m /\
          try_clock s g clock = Ok (Some c))) /\
  (forall w a w', start_generator fl s g w = (Returns a, w') -> a = p.2).
Proof.
  intros Hplan. split.
  - unfold generator_plan in Hplan. bind_inv Hplan. rename x into l.
    destruct (possible_params_good _ _ _ Hx) as (Hgood & Herr).
    destruct (choose_ok l p Hgood Hplan) as (k & Hin & Hmax).
    destruct (Herr _ Hin) as (error & He & Hlt & Hk).
    exists l, k, error. repeat split; try assumption.
    + destruct (possible_params_spec _ _ _ Hx) as (m & Hm & Hl).
      intros Hc. apply Hl in Hc as (clock & ? & ?). eauto.
    + destruct (possible_params_spec _ _ _ Hx) as (m & Hm & Hl).
      intros (m' & clock & Hm' & ? & ?). apply Hl. exists clock.
      assert (m' = m) by congruence. subst. auto.
  - intros w a w' H. apply start_generator_returns in H as (p' & Hp' & ->). congruence.
Qed.

Lemma accepted_plan_is_best_witness :
  generator_plan BS0005 (thousand_hertz (literal 1 (-4))) = Ok (1000, 1, 40, literal 1000 0) /\
  exists l k error,
    possible_params BS0005 (thousand_hertz (literal 1 (-4))) = Ok l /\
    In (k, (1000, 1, 40, literal 1000 0)) l /\
    fdiv (fabs (fsub (literal 1000 0) (literal 1000 0))) (literal 1000 0) = Ok error /\
    flt error (literal 1 (-4)) = true /\
    k.1 = feq error (literal 0 0) /\
    (forall c, In c l -> key_lt k c.1 = false).
Proof.
  split; [vm_compute; reflexivity|].
  destruct (accepted_plan_is_best one_bit_flags BS0005 (thousand_hertz (literal 1 (-4)))
              (1000, 1, 40, literal 1000 0) ltac:(vm_compute; reflexivity))
    as ((l & k & error & Hl & Hin & He & Hlt & Hk & Hmax & _ & _) & _).
  exists l, k, error.
  exact (conj Hl (conj Hin (conj He (conj Hlt (conj Hk Hmax))))).
Defined.

(** C4, as the code has it: an entry must have an error strictly
    below [max_error].  When some searched clock reproduces the target
    with zero error within the tolerance, the accepted plan has zero
    error, its frequency is the target, and is what [start_generator]
    returns; with [max_error = 0] and a positive frequency no clock
    qualifies and no plan is returned; and whenever no clock qualifies
    [start_generator] raises the "no solution" error, with nothing sent
    to the device. *)
Theorem exact_plan_needs_positive_tolerance fl s g :
  (forall l, possible_params s g = Ok l ->
     (exists c, In c l /\ c.1.1 = true) ->
     exists p error,
       generator_plan s g = Ok p /\
       fdiv (fabs (fsub (frequency g) p.2)) (frequency g) = Ok error /\
       feq error (literal 0 0) = true /\
       (valid_binary 53 1024 (frequency g) = true -> feq (frequency g) p.2 = true) /\
       (forall w a w', start_generator fl s g w = (Returns a, w') -> a = p.2)) /\
  (is_zero (max_error g) = true -> flt (literal 0 0) (frequency g) = true ->
     (forall p, generator_plan s g <> Ok p) /\
     (forall l, possible_params s g = Ok l -> l = [])) /\
  (possible_params s g = Ok [] ->
     generator_plan s g = Raise no_solution /\
     forall w, start_generator fl s g w = (Raises no_solution, w)).
Proof.
  split; [|split].
  - intros l Hl (c & Hc & Hexact).
    destruct (choose_some l) as (p & Hp); [intros ->; contradiction|].
    destruct (possible_params_good _ _ _ Hl) as (Hgood & Herr).
    destruct (choose_ok l p Hgood Hp) as (k & Hin & Hmax).
    destruct (Herr _ Hin) as (error & He & _ & Hk). simpl in Hk.
    assert (Hplan : generator_plan s g = Ok p).
    { unfold generator_plan. now rewrite (bind_step _ _ _ Hl). }
    assert (Hzero : feq error (literal 0 0) = true).
    { rewrite <- Hk.
      specialize (Hmax c Hc). unfold key_lt in Hmax. rewrite Hexact in Hmax.
      destruct k.1; [reflexivity | discriminate]. }
    exists p, error. split; [assumption|].
    split; [assumption|]. split; [assumption|]. split.
    + intros Hvalid.
      destruct (possible_params_spec _ _ _ Hl) as (m & _ & Hspec).
      apply Hspec in Hin as (clock & _ & Hclock).
      apply try_clock_actualf_valid in Hclock.
      exact (exact_error_means_equal _ _ _ Hvalid Hclock He Hzero).
    + intros w a w' H. apply start_generator_returns in H as (p' & Hp' & ->).
      congruence.
  - intros Hzero Hpos.
    assert (Hnone : forall l, possible_params s g = Ok l -> l = []).
    { intros l Hl. destruct (possible_params_spec _ _ _ Hl) as (m & _ & Hspec).
      destruct l as [|c l]; [reflexivity|]. exfalso.
      destruct (proj1 (Hspec c) (or_introl eq_refl)) as (clock & _ & Hc).
      exact (try_clock_zero_tolerance s g clock Hzero Hpos c Hc). }
    split; [|assumption].
    intros p Hp. unfold generator_plan in Hp. bind_inv Hp.
    rewrite (Hnone _ Hx) in Hp. discriminate.
  - intros Hl.
    assert (Hplan : generator_plan s g = Raise no_solution).
    { unfold generator_plan. now rewrite (bind_step _ _ _ Hl). }
    split; [assumption|]. intros w. now apply start_generator_raises_in_plan.
Qed.

(** C4 fails as stated: 1000 Hz is reproduced exactly by the clock
    divisor 40 (1000 samples of 40 ticks of 25 ns), and is the plan at
    the default tolerance; at [max_error = 0] the same request raises
    the "no solution" error. *)
Lemma exact_target_rejected_at_zero_tolerance :
  generator_plan BS0005 (thousand_hertz (literal 1 (-4)))
    = Ok (1000, 1, 40, frequency (thousand_hertz (literal 1 (-4)))) /\
  max_error (thousand_hertz (literal 0 0)) = literal 0 0 /\
  generator_plan BS0005 (thousand_hertz (literal 0 0)) = Raise no_solution /\
  forall w, start_generator one_bit_flags BS0005 (thousand_hertz (literal 0 0)) w
            = (Raises no_solution, w).
Proof.
  assert (H : generator_plan BS0005 (thousand_hertz (literal 0 0)) = Raise no_solution)
    by (vm_compute; reflexivity).
  split; [vm_compute; reflexivity|]. split; [reflexivity|]. split; [exact H|].
  intros w. now apply start_generator_raises_in_plan.
Qed.

End GeneratorProofs.

(** ** [load_params] and [save_params] *)

Module ParamsProofs.
Import Py Vm Scope PyFacts Examples.

Lemma bytes_of_ints_ok (l : list Z) :
  Forall (fun b => 0 <= b < 256) l -> bytes_of_ints l = Ok l.
Proof.
  intros H. unfold bytes_of_ints.
  replace (forallb _ l) with true; [reflexivity|].
  symmetry. apply forallb_forall. intros b Hb.
  rewrite Forall_forall in H. apply list_elem_of_In, H in Hb.
  apply andb_true_iff. split; [apply Z.leb_le | apply Z.ltb_lt]; lia.
Qed.

Lemma bytes_of_ints_inv (l data : list Z) : bytes_of_ints l = Ok data -> data = l.
Proof. unfold bytes_of_ints. destruct (forallb _ l); congruence. Qed.

Lemma pack_f_shape (x : float) (bs : list Z) :
  pack_f x = Ok bs ->
  exists b0 b1 b2 b3, bs = [b0; b1; b2; b3] /\
    0 <= b0 < 256 /\ 0 <= b1 < 256 /\ 0 <= b2 < 256 /\ 0 <= b3 < 256.
Proof.
  unfold pack_f. intros H.
  assert (Hbs : bs = le_bytes 4 (bits_of_single (round_single x))).
  { destruct x; destruct (round_single _); congruence. }
  rewrite Hbs. apply le_bytes_4_shape.
Qed.

(** What [save_params] leaves at the addresses 100 to 125 is read
    back by [load_params] as the magic and the six floats in single
    precision. *)
Lemma load_after_save s image image' s0 :
  save_params s image = Ok image' ->
  load_params s0 image' =
    Ok (with_ks s0 (as_single3 (analog_low_ks s)) (as_single3 (analog_high_ks s))).
Proof.
  unfold save_params, pack_params. intros H. bind_inv H. injection H as <-.
  destruct (analog_low_ks s) as [[l0 l1] l2]. destruct (analog_high_ks s) as [[h0 h1] h2].
  change ((PARAMS_MAGIC <? 0) || (65535 <? PARAMS_MAGIC)) with false in Hx.
  cbv iota in Hx.
  bind_inv Hx. bind_inv Hx. bind_inv Hx. bind_inv Hx. bind_inv Hx. bind_inv Hx.
  injection Hx as <-.
  unfold as_single3, as_single.
  rewrite <- (unpack_f_pack_f _ _ Hx0), <- (unpack_f_pack_f _ _ Hx1),
          <- (unpack_f_pack_f _ _ Hx2), <- (unpack_f_pack_f _ _ Hx3),
          <- (unpack_f_pack_f _ _ Hx4), <- (unpack_f_pack_f _ _ Hx5).
  destruct (pack_f_shape _ _ Hx0) as (a0 & a1 & a2 & a3 & -> & ? & ? & ? & ?).
  destruct (pack_f_shape _ _ Hx1) as (b0 & b1 & b2 & b3 & -> & ? & ? & ? & ?).
  destruct (pack_f_shape _ _ Hx2) as (c0 & c1 & c2 & c3 & -> & ? & ? & ? & ?).
  destruct (pack_f_shape _ _ Hx3) as (d0 & d1 & d2 & d3 & -> & ? & ? & ? & ?).
  destruct (pack_f_shape _ _ Hx4) as (e0 & e1 & e2 & e3 & -> & ? & ? & ? & ?).
  destruct (pack_f_shape _ _ Hx5) as (f0 & f1 & f2 & f3 & -> & ? & ? & ? & ?).
  clear Hx0 Hx1 Hx2 Hx3 Hx4 Hx5.
  unfold load_params.
  set (params := map _ (range 0 params_size)).
  assert (Hparams : params =
    [178; 176; a0; a1; a2; a3; b0; b1; b2; b3; c0; c1; c2; c3;
     d0; d1; d2; d3; e0; e1; e2; e3; f0; f1; f2; f3]).
  { subst params. vm_compute. reflexivity. }
  rewrite Hparams. rewrite bytes_of_ints_ok.
  2: { repeat (constructor; [lia|]). constructor. }
  reflexivity.
Qed.

Lemma load_params_reads s image :
  load_params s image =
    (data ← bytes_of_ints (map image (range 100 126));
     p ← unpack_params data;
     let '(magic, low_ks, high_ks) := p in
     if magic =? PARAMS_MAGIC then Ok (with_ks s low_ks high_ks) else Ok s).
Proof. reflexivity. Qed.

Lemma unpack_params_reads image :
  exists lo hi,
    unpack_params (map image (range 100 126)) = Ok (stored_magic image, lo, hi).
Proof. do 2 eexists. reflexivity. Qed.

(** A record with another magic is not applied. *)
Lemma load_wrong_magic s image :
  stored_magic image <> PARAMS_MAGIC ->
  (forall s', load_params s image = Ok s' -> s' = s) /\
  (holds_bytes image -> load_params s image = Ok s).
Proof.
  intros Hmagic. rewrite load_params_reads.
  destruct (unpack_params_reads image) as (lo & hi & Hunpack).
  apply Z.eqb_neq in Hmagic. split.
  - intros s' H. bind_inv H. apply bytes_of_ints_inv in Hx. subst x.
    rewrite (bind_step _ _ _ Hunpack) in H. rewrite Hmagic in H.
    now injection H as <-.
  - intros Hbytes. rewrite bytes_of_ints_ok.
    + rewrite (bind_step _ _ _ eq_refl), (bind_step _ _ _ Hunpack).
      now rewrite Hmagic.
    + apply Forall_forall. intros b Hb. apply list_elem_of_In, in_map_iff in Hb.
      destruct Hb as (a & <- & Ha). apply in_range in Ha. apply Hbytes.
      unfold params_size. lia.
Qed.

(** C6: what [save_params] has written, [load_params] reads back as
    the two coefficient triples, each coefficient rounded to single
    precision and otherwise the same; and an image whose first two
    bytes, read little-endian, are not 0xB0B2 leaves the session, and
    so both triples, as it was. *)
Theorem params_round_trip s image :
  (forall image' s0, save_params s image = Ok image' ->
     load_params s0 image' =
       Ok (with_ks s0 (as_single3 (analog_low_ks s)) (as_single3 (analog_high_ks s)))) /\
  (stored_magic image <> PARAMS_MAGIC ->
     (forall s', load_params s image = Ok s' -> s' = s) /\
     (holds_bytes image -> load_params s image = Ok s)).
Proof.
  split.
  - intros image' s0 H. exact (load_after_save s image image' s0 H).
  - apply load_wrong_magic.
Qed.

(** The calibration of the BS0005 profile after a trip through a blank
    EEPROM. *)
Example params_round_trip_BS0005 :
  exists image',
    save_params BS0005 blank = Ok image' /\
    load_params BS0005 image' =
      Ok (with_ks BS0005
            (S754_finite false 7801502613635072 (-54),
             S754_finite false 8786742341533696 (-57),
             S754_finite true 8574524786212864 (-61))
            (S754_finite false 6768953820971008 (-54),
             S754_finite true 4531961443909632 (-60),
             S754_finite false 8784668409200640 (-57))) /\
    load_params BS0005 blank = Ok BS0005.
Proof.
  eexists. split; [reflexivity|]. split; vm_compute; reflexivity.
Qed.

(** A coefficient beyond the single-precision range cannot be saved. *)
Example save_params_overflow :
  save_params (with_ks BS0005 (literal 1 39, literal 0 0, literal 0 0)
                              (analog_high_ks BS0005)) blank
  = Raise OverflowError.
Proof. vm_compute. reflexivity. Qed.

End ParamsProofs.

(** ** The transport: [read] and [readexactly] *)

Module InputProofs.
Import Py Input.

Section SourceFacts.

Variable source : nat -> list Byte.byte.

Lemma arrived_S (i k : nat) : arrived source i (S k) = source i ++ arrived source (S i) k.
Proof. reflexivity. Qed.

Lemma arrived_add (i j k : nat) :
  arrived source i (j + k) = arrived source i j ++ arrived source (i + j) k.
Proof.
  unfold arrived. rewrite seq_app, map_app, concat_app. reflexivity.
Qed.

(** What has arrived after [j] looks is the start of what has arrived
    after more. *)
Lemma arrived_le (i j k : nat) :
  (j <= k)%nat -> arrived source i k = arrived source i j ++ arrived source (i + j) (k - j).
Proof. intros H. rewrite <- arrived_add. f_equal. lia. Qed.

(** What a [read] that returns has done: it has looked [k] times,
    taken a prefix of what was waiting by then and left the rest. *)
Lemma read_returns turns : forall n c data c',
  read source turns n c = (Some data, c') ->
  exists k, (1 <= k <= S turns)%nat /\ polls c' = (polls c + k)%nat /\
    in_waiting c ++ arrived source (polls c) k = data ++ in_waiting c' /\
    in_waiting c ++ arrived source (polls c) k <> [] /\
    length data =
      match n with
      | None => length (in_waiting c ++ arrived source (polls c) k)
      | Some n =>
          Z.to_nat (Z.min n (Z.of_nat (length (in_waiting c ++ arrived source (polls c) k))))
      end.
Proof.
  assert (Hnow : forall n c data c',
    (0 < length (in_waiting (look source c)))%nat ->
    (let '(data, c) :=
       connection_read (look source c)
         match n with
         | None => length (in_waiting (look source c))
         | Some n => Z.to_nat (Z.min n (Z.of_nat (length (in_waiting (look source c)))))
         end in (Some data, c)) = (Some data, c') ->
    exists k, (1 <= k <= 1)%nat /\ polls c' = (polls c + k)%nat /\
      in_waiting c ++ arrived source (polls c) k = data ++ in_waiting c' /\
      in_waiting c ++ arrived source (polls c) k <> [] /\
      length data =
        match n with
        | None => length (in_waiting c ++ arrived source (polls c) k)
        | Some n =>
            Z.to_nat (Z.min n (Z.of_nat (length (in_waiting c ++ arrived source (polls c) k))))
        end).
  { intros n c data c' Hw. cbn [connection_read]. intros [= <- <-]. exists 1%nat.
    unfold arrived. cbn [seq map concat polls in_waiting look] in *.
    rewrite app_nil_r.
    split; [lia|]. split; [lia|]. split; [now rewrite take_drop|].
    split; [intros E; rewrite E in Hw; simpl in Hw; lia|].
    rewrite length_take. destruct n; lia. }
  induction turns as [|turns IH]; intros n c data c'; cbn [read].
  - destruct (Nat.ltb_spec 0 (length (in_waiting (look source c)))) as [Hw | Hw]; [|discriminate].
    intros H. destruct (Hnow _ _ _ _ Hw H) as (k & Hk & Hrest). exists k. split; [lia | exact Hrest].
  - destruct (Nat.ltb_spec 0 (length (in_waiting (look source c)))) as [Hw | Hw].
    + intros H. destruct (Hnow _ _ _ _ Hw H) as (k & Hk & Hrest). exists k. split; [lia | exact Hrest].
    + intros H. apply IH in H as (k & Hk & Hp & Hcons & Hne & Hlen).
      cbn [polls in_waiting look] in *.
      exists (S k). rewrite arrived_S.
      assert (E : in_waiting c ++ source (polls c) = []) by (apply length_zero_iff_nil; lia).
      rewrite app_assoc, E in *. cbn [app] in *.
      split; [lia|]. split; [lia|]. auto.
Qed.

(** A [read] returns once something waits. *)
Lemma read_live turns : forall n c,
  in_waiting c ++ arrived source (polls c) (S turns) <> [] ->
  exists data c', read source turns n c = (Some data, c').
Proof.
  induction turns as [|turns IH]; intros n c Hne; cbn [read].
  - destruct (Nat.ltb_spec 0 (length (in_waiting (look source c)))) as [Hw | Hw].
    + cbn [connection_read]. eauto.
    + exfalso. apply Hne. unfold arrived. cbn [seq map concat]. rewrite app_nil_r.
      apply length_zero_iff_nil. cbn [look in_waiting] in Hw. lia.
  - destruct (Nat.ltb_spec 0 (length (in_waiting (look source c)))) as [Hw | Hw].
    + cbn [connection_read]. eauto.
    + apply IH. cbn [look in_waiting polls]. rewrite <- app_assoc, <- arrived_S. exact Hne.
Qed.

(** The loop of [readexactly] gathers what arrives, in order, and
    stops at [n] bytes. *)
Lemma readexactly_from_returns rounds turns n : forall data c out c',
  readexactly_from source rounds turns n data c = (Some out, c') ->
  exists more k, out = data ++ more /\ polls c' = (polls c + k)%nat /\
    in_waiting c ++ arrived source (polls c) k = more ++ in_waiting c' /\
    Z.of_nat (length out) = Z.max n (Z.of_nat (length data)) /\
    (n <= Z.of_nat (length data) -> c' = c).
Proof.
  induction rounds as [|rounds IH]; intros data c out c'; cbn [readexactly_from];
    destruct (Z.ltb_spec (Z.of_nat (length data)) n) as [Hlt | Hge]; try discriminate.
  - intros [= <- <-]. exists [], 0%nat. rewrite !app_nil_r, Nat.add_0_r.
    split; [reflexivity|]. split; [reflexivity|]. split; [reflexivity|]. split; [lia | reflexivity].
  - destruct (read source turns (Some (n - Z.of_nat (length data))) c) as [[more1|] c1] eqn:Hread;
      [|discriminate].
    intros H. apply read_returns in Hread as (k1 & Hk1 & Hp1 & Hcons1 & Hne1 & Hlen1).
    apply IH in H as (more2 & k2 & -> & Hp2 & Hcons2 & Hlen2 & _).
    exists (more1 ++ more2), (k1 + k2)%nat.
    split; [now rewrite app_assoc|]. split; [lia|]. split.
    + rewrite arrived_add, app_assoc, Hcons1, <- app_assoc, Hp1 in *.
      rewrite Hcons2. now rewrite app_assoc.
    + split; [|lia].
      assert (0 < length (in_waiting c ++ arrived source (polls c) k1))%nat
        by (destruct (in_waiting c ++ arrived source (polls c) k1); [congruence | simpl; lia]).
      rewrite Hlen2, length_app. lia.
  - intros [= <- <-]. exists [], 0%nat. rewrite !app_nil_r, Nat.add_0_r.
    split; [reflexivity|]. split; [reflexivity|]. split; [reflexivity|]. split; [lia | reflexivity].
Qed.

Lemma readexactly_from_live rounds turns n : forall data c k,
  (k <= turns)%nat ->
  n - Z.of_nat (length data) <= Z.of_nat (length (in_waiting c ++ arrived source (polls c) k)) ->
  n - Z.of_nat (length data) <= Z.of_nat rounds ->
  exists out c', readexactly_from source rounds turns n data c = (Some out, c').
Proof.
  induction rounds as [|rounds IH]; intros data c k Hk Hav Hr; cbn [readexactly_from];
    destruct (Z.ltb_spec (Z.of_nat (length data)) n) as [Hlt | Hge]; eauto; [lia|].
  destruct (read_live turns (Some (n - Z.of_nat (length data))) c) as (more & c1 & Hread).
  { rewrite (arrived_le (polls c) k (S turns)) by lia. rewrite app_assoc.
    intros E. apply app_eq_nil in E as [E _]. rewrite E in Hav. simpl in Hav. lia. }
  rewrite Hread.
  apply read_returns in Hread as (k1 & Hk1 & Hp1 & Hcons1 & Hne1 & Hlen1).
  assert (Hpos : (0 < length (in_waiting c ++ arrived source (polls c) k1))%nat)
    by (destruct (in_waiting c ++ arrived source (polls c) k1); [congruence | simpl; lia]).
  assert (Hsplit : length (in_waiting c ++ arrived source (polls c) k1)
                   = (length more + length (in_waiting c1))%nat)
    by (rewrite Hcons1, length_app; reflexivity).
  destruct (Z.le_gt_cases (n - Z.of_nat (length data))
              (Z.of_nat (length (in_waiting c ++ arrived source (polls c) k1)))) as [Hall | Hpart].
  - apply (IH _ _ 0%nat); [lia | | ]; rewrite length_app; lia.
  - assert (Hk1k : (k1 < k)%nat).
    { destruct (Nat.lt_ge_cases k1 k) as [? | Hge]; [assumption|]. exfalso.
      rewrite (arrived_le (polls c) k k1) in Hpart by lia.
      rewrite app_assoc, length_app in Hpart. lia. }
    apply (IH _ _ (k - k1)%nat); [lia | | rewrite length_app; lia].
    rewrite (arrived_le (polls c) k1 k) in Hav by lia.
    rewrite app_assoc, length_app in Hav. rewrite Hp1.
    rewrite !length_app in *. lia.
Qed.


(** X4: [read] returns what waits, from the front and no more than asked:
    with [n = None] everything that waits, with [n > 0] between one and
    [n] bytes; the rest stays in the queue. *)
Theorem read_takes_the_front turns n c data c' :
  read source turns n c = (Some data, c') ->
  exists k, (1 <= k)%nat /\ polls c' = (polls c + k)%nat /\
    in_waiting c ++ arrived source (polls c) k = data ++ in_waiting c' /\
    match n with
    | None => data <> [] /\ in_waiting c' = []
    | Some m => Z.of_nat (length data) <= Z.max 0 m /\ (0 < m -> data <> [])
    end.
Proof.
  intros H. apply read_returns in H as (k & Hk & Hp & Hcons & Hne & Hlen).
  exists k. split; [lia|]. split; [assumption|]. split; [assumption|].
  assert (Hpos : (0 < length (in_waiting c ++ arrived source (polls c) k))%nat)
    by (destruct (in_waiting c ++ arrived source (polls c) k); [congruence | simpl; lia]).
  destruct n as [m|].
  - split; [lia|]. intros Hm E. rewrite E in Hlen. simpl in Hlen. lia.
  - split.
    + intros E. rewrite E in Hlen. simpl in Hlen. lia.
    + apply length_zero_iff_nil. rewrite Hcons, length_app in Hlen. lia.
Qed.

(** X1: [readexactly(n)] returns exactly [n] bytes (none when [n <= 0],
    without a look at the port): the first [n] that wait or arrive, in
    order, however the device splits them into bursts; what arrived
    beyond them still waits. *)
Theorem readexactly_takes_n turns n c data c' :
  readexactly source turns n c = (Some data, c') ->
  Z.of_nat (length data) = Z.max 0 n /\
  (exists k, polls c' = (polls c + k)%nat /\
     in_waiting c ++ arrived source (polls c) k = data ++ in_waiting c') /\
  (n <= 0 -> c' = c).
Proof.
  unfold readexactly. intros H.
  apply readexactly_from_returns in H as (more & k & -> & Hp & Hcons & Hlen & Hsame).
  cbn [app length] in *. split; [lia|]. split; [eauto|]. intros Hn. apply Hsame. lia.
Qed.

Lemma readexactly_live turns n c k :
  (k <= turns)%nat ->
  (Z.to_nat n <= length (in_waiting c ++ arrived source (polls c) k))%nat ->
  exists c', readexactly source turns n c
             = (Some (take (Z.to_nat n) (in_waiting c ++ arrived source (polls c) k)), c').
Proof.
  intros Hk Hav.
  destruct (readexactly_from_live (Z.to_nat n) turns n [] c k Hk) as (out & c' & H);
    [simpl; lia | simpl; lia |].
  exists c'. unfold readexactly. rewrite H. do 2 f_equal.
  apply readexactly_from_returns in H as (more & k' & -> & Hp & Hcons & Hlen & _).
  cbn [app length] in *.
  assert (Hn : length more = Z.to_nat n) by lia. rewrite <- Hn.
  destruct (Nat.le_ge_cases k k') as [Hle | Hle].
  - rewrite (arrived_le (polls c) k k') in Hcons by lia.
    rewrite app_assoc in Hcons.
    rewrite <- (take_app_le _ (arrived source (polls c + k) (k' - k))) by lia.
    rewrite Hcons. now rewrite take_app_length.
  - rewrite (arrived_le (polls c) k' k) by lia.
    rewrite app_assoc, Hcons, <- app_assoc. now rewrite take_app_length.
Qed.

(** X2: Once [n] bytes wait or have arrived within the wake-ups a [read]
    is given, [readexactly(n)] returns the first [n] of them. *)
Theorem readexactly_returns_once_n_came turns n c k :
  (k <= turns)%nat ->
  (Z.to_nat n <= length (in_waiting c ++ arrived source (polls c) k))%nat ->
  exists c', readexactly source turns n c
             = (Some (take (Z.to_nat n) (in_waiting c ++ arrived source (polls c) k)), c').
Proof. apply readexactly_live. Qed.

(** X3: [readexactly(n)] does not return short: while fewer than [n]
    bytes have come it stays suspended, whatever the number of
    wake-ups. *)
Theorem readexactly_waits turns n c :
  (forall k, (length (in_waiting c ++ arrived source (polls c) k) < Z.to_nat n)%nat) ->
  (readexactly source turns n c).1 = None.
Proof.
  intros Hshort. destruct (readexactly source turns n c) as [[data|] c'] eqn:H; [|reflexivity].
  exfalso. unfold readexactly in H.
  apply readexactly_from_returns in H as (more & k & -> & Hp & Hcons & Hlen & _).
  specialize (Hshort k). rewrite Hcons, length_app in Hshort. cbn [app length] in *. lia.
Qed.

(** X5: The bytes a session takes with [self._stream.readexactly(n)] are
    those the transport gathers, whatever the bursts they come in. *)
Theorem session_reads_what_the_stream_gathers turns n c k w data w' :
  (k <= turns)%nat ->
  Scope.incoming w = in_waiting c ++ arrived source (polls c) k ->
  Scope.readexactly n w = (Scope.Returns data, w') ->
  exists c', readexactly source turns n c = (Some data, c').
Proof.
  intros Hk Hin. unfold Scope.readexactly.
  destruct (Nat.leb_spec (Z.to_nat n) (length (Scope.incoming w))) as [Hle | Hgt];
    [|discriminate].
  intros [= <- _]. rewrite Hin in *. now apply readexactly_live.
Qed.

End SourceFacts.

Lemma read_takes_the_front_witness :
  exists k, (1 <= k)%nat /\ polls {| in_waiting := []; polls := 2 |} = (polls Examples.quiet + k)%nat /\
    in_waiting Examples.quiet ++ arrived Examples.bursts (polls Examples.quiet) k
      = [Byte.x01; Byte.x02] ++ in_waiting {| in_waiting := []; polls := 2 |} /\
    Z.of_nat (length [Byte.x01; Byte.x02]) <= Z.max 0 4 /\
    (0 < 4 -> [Byte.x01; Byte.x02] <> []).
Proof.
  exact (read_takes_the_front Examples.bursts 3 (Some 4) Examples.quiet
           [Byte.x01; Byte.x02] {| in_waiting := []; polls := 2 |} eq_refl).
Defined.

Lemma readexactly_takes_n_witness :
  Z.of_nat (length [Byte.x01; Byte.x02; Byte.x03; Byte.x04]) = Z.max 0 4 /\
  (exists k, polls {| in_waiting := [Byte.x05]; polls := 4 |} = (polls Examples.quiet + k)%nat /\
     in_waiting Examples.quiet ++ arrived Examples.bursts (polls Examples.quiet) k
       = [Byte.x01; Byte.x02; Byte.x03; Byte.x04]
         ++ in_waiting {| in_waiting := [Byte.x05]; polls := 4 |}) /\
  (4 <= 0 -> {| in_waiting := [Byte.x05]; polls := 4 |} = Examples.quiet).
Proof.
  exact (readexactly_takes_n Examples.bursts 3 4 Examples.quiet
           [Byte.x01; Byte.x02; Byte.x03; Byte.x04]
           {| in_waiting := [Byte.x05]; polls := 4 |} eq_refl).
Defined.

Lemma readexactly_returns_once_n_came_witness :
  exists c', readexactly Examples.bursts 4 4 Examples.quiet
             = (Some (take (Z.to_nat 4)
                        (in_waiting Examples.quiet
                         ++ arrived Examples.bursts (polls Examples.quiet) 4)), c').
Proof.
  apply (readexactly_returns_once_n_came Examples.bursts 4 4 Examples.quiet 4).
  - lia.
  - vm_compute. lia.
Defined.

Lemma readexactly_waits_witness :
  (readexactly Examples.silence 7 1 Examples.quiet).1 = None.
Proof.
  apply (readexactly_waits Examples.silence 7 1 Examples.quiet).
  intros k. assert (E : arrived Examples.silence (polls Examples.quiet) k = []).
  { unfold arrived. generalize (polls Examples.quiet).
    induction k as [|k IH]; intros i; [reflexivity | simpl; apply IH]. }
  rewrite E. simpl. lia.
Defined.

Lemma session_reads_what_the_stream_gathers_witness :
  exists c', readexactly Examples.bursts 4 4 Examples.quiet
             = (Some [Byte.x01; Byte.x02; Byte.x03; Byte.x04], c').
Proof.
  apply (session_reads_what_the_stream_gathers Examples.bursts 4 4 Examples.quiet 4
           {| Scope.log := []; Scope.replies := [];
              Scope.incoming := [Byte.x01; Byte.x02; Byte.x03; Byte.x04; Byte.x05] |}
           [Byte.x01; Byte.x02; Byte.x03; Byte.x04]
           {| Scope.log := []; Scope.replies := []; Scope.incoming := [Byte.x05] |}).
  - lia.
  - reflexivity.
  - reflexivity.
Defined.

End InputProofs.

(** ** The transport: finding the port *)

Module LookupProofs.
Import Py Streams Lookup.

Lemma filter_none {A : Type} (f : A -> bool) (l : list A) :
  Forall (fun x => f x = false) l -> List.filter f l = [].
Proof.
  induction 1 as [|x l Hx _ IH]; [reflexivity|]. simpl. now rewrite Hx.
Qed.

Section OpenFacts.

Variable Serial : string -> result unit.

(** X6: [stream_matching] opens the first port, in the order of
    [comports()], that passes every filter given, and only that one:
    when it cannot be opened the error is the result and no later port
    is tried.  Without a port that passes, the result is the
    RuntimeError.  A filter is passed by a port that has the attribute
    with the same value; no filter at all is passed by every port. *)
Theorem stream_matching_opens_the_first comports vid pid serial :
  (Forall (fun port => matches vid pid serial port = false) comports ->
   stream_matching Serial comports vid pid serial
   = Raise (RuntimeError "No matching serial device")) /\
  (forall before port after,
     comports = before ++ port :: after ->
     Forall (fun p => matches vid pid serial p = false) before ->
     matches vid pid serial port = true ->
     stream_matching Serial comports vid pid serial
     = (_ ← Serial (ListPortInfo.device port); Ok (ListPortInfo.device port, opened))) /\
  (forall port,
     matches vid pid serial port = true <->
     (forall v, vid = Some v -> ListPortInfo.vid port = Some v) /\
     (forall p, pid = Some p -> ListPortInfo.pid port = Some p) /\
     (forall n, serial = Some n -> ListPortInfo.serial_number port = Some n)).
Proof.
  split; [|split].
  - intros Hnone. unfold stream_matching, devices_matching.
    now rewrite (filter_none _ _ Hnone).
  - intros before port after -> Hbefore Hport.
    unfold stream_matching, devices_matching.
    rewrite List.filter_app, (filter_none _ _ Hbefore). simpl. now rewrite Hport.
  - intros port. unfold matches, accepts. rewrite !andb_true_iff.
    destruct vid as [v|], pid as [p|], serial as [n|],
      (ListPortInfo.vid port) as [v'|], (ListPortInfo.pid port) as [p'|],
      (ListPortInfo.serial_number port) as [n'|];
      rewrite ?Z.eqb_eq, ?String.eqb_eq; split;
      try (intros ((? & ?) & ?); repeat split; intros ? [= <-]; congruence);
      try (intros ((? & ?) & ?); discriminate);
      try (intros (Hv & Hp & Hn); repeat split;
           try (specialize (Hv _ eq_refl)); try (specialize (Hp _ eq_refl));
           try (specialize (Hn _ eq_refl)); congruence).
Qed.

End OpenFacts.

End LookupProofs.

(** ** The transport: a port that fails or is never ready *)

Module StreamsFailures.
Import Py PyFacts Streams Examples StreamsProofs.

Section FailingPort.

Variable port : nat -> behaviour.

(** X7: [write] raises exactly when nothing waits and the port fails at
    that attempt, with the port's error; the data of such a call is
    not kept: the buffer stays empty and the future as it was.  While
    bytes wait [write] does not touch the port. *)
Theorem write_raises_with_the_port st data :
  ((exists e st', write port st data = (Raise e, st')) <->
   _output_buffer st = [] /\ port (attempts st) = Fails) /\
  (forall e st', write port st data = (Raise e, st') ->
     e = OSError /\ _output_buffer st' = [] /\ received st' = received st /\
     _output_buffer_empty st' = _output_buffer_empty st /\ writer st' = writer st) /\
  (_output_buffer st <> [] ->
   exists st', write port st data = (Ok tt, st') /\
     _output_buffer st' = _output_buffer st ++ data /\
     received st' = received st /\ attempts st' = attempts st).
Proof.
  unfold write, connection_write.
  destruct (_output_buffer st) as [|b rest] eqn:Hb; cbn [is_empty].
  - split; [|split].
    + split.
      * intros (e & st' & H). split; [reflexivity|].
        destruct (port (attempts st)); [discriminate | discriminate | reflexivity].
      * intros (_ & ->). eauto.
    + intros e st'. destruct (port (attempts st)); try discriminate.
      intros [= <- <-]. cbn. rewrite app_nil_r. auto.
    + intros H. now contradiction H.
  - split; [|split].
    + split; [intros (e & st' & H); discriminate | intros (H & _); discriminate].
    + intros e st' H. discriminate.
    + intros _. eexists. split; [reflexivity|].
      unfold arm, set_buffer. cbn.
      destruct (_output_buffer_empty st); cbn; auto.
Qed.

Lemma wedged_run h : forall st written,
  _output_buffer_empty st = Some Failed -> writer st = false -> _output_buffer st <> [] ->
  exists st' written',
    run port st written h = Ok (st', written') /\
    received st' = received st /\ attempts st' = attempts st /\
    _output_buffer_empty st' = Some Failed.
Proof.
  induction h as [|[data|] h IH]; intros st written Hf Hw Hb; cbn [run].
  - eauto 6.
  - unfold write. destruct (_output_buffer st) as [|b rest] eqn:Eb; [congruence|].
    cbn [is_empty]. unfold arm, set_buffer. cbn. rewrite Hf.
    match goal with |- context [run port ?s _ _] =>
      destruct (IH s (written ++ data)) as (st' & written' & Hrun & Hr & Ha & Hf');
        [cbn; congruence | cbn; congruence | cbn; discriminate |]
    end.
    rewrite Hrun. eauto 6.
  - unfold loop_turn. rewrite Hw. now apply IH.
Qed.

(** X8: When the port fails under the writer callback, the stream stays as
    it is from then on: every later [write] returns and is buffered,
    no turn of the loop sends anything, nothing more reaches the port,
    and every [drain] raises. *)
Theorem failed_flush_wedges st h written :
  consistent st -> writer st = true -> port (attempts st) = Fails ->
  exists st' written',
    run port (loop_turn port st) written h = Ok (st', written') /\
    received st' = received st /\
    attempts st' = S (attempts st) /\
    forall turns, drain port turns st' = (Some (Raise OSError), st').
Proof.
  intros (Hfut & Hwr) Hw Hport.
  assert (Hb : _output_buffer st <> []).
  { intros E. apply Hfut in E. apply Hwr in Hw. congruence. }
  unfold loop_turn. rewrite Hw, (feed_data_fails port st Hport).
  match goal with |- context [run port ?s _ _] =>
    destruct (wedged_run h s written) as (st' & written' & Hrun & Hr & Ha & Hf);
      [reflexivity | reflexivity | assumption |]
  end.
  exists st', written'. cbn in Hr, Ha. rewrite app_nil_r in Hr.
  split; [assumption|]. split; [assumption|]. split; [assumption|].
  intros turns. destruct turns; cbn; now rewrite Hf.
Qed.

(** X9: On a port that only times out [drain] never returns, and the
    bytes keep waiting: none is sent, none is dropped. *)
Theorem drain_waits_while_the_port_times_out turns : forall st,
  (forall i, port i = TimesOut) ->
  consistent st -> _output_buffer_empty st = Some Pending ->
  exists st', drain port turns st = (None, st') /\
    received st' = received st /\ _output_buffer st' = _output_buffer st.
Proof.
  intros st Hport. revert st.
  induction turns as [|turns IH]; intros st Hc Hf; cbn [drain]; rewrite Hf; [eauto|].
  assert (Hw : writer st = true) by now apply Hc.
  assert (Hb : _output_buffer st <> []).
  { intros E. apply Hc in E. congruence. }
  destruct (feed_data_moves_prefix port st Hc Hw) as (Hc1 & _).
  assert (Hstep : _feed_data port st = {|
            _output_buffer := _output_buffer st;
            _output_buffer_empty := Some Pending;
            writer := true;
            received := received st ++ [];
            attempts := S (attempts st) |}).
  { rewrite (feed_data_offered port st 0); [|now rewrite Hport].
    cbn. rewrite drop_0, take_0.
    destruct (_output_buffer st); [congruence|]. cbn. now rewrite Hf, Hw. }
  unfold loop_turn. rewrite Hw. rewrite Hstep in *.
  match goal with |- context [drain port turns ?s] => destruct (IH s Hc1 eq_refl) as
      (st' & Hd & Hr & Hbuf) end.
  exists st'. cbn in Hr, Hbuf. rewrite app_nil_r in Hr. auto.
Qed.

End FailingPort.

Lemma two_left_consistent : consistent Examples.two_left.
Proof. unfold consistent. cbn. split; split; congruence. Qed.

Lemma failed_flush_wedges_witness :
  exists st' written',
    run Examples.unplugged (loop_turn Examples.unplugged Examples.two_left)
        [Byte.x01; Byte.x02; Byte.x03] [Write [Byte.x04]; Turn] = Ok (st', written') /\
    received st' = received Examples.two_left /\
    attempts st' = S (attempts Examples.two_left) /\
    forall turns, drain Examples.unplugged turns st' = (Some (Raise OSError), st').
Proof.
  exact (failed_flush_wedges Examples.unplugged Examples.two_left [Write [Byte.x04]; Turn]
           [Byte.x01; Byte.x02; Byte.x03]
           two_left_consistent eq_refl eq_refl).
Defined.

Lemma drain_waits_while_the_port_times_out_witness :
  exists st', drain Examples.never_ready 5 Examples.two_left = (None, st') /\
    received st' = received Examples.two_left /\
    _output_buffer st' = _output_buffer Examples.two_left.
Proof.
  exact (drain_waits_while_the_port_times_out Examples.never_ready 5 Examples.two_left
           (fun _ => eq_refl) two_left_consistent eq_refl).
Defined.

End StreamsFailures.

(** ** [capture]: what is sent to the device *)

Module SessionLog.
Import Py Vm Scope PyFacts Examples CaptureProofs.

Lemma emits_ret {A : Type} (P : event -> Prop) (a : A) : emits P (mret a : io A).
Proof. intros w. exists []. cbn. now rewrite app_nil_r. Qed.

Lemma emits_lift {A : Type} (P : event -> Prop) (r : result A) : emits P (lift r).
Proof. intros w. exists []. unfold lift. destruct r; cbn; now rewrite app_nil_r. Qed.

Lemma emits_emit (P : event -> Prop) (e : event) : P e -> emits P (emit e).
Proof. intros H w. exists [e]. cbn. auto. Qed.

Lemma emits_bind {A B : Type} (P : event -> Prop) (m : io A) (k : A -> io B) :
  emits P m ->
  (forall a w w', m w = (Returns a, w') -> emits P (k a)) ->
  emits P (m ≫= k).
Proof.
  intros Hm Hk w. unfold mbind, io_bind.
  destruct (Hm w) as (l1 & Hl1 & HP1).
  destruct (m w) as [[a | e |] w1] eqn:E; cbn [snd] in *; eauto.
  destruct (Hk a w w1 E w1) as (l2 & Hl2 & HP2).
  exists (l1 ++ l2). rewrite Hl2, Hl1, <- app_assoc. split; [reflexivity|].
  now apply Forall_app.
Qed.

Lemma emits_transaction {A : Type} (P : event -> Prop) (body : io A) :
  P TransactionEnter -> P (TransactionExit false) -> P (TransactionExit true) ->
  emits P body -> emits P (transaction body).
Proof.
  intros H1 H2 H3 Hb w. unfold transaction. cbn [emit].
  match goal with |- context [body ?w1] => destruct (Hb w1) as (l & Hl & HP) end.
  destruct (body _) as [[a | e |] w2]; cbn [snd log emit] in *; rewrite Hl.
  - exists (TransactionEnter :: l ++ [TransactionExit false]).
    rewrite <- !app_assoc. split; [reflexivity|].
    constructor; [assumption|]. apply Forall_app. auto.
  - exists (TransactionEnter :: l ++ [TransactionExit true]).
    rewrite <- !app_assoc. split; [reflexivity|].
    constructor; [assumption|]. apply Forall_app. auto.
  - exists (TransactionEnter :: l). rewrite <- !app_assoc. split; [reflexivity|].
    constructor; assumption.
Qed.

Lemma emits_read_replies (P : event -> Prop) (n : nat) : emits P (read_replies n).
Proof.
  intros w. exists []. unfold read_replies.
  destruct (n <=? length (replies w))%nat; cbn; now rewrite app_nil_r.
Qed.

Lemma emits_readexactly (P : event -> Prop) (n : Z) : emits P (readexactly n).
Proof.
  intros w. exists []. unfold readexactly.
  destruct (Z.to_nat n <=? length (incoming w))%nat; cbn; now rewrite app_nil_r.
Qed.

Lemma emits_await_trace int16 (P : event -> Prop) : emits P (await_trace int16).
Proof.
  intros w. exists []. unfold await_trace.
  destruct (await_trace_on int16 (replies w)); cbn. now rewrite app_nil_r.
Qed.

Lemma emits_read_address int16 (P : event -> Prop) (mult : Z) :
  emits P (read_address int16 mult).
Proof.
  unfold read_address. apply emits_bind; [apply emits_read_replies|].
  intros [|token r] _ _ _; [apply emits_lift|].
  apply emits_bind; [apply emits_lift | intros; apply emits_ret].
Qed.

Lemma emits_sent {A : Type} (P : event -> Prop) (m : io A) (w : world) :
  emits P m -> Forall P (sent m w).
Proof.
  intros H. destruct (H w) as (l & Hl & HP). unfold sent.
  now rewrite Hl, drop_app_length.
Qed.

(** An event that [fits_buffer] says nothing about. *)
Lemma fits_buffer_other width mult ev :
  (forall kw, ev <> SetRegisters kw) -> fits_buffer width mult ev.
Proof. destruct ev; cbn; auto. intros H. now contradiction (H kw). Qed.

Lemma emits_dump_one (P : event -> Prop) a t e address dump_channel :
  P TransactionEnter -> P (TransactionExit false) -> P (TransactionExit true) ->
  P (Issue program_spock_registers) -> P (Issue analog_dump_binary) ->
  P (SetRegisters
       [ ("SampleAddress"%string,
          VInt (((address - count t) * multiplier t) `mod` buffer_width (mode t)));
         ("DumpMode"%string, VDump (dump_mode (mode t)));
         ("DumpChan"%string, VInt dump_channel);
         ("DumpCount"%string, VInt (count t));
         ("DumpRepeat"%string, VInt 1);
         ("DumpSend"%string, VInt 1);
         ("DumpSkip"%string, VInt 0) ]) ->
  emits P (dump_one a t e address dump_channel).
Proof.
  intros H1 H2 H3 H4 H5 H6. unfold dump_one.
  apply emits_bind.
  - apply emits_transaction; try assumption.
    apply emits_bind; [now apply emits_emit|]. intros _ _ _ _.
    apply emits_bind; [now apply emits_emit|]. intros _ _ _ _.
    now apply emits_emit.
  - intros _ _ _ _. apply emits_bind; [apply emits_readexactly|].
    intros data _ _ _. apply emits_lift.
Qed.

Lemma emits_dump_channels (P : event -> Prop) a t e address todo :
  (forall dump_channel, emits P (dump_one a t e address dump_channel)) ->
  forall traces, emits P (dump_channels a t e address todo traces).
Proof.
  intros Hone. induction todo as [|[i c] todo IH]; intros traces; cbn [dump_channels].
  - apply emits_ret.
  - apply emits_bind; [apply Hone|]. intros tr _ _ _. apply IH.
Qed.

Section Buffer.

Variable fl : flags.
Variable int16 : string -> result Z.

(** X10: Every register block of a [capture] keeps to the sample buffer of
    its regime: each [SampleAddress] is an offset into the buffer (the
    [%] of line 171 wraps an address below the sample count), the
    trace is asked for [TraceIntro + TraceOutro] samples that fit, and
    each dump for [DumpCount] samples per channel that fit. *)
Theorem capture_keeps_to_the_buffer s a tm w :
  capture_timing s a = Ok tm ->
  Forall (fits_buffer (buffer_width (mode tm)) (multiplier tm))
         (sent (capture fl int16 s a) w).
Proof.
  intros Htm. apply emits_sent.
  destruct (capture_timing_ok _ _ _ Htm) as (t & _ & Hsel & _ & Hm & Htot & Hle).
  assert (Hbw : 0 < buffer_width (mode tm)).
  { destruct (select_regime_widths _ _ _ Hsel) as [[_ ->] | [_ ->]]; lia. }
  set (P := fits_buffer (buffer_width (mode tm)) (multiplier tm)).
  assert (Hother : forall ev, (forall kw, ev <> SetRegisters kw) -> P ev)
    by (intros; now apply fits_buffer_other).
  unfold capture.
  apply emits_bind; [apply emits_lift|]. intros tm' w0 w0' Hret.
  apply lift_returns in Hret as (Hret & _).
  assert (tm' = tm) by congruence. subst tm'.
  apply emits_bind; [apply emits_lift|]. intros e _ _ _.
  apply emits_bind.
  { apply emits_transaction; try (apply Hother; discriminate).
    apply emits_bind; [apply emits_lift|]. intros kw w1 w1' Hkw.
    apply lift_returns in Hkw as (Hkw & _).
    apply emits_bind.
    - apply emits_emit. unfold capture_registers in Hkw.
      bind_inv Hkw. bind_inv Hkw. bind_inv Hkw. injection Hkw as <-.
      subst P. cbn. split; [|split].
      + intros v [= <-]. lia.
      + intros i o [= <-] [= <-].
        pose proof (Z.mul_div_le (total_samples tm) 2 ltac:(lia)). lia.
      + intros n [=].
    - intros _ _ _ _.
      apply emits_bind; [apply emits_emit, Hother; discriminate|]. intros _ _ _ _.
      apply emits_bind; [apply emits_emit, Hother; discriminate|]. intros _ _ _ _.
      apply emits_emit, Hother; discriminate. }
  intros _ _ _ _.
  apply emits_bind; [apply emits_await_trace|]. intros _ _ _ _.
  apply emits_bind; [apply emits_read_address|]. intros address _ _ _.
  apply emits_dump_channels. intros dump_channel.
  apply emits_dump_one; try (apply Hother; discriminate).
  subst P. cbn. split; [|split].
  - intros v [= <-]. apply Z.mod_pos_bound. lia.
  - intros i o [=].
  - intros n [= <-]. rewrite Hm. lia.
Qed.

End Buffer.

Lemma capture_keeps_to_the_buffer_witness :
  exists tm,
    capture_timing BS0005 eight_for_seven = Ok tm /\
    buffer_width (mode tm) = 12288 /\ multiplier tm = 2 /\
    Forall (fits_buffer (buffer_width (mode tm)) (multiplier tm))
           (sent (capture one_bit_flags int_base16 BS0005 eight_for_seven) answering).
Proof.
  eexists. split; [vm_compute; reflexivity|]. split; [reflexivity|]. split; [reflexivity|].
  apply (capture_keeps_to_the_buffer one_bit_flags int_base16 BS0005 eight_for_seven).
  vm_compute. reflexivity.
Defined.

End SessionLog.

(** ** [capture]: channels, trigger channel and replies *)

Module CaptureEdges.
Import Py Vm Scope PyFacts Examples CaptureProofs SessionLog.

Lemma sent_nothing {A : Type} (m : io A) (w : world) (o : outcome A) :
  m w = (o, w) -> sent m w = [].
Proof. intros H. unfold sent. rewrite H. cbn. apply drop_all. Qed.

Lemma capture_registers_unbound fl s a t e :
  kitchen_sink_a e = None -> exists err, capture_registers fl s a t e = Raise err.
Proof.
  intros H. unfold capture_registers.
  destruct (fdiv _ (trigger_timeout_tick s)) as [x|err]; [|cbn; eauto].
  cbn. destruct (round_float x) as [n|err]; [|cbn; eauto].
  cbn. rewrite H. cbn. eauto.
Qed.

Lemma capture_trigger_foreign fl s a e c :
  effective_trigger_channel a = Ok c -> c <> "A"%string -> c <> "B"%string ->
  capture_trigger fl s a = Ok e -> kitchen_sink_a e = None.
Proof.
  intros Hc Ha Hb. unfold capture_trigger. rewrite Hc. cbn.
  apply String.eqb_neq in Ha, Hb. rewrite Ha, Hb.
  intros H. bind_inv H. now injection H as <-.
Qed.

Section Edges.

Variable fl : flags.
Variable int16 : string -> result Z.

(** X11: A [capture] of no channel at all raises before anything is sent
    or read: the IndexError of [channels[0]] when no trigger channel is
    given and the AssertionError of line 125 when one is, unless the
    timing stage has raised before. *)
Theorem capture_of_no_channel_raises s a w :
  channels a = [] ->
  (exists e, capture fl int16 s a w = (Raises e, w)) /\
  (forall tm, capture_timing s a = Ok tm ->
     capture fl int16 s a w
     = (Raises match trigger_channel a with
               | None => IndexError
               | Some _ => AssertionError
               end, w)).
Proof.
  intros Hch.
  assert (Htr : capture_trigger fl s a
                = Raise match trigger_channel a with
                        | None => IndexError
                        | Some _ => AssertionError
                        end).
  { unfold capture_trigger, effective_trigger_channel. rewrite Hch.
    destruct (trigger_channel a); reflexivity. }
  split.
  - destruct (capture_timing s a) as [tm|e] eqn:Htm.
    + eexists. exact (capture_raises_in_trigger fl int16 s a tm _ w Htm Htr).
    + eexists. exact (capture_raises_in_timing fl int16 s a e w Htm).
  - intros tm Htm. exact (capture_raises_in_trigger fl int16 s a tm _ w Htm Htr).
Qed.

(** X12: A trigger channel that is neither ['A'] nor ['B'] leaves
    [kitchen_sink_a] unbound: [capture] raises, and no register is set
    and no command issued; at most a transaction was entered and left. *)
Theorem capture_on_a_foreign_trigger_raises s a c w :
  effective_trigger_channel a = Ok c -> c <> "A"%string -> c <> "B"%string ->
  (exists e, (capture fl int16 s a w).1 = Raises e) /\
  (sent (capture fl int16 s a) w = [] \/
   sent (capture fl int16 s a) w = [TransactionEnter; TransactionExit true]).
Proof.
  intros Hc Ha Hb.
  destruct (capture_timing s a) as [tm|e] eqn:Htm.
  2:{ pose proof (capture_raises_in_timing fl int16 s a e w Htm) as H.
      split; [rewrite H; eauto | left; eapply sent_nothing; eassumption]. }
  destruct (capture_trigger fl s a) as [enc|e] eqn:Htr.
  2:{ pose proof (capture_raises_in_trigger fl int16 s a tm e w Htm Htr) as H.
      split; [rewrite H; eauto | left; eapply sent_nothing; eassumption]. }
  pose proof (capture_trigger_foreign fl s a enc c Hc Ha Hb Htr) as Hks.
  destruct (capture_registers_unbound fl s a tm enc Hks) as (err & Herr).
  assert (H : capture fl int16 s a w
              = (Raises err, {| log := (log w ++ [TransactionEnter]) ++ [TransactionExit true];
                                replies := replies w; incoming := incoming w |})).
  { unfold capture. unfold mbind at 1, io_bind. unfold lift at 1. rewrite Htm.
    unfold mbind at 1, io_bind. unfold lift at 1. rewrite Htr.
    unfold mbind at 1, io_bind. unfold transaction.
    unfold mbind at 1, io_bind. unfold lift at 1. rewrite Herr. reflexivity. }
  split; [rewrite H; eauto|]. right. unfold sent. rewrite H. cbn [snd log].
  rewrite <- app_assoc. apply drop_app_length.
Qed.

(** X13: The loop of lines 158 to 165 passes over every pair of replies
    with code 2 and ends at the first pair with another code, which it
    takes from the queue too; with too few replies for a pair it
    waits. *)
Theorem await_trace_passes_armed_replies armed tail w :
  Forall (fun p : string * string => int16 p.1 = Ok 2 /\ is_ok (int16 p.2) = true) armed ->
  replies w = flat_map (fun p : string * string => [p.1; p.2]) armed ++ tail ->
  (forall code stamp rest c, tail = code :: stamp :: rest ->
     int16 code = Ok c -> c <> 2 -> is_ok (int16 stamp) = true ->
     await_trace int16 w
     = (Returns tt, {| log := log w; replies := rest; incoming := incoming w |})) /\
  ((length tail < 2)%nat ->
   await_trace int16 w
   = (Blocks, {| log := log w; replies := tail; incoming := incoming w |})).
Proof.
  intros Harmed Hrep. unfold await_trace. rewrite Hrep. clear Hrep.
  split.
  - intros code stamp rest c -> Hcode Hc Hstamp.
    enough (H : await_trace_on int16
                  (flat_map (fun p : string * string => [p.1; p.2]) armed
                   ++ code :: stamp :: rest) = (Returns tt, rest)) by now rewrite H.
    induction Harmed as [|[c0 t0] armed [H2 Ht] _ IH]; cbn [flat_map app await_trace_on fst snd] in *.
    + rewrite Hcode. destruct (int16 stamp); [|discriminate].
      destruct (Z.eqb_spec c 2); [contradiction | reflexivity].
    + rewrite H2. destruct (int16 t0); [|discriminate]. cbn. exact IH.
  - intros Hlen.
    enough (H : await_trace_on int16
                  (flat_map (fun p : string * string => [p.1; p.2]) armed ++ tail)
                = (Blocks, tail)) by now rewrite H.
    induction Harmed as [|[c0 t0] armed [H2 Ht] _ IH]; cbn [flat_map app await_trace_on fst snd] in *.
    + destruct tail as [|x [|y tail]]; cbn in *; try reflexivity. lia.
    + rewrite H2. destruct (int16 t0); [|discriminate]. cbn. exact IH.
Qed.

End Edges.

(** X14: In raw mode every decoded sample is a fraction of full scale: a
    finite float whose value is 0 or more and below 1, for 1-byte and
    for 2-byte samples. *)
Theorem raw_samples_are_fractions (width : Z) (lo hi : float) (n : Z) (data : list Byte.byte)
    (trace : list float) :
  decode width true lo hi n data = Ok trace ->
  Forall (fun x => exists q, represents x q /\ (0 <= q)%Q /\ (q < 1)%Q) trace.
Proof.
  unfold decode. destruct (width =? 2).
  - unfold unpack_int16_be. destruct (_ || _); [discriminate|]. cbn.
    intros [= <-]. apply Forall_map.
    eapply Forall_impl; [apply int16_be_range|]. intros v Hv. cbn.
    exists ((v # 65536) + (1 # 2))%Q. split; [now apply decode_int16_exact|].
    unfold Qle, Qlt, Qplus; cbn [Qnum Qden].
    change (Z.pos (65536 * 2)) with 131072. cbn beta in Hv. lia.
  - intros [= <-]. apply Forall_map. apply Forall_forall. intros b _. cbn.
    pose proof (byte_value_range b) as Hb.
    exists (byte_value b # 256)%Q. split; [now apply decode_byte_exact|].
    unfold Qle, Qlt; cbn [Qnum Qden]. lia.
Qed.

Lemma raw_samples_are_fractions_witness :
  Forall (fun x => exists q, represents x q /\ (0 <= q)%Q /\ (q < 1)%Q)
         [literal 5 (-1); literal 0 0].
Proof.
  apply (raw_samples_are_fractions 2 (literal 0 0) (literal 1 0) 2
           [Byte.x00; Byte.x00; Byte.x80; Byte.x00]).
  vm_compute. reflexivity.
Defined.

Lemma capture_of_no_channel_raises_witness :
  (exists e, capture one_bit_flags int_base16 BS0005 no_channels answering
             = (Raises e, answering)) /\
  (forall tm, capture_timing BS0005 no_channels = Ok tm ->
     capture one_bit_flags int_base16 BS0005 no_channels answering
     = (Raises IndexError, answering)).
Proof.
  exact (capture_of_no_channel_raises one_bit_flags int_base16 BS0005 no_channels answering
           eq_refl).
Defined.

Lemma capture_on_a_foreign_trigger_raises_witness :
  capture one_bit_flags int_base16 BS0005 channel_c answering
  = (Raises UnboundLocalError,
     {| log := [TransactionEnter; TransactionExit true];
        replies := replies answering; incoming := incoming answering |}) /\
  (exists e, (capture one_bit_flags int_base16 BS0005 channel_c answering).1 = Raises e) /\
  (sent (capture one_bit_flags int_base16 BS0005 channel_c) answering = [] \/
   sent (capture one_bit_flags int_base16 BS0005 channel_c) answering
   = [TransactionEnter; TransactionExit true]).
Proof.
  split; [vm_compute; reflexivity|].
  apply (capture_on_a_foreign_trigger_raises one_bit_flags int_base16 BS0005 channel_c
           "C"%string answering); [reflexivity | discriminate | discriminate].
Defined.

Lemma await_trace_passes_armed_replies_witness :
  await_trace int_base16 armed_twice
  = (Returns tt, {| log := []; replies := ["10"%string]; incoming := [] |}).
Proof.
  refine (proj1 (await_trace_passes_armed_replies int_base16
                   [("2"%string, "0"%string); ("2"%string, "5"%string)]
                   ["1"; "a"; "10"]%string armed_twice _ eq_refl)
                "1"%string "a"%string ["10"%string] 1 eq_refl _ _ _).
  - repeat constructor.
  - vm_compute. reflexivity.
  - lia.
  - vm_compute. reflexivity.
Defined.

End CaptureEdges.

(** ** [capture]: the bytes of each channel *)

Module CaptureData.
Import Py Vm Scope PyFacts Examples CaptureProofs SessionLog.

Lemma leaves_input_ret {A : Type} (a : A) : leaves_input (mret a : io A).
Proof. intros w. reflexivity. Qed.

Lemma leaves_input_lift {A : Type} (r : result A) : leaves_input (lift r).
Proof. intros w. unfold lift. now destruct r. Qed.

Lemma leaves_input_emit (e : event) : leaves_input (emit e).
Proof. intros w. reflexivity. Qed.

Lemma leaves_input_bind {A B : Type} (m : io A) (k : A -> io B) :
  leaves_input m -> (forall a, leaves_input (k a)) -> leaves_input (m ≫= k).
Proof.
  intros Hm Hk w. unfold mbind, io_bind. specialize (Hm w).
  destruct (m w) as [[a | e |] w1]; cbn [snd] in *; try assumption.
  now rewrite Hk.
Qed.

Lemma leaves_input_transaction {A : Type} (body : io A) :
  leaves_input body -> leaves_input (transaction body).
Proof.
  intros Hb w. unfold transaction. cbn [emit].
  match goal with |- context [body ?w1] => specialize (Hb w1) end.
  destruct (body _) as [[a | e |] w2]; cbn [snd emit incoming] in *; assumption.
Qed.

Lemma insert_sorted_NoDup {A : Type} (lt : A -> A -> bool) (x : A) (l : list A) :
  ~ In x l -> NoDup l -> NoDup (insert_sorted lt x l).
Proof.
  intros Hx Hl. induction l as [|y l IH]; cbn [insert_sorted].
  - apply NoDup_cons. split; [|constructor]. now rewrite list_elem_of_In.
  - destruct (lt x y).
    + apply NoDup_cons. split; [now rewrite list_elem_of_In | assumption].
    + apply NoDup_cons in Hl as [Hy Hl]. rewrite list_elem_of_In in Hy.
      apply NoDup_cons. split.
      * rewrite list_elem_of_In, in_insert_sorted. cbn in Hx. intuition congruence.
      * apply IH; [cbn in Hx; tauto | assumption].
Qed.

Lemma sorted_NoDup {A : Type} (lt : A -> A -> bool) (l : list A) :
  NoDup l -> NoDup (sorted lt l).
Proof.
  unfold sorted.
  enough (H : forall acc, NoDup acc -> (forall x, In x l -> ~ In x acc) -> NoDup l ->
                          NoDup (fold_left (fun acc x => insert_sorted lt x acc) l acc)).
  { intros Hl. apply H; [constructor | auto | assumption]. }
  induction l as [|x l IH]; intros acc Hacc Hdisj Hl; cbn [fold_left]; [assumption|].
  apply NoDup_cons in Hl as [Hx Hl]. rewrite list_elem_of_In in Hx.
  apply IH; [| |assumption].
  - apply insert_sorted_NoDup; [|assumption]. apply Hdisj. now left.
  - intros y Hy. rewrite in_insert_sorted. intros [-> | Hin]; [contradiction|].
    apply (Hdisj y); [now right | assumption].
Qed.

Lemma enumerate_lookup {A : Type} (l : list A) (i : nat) (x : A) :
  l !! i = Some x -> enumerate l !! i = Some (Z.of_nat i, x).
Proof. intros H. unfold enumerate. now rewrite list_lookup_imap, H. Qed.

Section Blocks.

Variable fl : flags.
Variable int16 : string -> result Z.

(** One round of the dump loop decodes the next block of the input. *)
Lemma dump_one_block a t e address dump_channel w tr w' :
  dump_one a t e address dump_channel w = (Returns tr, w') ->
  decode (sample_width (mode t)) (raw a) (low_value e) (high_value e) (count t)
         (take (Z.to_nat (count t * sample_width (mode t))) (incoming w)) = Ok tr /\
  incoming w' = drop (Z.to_nat (count t * sample_width (mode t))) (incoming w).
Proof.
  unfold dump_one. intros H.
  apply io_bind_returns in H as (u & w1 & Htx & H).
  assert (Hin : incoming w1 = incoming w).
  { change w1 with (Returns u, w1).2. rewrite <- Htx.
    apply leaves_input_transaction.
    apply leaves_input_bind; [apply leaves_input_emit | intros _].
    apply leaves_input_bind; [apply leaves_input_emit | intros _].
    apply leaves_input_emit. }
  apply io_bind_returns in H as (data & w2 & Hread & H).
  apply lift_returns in H as (Hdec & ->).
  unfold readexactly in Hread.
  destruct (_ <=? _)%nat; [|discriminate]. injection Hread as <- <-.
  cbn [incoming]. rewrite Hin in *. auto.
Qed.

Lemma dump_channels_blocks a t e address todo : forall traces0 w traces w',
  dump_channels a t e address todo traces0 w = (Returns traces, w') ->
  NoDup todo.*2 ->
  (forall i p, todo !! i = Some p ->
     exists tr, traces !! p.2 = Some tr /\
       decode (sample_width (mode t)) (raw a) (low_value e) (high_value e) (count t)
         (take (Z.to_nat (count t * sample_width (mode t)))
            (drop (i * Z.to_nat (count t * sample_width (mode t))) (incoming w))) = Ok tr) /\
  (forall c, ~ In c todo.*2 -> traces !! c = traces0 !! c).
Proof.
  induction todo as [|[ch c0] todo IH]; intros traces0 w traces w' H Hnd; cbn [dump_channels] in H.
  - injection H as <- <-. split; [intros i p Hp; discriminate | auto].
  - apply io_bind_returns in H as (tr0 & w1 & Hone & H).
    apply dump_one_block in Hone as (Hdec & Hin).
    cbn [fmap list_fmap snd] in Hnd. apply NoDup_cons in Hnd as [Hc0 Hnd].
    rewrite list_elem_of_In in Hc0.
    destruct (IH _ _ _ _ H Hnd) as (Hblocks & Hrest).
    split.
    + intros [|i] p Hp; cbn in Hp.
      * injection Hp as <-. cbn [snd]. exists tr0.
        rewrite (Hrest c0 Hc0), lookup_insert_eq. now rewrite drop_0.
      * destruct (Hblocks i p Hp) as (tr & Htr & Hd). exists tr. split; [assumption|].
        rewrite Hin, drop_drop in Hd.
        replace (S i * Z.to_nat (count t * sample_width (mode t)))%nat
          with (Z.to_nat (count t * sample_width (mode t))
                + i * Z.to_nat (count t * sample_width (mode t)))%nat by lia.
        exact Hd.
    + intros c Hc. cbn [fmap list_fmap snd] in Hc.
      rewrite Hrest by (intros ?; apply Hc; now right).
      apply lookup_insert_ne. intros ->. apply Hc. now left.
Qed.

(** X15: The trace of each channel is the decoding of its own block of the
    bytes the device delivers: the channels are dumped in sorted order,
    each from the [count * sample_width] bytes that follow those of the
    channel before it. *)
Theorem each_channel_gets_its_block s a w traces w' :
  capture fl int16 s a w = (Returns traces, w') ->
  NoDup (channels a) ->
  exists tm e,
    capture_timing s a = Ok tm /\ capture_trigger fl s a = Ok e /\
    forall (i : nat) channel,
      sorted String.ltb (channels a) !! i = Some channel ->
      exists trace,
        traces !! channel = Some trace /\
        decode (sample_width (mode tm)) (raw a) (low_value e) (high_value e) (count tm)
          (take (Z.to_nat (count tm * sample_width (mode tm)))
             (drop (i * Z.to_nat (count tm * sample_width (mode tm))) (incoming w)))
        = Ok trace.
Proof.
  intros H Hnd. unfold capture in H.
  apply io_bind_returns in H as (tm & w1 & Htm & H).
  apply lift_returns in Htm as (Htm & ->).
  apply io_bind_returns in H as (e & w2 & He & H).
  apply lift_returns in He as (He & ->).
  apply io_bind_returns in H as (u1 & w3 & Htx & H).
  apply io_bind_returns in H as (u2 & w4 & Hawait & H).
  apply io_bind_returns in H as (address & w5 & Haddr & H).
  assert (Hin : incoming w5 = incoming w).
  { transitivity (incoming w4); [|transitivity (incoming w3)].
    - unfold read_address in Haddr.
      apply io_bind_returns in Haddr as (r & w6 & Hr & Haddr).
      unfold read_replies in Hr. destruct (_ <=? _)%nat; [|discriminate].
      injection Hr as <- <-. destruct (take 1 (replies w4)) as [|token r]; [discriminate|].
      apply io_bind_returns in Haddr as (n & w7 & Hn & Haddr).
      apply lift_returns in Hn as (_ & ->). now injection Haddr as _ <-.
    - unfold await_trace in Hawait.
      destruct (await_trace_on int16 (replies w3)). now injection Hawait as _ <-.
    - change w3 with (Returns u1, w3).2. rewrite <- Htx.
      apply leaves_input_transaction.
      apply leaves_input_bind; [apply leaves_input_lift | intros kw].
      apply leaves_input_bind; [apply leaves_input_emit | intros _].
      apply leaves_input_bind; [apply leaves_input_emit | intros _].
      apply leaves_input_bind; [apply leaves_input_emit | intros _].
      apply leaves_input_emit. }
  apply dump_channels_blocks in H as (Hblocks & _).
  2:{ rewrite enumerate_values. now apply sorted_NoDup. }
  exists tm, e. split; [assumption|]. split; [assumption|].
  intros i channel Hi. apply enumerate_lookup in Hi.
  destruct (Hblocks i _ Hi) as (tr & Htr & Hd). exists tr. rewrite <- Hin. auto.
Qed.

Lemma last_register_from (name : string) (l : list event) (found : option value) :
  fold_left (fun found ev =>
               match ev with
               | SetRegisters kw =>
                   match register name kw with
                   | Some v => Some v
                   | None => found
                   end
               | _ => found
               end) l found
  = match last_register name l with
    | Some v => Some v
    | None => found
    end.
Proof.
  unfold last_register. revert found. induction l as [|ev l IH]; intros found; [reflexivity|].
  cbn [fold_left]. rewrite IH. symmetry. rewrite IH.
  destruct (fold_left _ l None); [reflexivity|].
  destruct ev; try reflexivity. now destruct (register name kw).
Qed.

Lemma last_register_app (name : string) (l1 l2 : list event) :
  last_register name (l1 ++ l2)
  = match last_register name l2 with
    | Some v => Some v
    | None => last_register name l1
    end.
Proof. unfold last_register at 1. rewrite fold_left_app. apply last_register_from. Qed.

Lemma last_register_spared (name : string) (l : list event) :
  Forall (spares name) l -> last_register name l = None.
Proof.
  induction 1 as [|ev l Hev _ IH]; [reflexivity|].
  change (ev :: l) with ([ev] ++ l). rewrite last_register_app, IH.
  destruct ev; try reflexivity. cbn in *. now rewrite Hev.
Qed.

Lemma has_flag_lor (a b : Z) : has_flag (Z.lor a b) b = true.
Proof.
  unfold has_flag. apply Z.eqb_eq.
  apply Z.bits_inj'. intros n Hn. rewrite Z.land_spec, Z.lor_spec. destruct (Z.testbit a n), (Z.testbit b n); reflexivity.
Qed.

End Blocks.

Lemma each_channel_gets_its_block_witness :
  exists traces w',
    capture one_bit_flags int_base16 BS0005 eight_for_seven answering = (Returns traces, w') /\
    sorted String.ltb (channels eight_for_seven) = ["A"; "B"]%string /\
    exists tm e,
      capture_timing BS0005 eight_for_seven = Ok tm /\
      capture_trigger one_bit_flags BS0005 eight_for_seven = Ok e /\
      forall (i : nat) channel,
        sorted String.ltb (channels eight_for_seven) !! i = Some channel ->
        exists trace,
          traces !! channel = Some trace /\
          decode (sample_width (mode tm)) (raw eight_for_seven) (low_value e) (high_value e)
            (count tm)
            (take (Z.to_nat (count tm * sample_width (mode tm)))
               (drop (i * Z.to_nat (count tm * sample_width (mode tm))) (incoming answering)))
          = Ok trace.
Proof.
  eexists. eexists. split; [vm_compute; reflexivity|]. split; [vm_compute; reflexivity|].
  apply (each_channel_gets_its_block one_bit_flags int_base16 BS0005 eight_for_seven
           answering _ _ ltac:(vm_compute; reflexivity)).
  apply NoDup_cons. split; [|apply NoDup_singleton].
  intros Hin. apply list_elem_of_In in Hin. cbn in Hin. intuition discriminate.
Defined.

End CaptureData.

(** ** Single precision: values the format holds *)

Module SingleFacts.
Import Py PyFacts.

Lemma shr_1_double (z : Z) :
  0 < z ->
  shr_1 {| shr_m := 2 * z; shr_r := false; shr_s := false |}
  = {| shr_m := z; shr_r := false; shr_s := false |}.
Proof. destruct z; try lia. reflexivity. Qed.

(** A shift that drops only zeros leaves nothing to round. *)
Lemma iter_shr_1_exact (p : positive) : forall z,
  0 < z ->
  SpecFloat.iter_pos shr_1 p {| shr_m := z * 2 ^ Zpos p; shr_r := false; shr_s := false |}
  = {| shr_m := z; shr_r := false; shr_s := false |}.
Proof.
  induction p as [p IH | p IH |]; intros z Hz; cbn [SpecFloat.iter_pos].
  - assert (H2 : 0 < 2 ^ Zpos p) by (apply Z.pow_pos_nonneg; lia).
    assert (E : 2 ^ Zpos p~1 = 2 * (2 ^ Zpos p * 2 ^ Zpos p)).
    { rewrite <- Z.pow_add_r, <- Z.pow_succ_r by lia. f_equal. lia. }
    replace (z * 2 ^ Zpos p~1) with (2 * ((z * 2 ^ Zpos p) * 2 ^ Zpos p)) by (rewrite E; ring).
    rewrite shr_1_double by nia. rewrite IH by nia. now apply IH.
  - assert (H2 : 0 < 2 ^ Zpos p) by (apply Z.pow_pos_nonneg; lia).
    assert (E : 2 ^ Zpos p~0 = 2 ^ Zpos p * 2 ^ Zpos p).
    { rewrite <- Z.pow_add_r by lia. f_equal. lia. }
    replace (z * 2 ^ Zpos p~0) with ((z * 2 ^ Zpos p) * 2 ^ Zpos p) by (rewrite E; ring).
    rewrite IH by nia. now apply IH.
  - replace (z * 2 ^ 1) with (2 * z) by lia. now apply shr_1_double.
Qed.

Section Exact.

Variables prec emax : Z.
Hypothesis prec_positive : 0 < prec.

(** Rounding a mantissa that already fits its exponent changes
    nothing. *)
Lemma binary_round_aux_canonical (s : bool) (m : positive) (e : Z) :
  bounded prec emax m e = true ->
  binary_round_aux prec emax s (Zpos m) e loc_Exact = S754_finite s m e.
Proof.
  intros Hb. pose proof (bounded_canonical prec emax m e Hb) as Hc.
  unfold bounded in Hb. apply andb_prop in Hb as [_ He]. 
  unfold binary_round_aux, shr_fexp. rewrite Hc, Z.sub_diag. cbn [shr shr_record_of_loc
    shr_m loc_of_shr_record round_nearest_even]. rewrite Hc, Z.sub_diag. cbn [shr shr_m].
  now rewrite He.
Qed.

(** Rounding a number the format holds gives the float that holds
    it. *)
Lemma binary_round_exact (s : bool) (m m0 : positive) (e e0 : Z) :
  bounded prec emax m0 e0 = true ->
  Zpos m * 2 ^ (e - Z.min e e0) = Zpos m0 * 2 ^ (e0 - Z.min e e0) ->
  binary_round prec emax s m e = S754_finite s m0 e0.
Proof.
  intros Hb Hval. pose proof (bounded_canonical prec emax m0 e0 Hb) as Hc.
  assert (Hd : Zdigits2 (Zpos m) + e = Zdigits2 (Zpos m0) + e0).
  { assert (H : Zdigits2 (Zpos m * 2 ^ (e - Z.min e e0))
                = Zdigits2 (Zpos m0 * 2 ^ (e0 - Z.min e e0))) by now rewrite Hval.
    rewrite !(Zdigits2_mul_pow2 prec prec_positive) in H by lia. lia. }
  unfold binary_round. change (Zpos (digits2_pos m)) with (Zdigits2 (Zpos m)).
  rewrite Hd, Hc.
  pose proof (shl_align_spec m e e0) as [He Hm].
  destruct (shl_align m e e0) as [mz ez]. cbn [fst snd] in He, Hm.
  destruct (Z.le_gt_cases e0 e) as [Hle | Hgt].
  - rewrite Z.min_r in * by lia. rewrite Z.sub_diag, Z.pow_0_r, Z.mul_1_r in Hval.
    assert (mz = m0) by lia. subst mz ez. now apply binary_round_aux_canonical.
  - rewrite Z.min_l in * by lia. rewrite Z.sub_diag, Z.pow_0_r, Z.mul_1_r in Hm, Hval.
    assert (mz = m) by lia. subst mz ez.
    unfold bounded in Hb. apply andb_prop in Hb as [_ Hemax].
    unfold binary_round_aux, shr_fexp. rewrite Hd, Hc.
    destruct (e0 - e) as [|p|p] eqn:Ep; try lia.
    cbn [shr shr_record_of_loc]. rewrite Hval, iter_shr_1_exact by lia.
    cbn [shr_m loc_of_shr_record round_nearest_even].
    replace (e + Zpos p) with e0 by lia. rewrite Hc, Z.sub_diag. cbn [shr shr_m].
    now rewrite Hemax.
Qed.

End Exact.

(** A single-precision value read as a double and converted back is
    the value itself. *)
Lemma round_single_double_of_single (r : float) :
  valid_binary 24 128 r = true -> round_single (double_of_single r) = r.
Proof.
  destruct r as [s | s | | s m e]; try reflexivity. cbn [valid_binary]. intros Hb.
  assert (H53 : 0 < 53) by lia. assert (H24 : 0 < 24) by lia.
  destruct (bounded_single m e Hb) as [[Hm He] | [Hm He]].
  - (* subnormal single *)
    pose proof (Zdigits2_bounds (Zpos m) ltac:(lia)) as Hdig.
    pose proof (Zdigits2_pos (Zpos m) ltac:(lia)) as Hpos.
    assert (Hd23 : Zdigits2 (Zpos m) <= 23).
    { destruct (Z.le_gt_cases (Zdigits2 (Zpos m)) 23) as [?|Hgt]; [assumption|].
      assert (2 ^ 23 <= 2 ^ (Zdigits2 (Zpos m) - 1)) by (apply Z.pow_le_mono_r; lia). lia. }
    set (k := 53 - Zdigits2 (Zpos m)).
    assert (Hk : 0 < 2 ^ k) by (apply Z.pow_pos_nonneg; subst k; lia).
    destruct (Zpos m * 2 ^ k) as [|mz|] eqn:Emz; try nia.
    assert (Hdz : Zdigits2 (Zpos mz) = 53).
    { rewrite <- Emz, (Zdigits2_mul_pow2 53 H53) by (subst k; lia). subst k. lia. }
    assert (Hbz : bounded 53 1024 mz (e - k) = true).
    { unfold bounded, canonical_mantissa.
      change (Zpos (digits2_pos mz)) with (Zdigits2 (Zpos mz)). rewrite Hdz.
      apply andb_true_intro. split; [apply Z.eqb_eq | apply Z.leb_le]; subst k;
        unfold fexp, emin; lia. }
    unfold double_of_single.
    rewrite (binary_round_exact 53 1024 H53 s m mz e (e - k) Hbz).
    2:{ rewrite Z.min_r by (subst k; lia).
        replace (e - (e - k)) with k by lia. rewrite Z.sub_diag. lia. }
    cbn [round_single]. apply (binary_round_exact 24 128 H24); [assumption|].
    rewrite Z.min_l by (subst k; lia). rewrite Z.sub_diag.
    replace (e - (e - k)) with k by lia. lia.
  - set (k := 53 - 24).
    assert (Hd24 : Zdigits2 (Zpos m) = 24).
    { rewrite Zdigits2_log2 by lia.
      assert (Z.log2 (Zpos m) = 23); [|lia].
      apply Z.log2_unique; lia. }
    destruct (Zpos m * 2 ^ k) as [|mz|] eqn:Emz; try (subst k; lia).
    assert (Hdz : Zdigits2 (Zpos mz) = 53).
    { rewrite <- Emz, (Zdigits2_mul_pow2 53 H53) by (subst k; lia). subst k. lia. }
    assert (Hbz : bounded 53 1024 mz (e - k) = true).
    { unfold bounded, canonical_mantissa.
      change (Zpos (digits2_pos mz)) with (Zdigits2 (Zpos mz)). rewrite Hdz.
      apply andb_true_intro. split; [apply Z.eqb_eq | apply Z.leb_le]; subst k;
        unfold fexp, emin; lia. }
    unfold double_of_single.
    rewrite (binary_round_exact 53 1024 H53 s m mz e (e - k) Hbz).
    2:{ rewrite Z.min_r by (subst k; lia).
        replace (e - (e - k)) with k by lia. rewrite Z.sub_diag. lia. }
    cbn [round_single]. apply (binary_round_exact 24 128 H24); [assumption|].
    rewrite Z.min_l by (subst k; lia). rewrite Z.sub_diag.
    replace (e - (e - k)) with k by lia. lia.
Qed.

(** Packing a float that came out of the [f] format gives the bytes
    it came from. *)
Lemma pack_f_as_single (x : float) (bs : list Z) :
  pack_f x = Ok bs -> pack_f (double_of_single (round_single x)) = Ok bs.
Proof.
  intros H.
  assert (Hbs : bs = le_bytes 4 (bits_of_single (round_single x))).
  { unfold pack_f in H. destruct x; destruct (round_single _); congruence. }
  pose proof (round_single_double_of_single _ (round_single_valid x)) as Hr.
  unfold pack_f at 1.
  destruct (double_of_single (round_single x)) as [s | s | | s m e] eqn:Ey;
    rewrite Hr, Hbs; try reflexivity.
  destruct (round_single x) as [s0 | s0 | | s0 m0 e0]; try reflexivity. discriminate.
Qed.

End SingleFacts.

(** ** The generator and the registers it leaves *)

Module DeviceState.
Import Py Vm Scope PyFacts Examples CaptureProofs SessionLog CaptureData GeneratorProofs.

Section Registers.

Variable fl : flags.
Variable int16 : string -> result Z.

(** X16: A [capture] that returns has written [KitchenSinkB] once, with
    the WaveformGeneratorEnable flag set, and nothing it does later
    writes that register again; [stop_generator] always returns and
    leaves it at 0.  So a capture turns the flag on again that
    [stop_generator] had cleared. *)
Theorem capture_sets_the_generator_flag s a w traces w' :
  capture fl int16 s a w = (Returns traces, w') ->
  last_register "KitchenSinkB" (log w')
  = Some (VInt (Z.lor (AnalogFilterEnable fl) (WaveformGeneratorEnable fl))) /\
  has_flag (Z.lor (AnalogFilterEnable fl) (WaveformGeneratorEnable fl))
           (WaveformGeneratorEnable fl) = true /\
  forall w0,
    (stop_generator w0).1 = Returns tt /\
    last_register "KitchenSinkB" (log (stop_generator w0).2) = Some (VInt 0).
Proof.
  intros H. split; [|split; [apply has_flag_lor|]].
  - unfold capture in H.
    apply io_bind_returns in H as (tm & w1 & Htm & H).
    apply lift_returns in Htm as (Htm & ->).
    apply io_bind_returns in H as (e & w2 & He & H).
    apply lift_returns in He as (He & ->).
    apply io_bind_returns in H as (u1 & w3 & Htx & H).
    assert (Hlog3 : exists kw, capture_registers fl s a tm e = Ok kw /\
              log w3 = log w ++ [TransactionEnter; SetRegisters kw;
                                 Issue program_spock_registers;
                                 Issue configure_device_hardware;
                                 Issue triggered_trace; TransactionExit false]).
    { revert Htx. unfold transaction. unfold mbind at 1, io_bind. unfold lift at 1.
      destruct (capture_registers fl s a tm e) as [kw|err]; [|discriminate].
      cbn. intros [= _ <-]. exists kw. split; [reflexivity|]. cbn.
      now rewrite <- !app_assoc. }
    destruct Hlog3 as (kw & Hkw & Hlog3).
    assert (Hrest : emits (spares "KitchenSinkB")
              (_ ← await_trace int16;
               address ← read_address int16 (multiplier tm);
               dump_channels a tm e address
                 (enumerate (sorted String.ltb (channels a))) ∅)).
    { apply emits_bind; [apply emits_await_trace|]. intros _ _ _ _.
      apply emits_bind; [apply emits_read_address|]. intros address _ _ _.
      apply emits_dump_channels. intros dump_channel.
      apply emits_dump_one; exact I || reflexivity. }
    destruct (Hrest w3) as (l & Hl & Hspared). rewrite H in Hl. cbn [snd] in Hl.
    rewrite Hl, Hlog3, last_register_app, (last_register_spared _ _ Hspared).
    rewrite last_register_app.
    unfold capture_registers in Hkw. bind_inv Hkw. bind_inv Hkw. bind_inv Hkw.
    injection Hkw as <-. reflexivity.
  - intros w0. split; [reflexivity|].
    unfold stop_generator, transaction, set_registers, issue_command, mbind, io_bind, emit.
    cbn [log snd]. rewrite <- !app_assoc. rewrite last_register_app. reflexivity.
Qed.

(** X18: A frequency, a sample count or a clock period of zero is a
    ZeroDivisionError of the clock search, raised before anything is
    sent. *)
Theorem start_generator_divides_by_zero s g w :
  is_zero (frequency g) = true \/ is_zero (min_samples g) = true
  \/ is_zero (awg_clock_period s) = true ->
  start_generator fl s g w = (Raises ZeroDivisionError, w).
Proof.
  intros H. apply start_generator_raises_in_plan.
  unfold generator_plan, possible_params, max_clock, fdiv.
  destruct (is_zero (frequency g)) eqn:Hf; [reflexivity|]. cbn.
  destruct (is_zero (min_samples g)) eqn:Hm; [reflexivity|]. cbn.
  destruct (is_zero (awg_clock_period s)) eqn:Hc; [reflexivity|].
  destruct H as [H | [H | H]]; discriminate.
Qed.

Lemma start_generator_raises_in_table s g p e w :
  generator_plan s g = Ok p ->
  (forall w1, load_wavetable s g w1 = (Raises e, w1)) ->
  start_generator fl s g w
  = (Raises e, {| log := log w ++ [TransactionEnter; TransactionExit true];
                  replies := replies w; incoming := incoming w |}).
Proof.
  intros Hp Hload. unfold start_generator, mbind, io_bind, transaction.
  unfold lift at 1. rewrite Hp.
  destruct p as [[[size nwaves] clock] actualf].
  cbn [emit snd]. rewrite Hload. cbn. now rewrite <- app_assoc.
Qed.

(** X19: A wavetable that has not [awg_wavetable_size] samples is refused
    with the ValueError of line 217 once a clock is found: no register
    is set and no command issued. *)
Theorem wavetable_of_another_size_is_refused s g p table w :
  generator_plan s g = Ok p ->
  wavetable g = Some table ->
  Z.of_nat (length table) <> awg_wavetable_size s ->
  start_generator fl s g w
  = (Raises (ValueError ("Wavetable data must be "
                         ++ str_of_int (awg_wavetable_size s) ++ " samples")),
     {| log := log w ++ [TransactionEnter; TransactionExit true];
        replies := replies w; incoming := incoming w |}).
Proof.
  intros Hp Ht Hlen. apply (start_generator_raises_in_table s g p); [assumption|].
  intros w1. unfold load_wavetable. rewrite Ht.
  apply Z.eqb_neq in Hlen. now rewrite Hlen.
Qed.

(** X20: Without a wavetable the waveform is looked up by its lower-case
    name: a name that is not one of the five is a KeyError, raised
    once a clock is found, with no register set and no command
    issued. *)
Theorem unknown_waveform_is_a_key_error s g p w :
  generator_plan s g = Ok p ->
  wavetable g = None ->
  ~ In (lower (waveform g))
       ["sine"; "triangle"; "sawtooth"; "exponential"; "square"]%string ->
  start_generator fl s g w
  = (Raises KeyError,
     {| log := log w ++ [TransactionEnter; TransactionExit true];
        replies := replies w; incoming := incoming w |}).
Proof.
  intros Hp Ht Hname. apply (start_generator_raises_in_table s g p); [assumption|].
  intros w1. unfold load_wavetable. rewrite Ht.
  assert (Hmode : waveform_mode (waveform g) = Raise KeyError).
  { unfold waveform_mode. cbn in Hname.
    repeat match goal with
    | |- context [String.eqb ?a ?b] =>
        destruct (String.eqb a b) eqn:E;
          [apply String.eqb_eq in E; exfalso; apply Hname; rewrite E; tauto | clear E]
    end. reflexivity. }
  unfold mbind, io_bind, lift. now rewrite Hmode.
Qed.

End Registers.

Lemma capture_sets_the_generator_flag_witness :
  exists traces w',
    capture one_bit_flags int_base16 BS0005 eight_for_seven (stop_generator answering).2
    = (Returns traces, w') /\
    last_register "KitchenSinkB" (log (stop_generator answering).2) = Some (VInt 0) /\
    last_register "KitchenSinkB" (log w') = Some (VInt 192).
Proof.
  eexists. eexists. split; [vm_compute; reflexivity|].
  split; [vm_compute; reflexivity|].
  destruct (capture_sets_the_generator_flag one_bit_flags int_base16 BS0005
              eight_for_seven (stop_generator answering).2 _ _
              ltac:(vm_compute; reflexivity)) as (H & _).
  exact H.
Defined.

Lemma start_generator_divides_by_zero_witness :
  start_generator one_bit_flags BS0005 zero_hertz answering
  = (Raises ZeroDivisionError, answering).
Proof.
  apply (start_generator_divides_by_zero one_bit_flags BS0005 zero_hertz answering).
  left. reflexivity.
Defined.

Lemma wavetable_of_another_size_is_refused_witness :
  start_generator one_bit_flags BS0005 three_samples answering
  = (Raises (ValueError ("Wavetable data must be "
                         ++ str_of_int (awg_wavetable_size BS0005) ++ " samples")),
     {| log := log answering ++ [TransactionEnter; TransactionExit true];
        replies := replies answering; incoming := incoming answering |}).
Proof.
  apply (wavetable_of_another_size_is_refused one_bit_flags BS0005 three_samples
           (1000, 1, 40, literal 1000 0) [0; 1; 2] answering).
  - vm_compute. reflexivity.
  - reflexivity.
  - vm_compute. discriminate.
Defined.

Lemma unknown_waveform_is_a_key_error_witness :
  start_generator one_bit_flags BS0005 noise answering
  = (Raises KeyError,
     {| log := log answering ++ [TransactionEnter; TransactionExit true];
        replies := replies answering; incoming := incoming answering |}).
Proof.
  apply (unknown_waveform_is_a_key_error one_bit_flags BS0005 noise
           (1000, 1, 40, literal 1000 0) answering).
  - vm_compute. reflexivity.
  - reflexivity.
  - vm_compute. intros [H | [H | [H | [H | [H | []]]]]]; discriminate.
Defined.

End DeviceState.

(** ** The calibration record in the EEPROM *)

Module ParamsRecord.
Import Py Vm Scope PyFacts Examples ParamsProofs SingleFacts CaptureProofs SessionLog CaptureData.

(** The image [save_params] leaves: 26 bytes written from address 100
    up, the magic first. *)
Lemma save_params_image s image image' :
  save_params s image = Ok image' ->
  exists bs, length bs = 24%nat /\ Forall (fun b => 0 <= b < 256) bs /\
    image' = fold_left (fun img '(i, byte) => write_eeprom img (i + 100) byte)
                       (enumerate (178 :: 176 :: bs)) image.
Proof.
  unfold save_params, pack_params. intros H. bind_inv H. injection H as <-.
  destruct (analog_low_ks s) as [[l0 l1] l2]. destruct (analog_high_ks s) as [[h0 h1] h2].
  change ((PARAMS_MAGIC <? 0) || (65535 <? PARAMS_MAGIC)) with false in Hx.
  cbv iota in Hx.
  bind_inv Hx. bind_inv Hx. bind_inv Hx. bind_inv Hx. bind_inv Hx. bind_inv Hx.
  injection Hx as <-.
  destruct (pack_f_shape _ _ Hx0) as (a0 & a1 & a2 & a3 & -> & ? & ? & ? & ?).
  destruct (pack_f_shape _ _ Hx1) as (b0 & b1 & b2 & b3 & -> & ? & ? & ? & ?).
  destruct (pack_f_shape _ _ Hx2) as (c0 & c1 & c2 & c3 & -> & ? & ? & ? & ?).
  destruct (pack_f_shape _ _ Hx3) as (d0 & d1 & d2 & d3 & -> & ? & ? & ? & ?).
  destruct (pack_f_shape _ _ Hx4) as (e0 & e1 & e2 & e3 & -> & ? & ? & ? & ?).
  destruct (pack_f_shape _ _ Hx5) as (f0 & f1 & f2 & f3 & -> & ? & ? & ? & ?).
  exists [a0; a1; a2; a3; b0; b1; b2; b3; c0; c1; c2; c3;
          d0; d1; d2; d3; e0; e1; e2; e3; f0; f1; f2; f3].
  split; [reflexivity|]. split; [|reflexivity].
  repeat (constructor; [assumption|]). constructor.
Qed.

(** X22: [save_params] writes the 26 cells from address 100 to 125 and no
    other: each holds a byte, the first two the magic 0xB0B2 in
    little-endian order; and [load_params] reads those cells and no
    other. *)
Theorem the_record_is_26_cells s image image' :
  save_params s image = Ok image' ->
  (forall a, a < 100 \/ 100 + params_size <= a -> image' a = image a) /\
  holds_bytes image' /\
  stored_magic image' = PARAMS_MAGIC /\
  (forall s0 other,
     (forall a, 100 <= a < 100 + params_size -> other a = image' a) ->
     load_params s0 other = load_params s0 image').
Proof.
  intros H. destruct (save_params_image _ _ _ H) as (bs & Hlen & Hbytes & ->).
  do 25 (destruct bs as [|? bs]; try discriminate). clear Hlen.
  repeat match goal with
  | Hb : Forall _ (_ :: _) |- _ => apply Forall_cons in Hb as [? Hb]
  end.
  cbn [enumerate imap fold_left]. unfold write_eeprom, params_size, compose.
  split; [|split; [|split]].
  - intros a Ha. cbn.
    repeat match goal with
    | |- context [a =? ?k] => destruct (Z.eqb_spec a k); [lia|]
    end. reflexivity.
  - intros a Ha. unfold params_size in Ha.
    repeat match goal with
    | |- context [a =? ?k] => destruct (Z.eqb_spec a k); [lia|]
    end. lia.
  - reflexivity.
  - intros s0 other Hsame. rewrite !load_params_reads. f_equal. f_equal.
    apply map_ext_in. intros a Ha. apply in_range in Ha. apply Hsame. lia.
Qed.

(** X23: Saving what [load_params] has read of a saved record writes the
    same record: the coefficients it reads are single-precision values,
    which the [f] format holds as they are. *)
Theorem saving_the_loaded_params_is_stable s image image' s0 s' :
  save_params s image = Ok image' ->
  load_params s0 image' = Ok s' ->
  save_params s' image = Ok image' /\
  load_params s0 image' = load_params s' image'.
Proof.
  intros Hsave Hload.
  rewrite (load_after_save s image image' s0 Hsave) in Hload. injection Hload as <-.
  split.
  - revert Hsave. unfold save_params. cbn [analog_low_ks analog_high_ks with_ks].
    intros H. bind_inv H. injection H as <-.
    enough (Hpack : pack_params PARAMS_MAGIC (as_single3 (analog_low_ks s))
                      (as_single3 (analog_high_ks s)) = Ok x) by now rewrite Hpack.
    revert Hx. unfold pack_params.
    destruct (analog_low_ks s) as [[l0 l1] l2]. destruct (analog_high_ks s) as [[h0 h1] h2].
    unfold as_single3, as_single.
    destruct ((PARAMS_MAGIC <? 0) || (65535 <? PARAMS_MAGIC)); [auto|].
    intros Hx.
    bind_inv Hx. bind_inv Hx. bind_inv Hx. bind_inv Hx. bind_inv Hx. bind_inv Hx.
    rewrite (pack_f_as_single _ _ Hx0), (pack_f_as_single _ _ Hx1),
            (pack_f_as_single _ _ Hx2), (pack_f_as_single _ _ Hx3),
            (pack_f_as_single _ _ Hx4), (pack_f_as_single _ _ Hx5).
    exact Hx.
  - rewrite !(load_after_save s image image' _ Hsave). reflexivity.
Qed.

Lemma the_record_is_26_cells_witness :
  exists image',
    save_params BS0005 blank = Ok image' /\
    (forall a, a < 100 \/ 100 + params_size <= a -> image' a = blank a) /\
    holds_bytes image' /\
    stored_magic image' = PARAMS_MAGIC.
Proof.
  eexists. split; [reflexivity|].
  destruct (the_record_is_26_cells BS0005 blank _ eq_refl) as (H1 & H2 & H3 & _).
  exact (conj H1 (conj H2 H3)).
Defined.

Lemma saving_the_loaded_params_is_stable_witness :
  exists image' s',
    save_params BS0005 blank = Ok image' /\
    load_params BS0005 image' = Ok s' /\
    save_params s' blank = Ok image'.
Proof.
  eexists. eexists. split; [reflexivity|]. split; [vm_compute; reflexivity|].
  exact (proj1 (saving_the_loaded_params_is_stable BS0005 blank _ BS0005 _ eq_refl
                  ltac:(vm_compute; reflexivity))).
Defined.









End ParamsRecord.

(** ** The calibration coefficients and the plan on the device *)

Module Calibration.
Import Py Vm Scope PyFacts Examples CaptureProofs SessionLog CaptureData GeneratorProofs DeviceState.

Lemma same_but_refl names kw : same_but names kw kw.
Proof. induction kw; constructor; auto. Qed.

Lemma same_event_but_refl names e : same_event_but names e e.
Proof. destruct e; cbn; auto using same_but_refl. Qed.

Lemma alike_refl names w : alike names w w.
Proof.
  split; [|split; reflexivity].
  induction (log w); constructor; auto using same_event_but_refl.
Qed.

Section Agree.

Variable names : list string.

Lemma agree_ret {A : Type} (a : A) : agree names (mret a : io A) (mret a).
Proof. intros w1 w2 H. auto. Qed.

Lemma agree_lift {A : Type} (r : result A) : agree names (lift r) (lift r).
Proof. intros w1 w2 H. unfold lift. destruct r; auto. Qed.

Lemma alike_emit (e1 e2 : event) w1 w2 :
  same_event_but names e1 e2 -> alike names w1 w2 ->
  alike names (emit e1 w1).2 (emit e2 w2).2.
Proof.
  intros He (Hl & Hr & Hi). split; [|split; assumption].
  cbn. apply Forall2_app; [assumption|]. constructor; [assumption | constructor].
Qed.

Lemma agree_emit (e1 e2 : event) :
  same_event_but names e1 e2 -> agree names (emit e1) (emit e2).
Proof. intros He w1 w2 H. split; [reflexivity | now apply alike_emit]. Qed.

Lemma agree_same_emit (e : event) : agree names (emit e) (emit e).
Proof. apply agree_emit, same_event_but_refl. Qed.

Lemma agree_bind {A B : Type} (m1 m2 : io A) (k1 k2 : A -> io B) :
  agree names m1 m2 -> (forall a, agree names (k1 a) (k2 a)) ->
  agree names (m1 ≫= k1) (m2 ≫= k2).
Proof.
  intros Hm Hk w1 w2 H. unfold mbind, io_bind.
  destruct (Hm w1 w2 H) as (Ho & Hw).
  destruct (m1 w1) as [[a1 | e1 |] w1'], (m2 w2) as [[a2 | e2 |] w2'];
    cbn [fst snd] in *; try discriminate; try (split; assumption).
  - injection Ho as <-. now apply Hk.
  - injection Ho as <-. split; [reflexivity | assumption].
  - split; [reflexivity | assumption].
Qed.

Lemma agree_transaction {A : Type} (b1 b2 : io A) :
  agree names b1 b2 -> agree names (transaction b1) (transaction b2).
Proof.
  intros Hb w1 w2 H. unfold transaction.
  pose proof (alike_emit TransactionEnter TransactionEnter w1 w2 eq_refl H) as H1.
  destruct (emit TransactionEnter w1) as [o1 v1], (emit TransactionEnter w2) as [o2 v2].
  cbn [snd] in H1. destruct (Hb v1 v2 H1) as (Ho & Hw).
  destruct (b1 v1) as [[a1 | e1 |] w1'], (b2 v2) as [[a2 | e2 |] w2'];
    cbn [fst snd] in *; try discriminate; (split; [assumption|]);
    try assumption; now apply alike_emit.
Qed.

Lemma agree_read_replies (n : nat) : agree names (read_replies n) (read_replies n).
Proof.
  intros w1 w2 (Hl & Hr & Hi). unfold read_replies. rewrite Hr.
  destruct (n <=? length (replies w2))%nat; cbn; unfold alike; cbn; auto.
Qed.

Lemma agree_readexactly (n : Z) : agree names (readexactly n) (readexactly n).
Proof.
  intros w1 w2 (Hl & Hr & Hi). unfold readexactly. rewrite Hi.
  destruct (Z.to_nat n <=? length (incoming w2))%nat; cbn; unfold alike; cbn; auto.
Qed.

Lemma agree_await_trace int16 : agree names (await_trace int16) (await_trace int16).
Proof.
  intros w1 w2 (Hl & Hr & Hi). unfold await_trace. rewrite Hr.
  destruct (await_trace_on int16 (replies w2)); cbn; unfold alike; cbn; auto.
Qed.

Lemma agree_read_address int16 mult :
  agree names (read_address int16 mult) (read_address int16 mult).
Proof.
  unfold read_address. apply agree_bind; [apply agree_read_replies|].
  intros [|token r]; [apply agree_lift|].
  apply agree_bind; [apply agree_lift | intros; apply agree_ret].
Qed.

Lemma agree_dump_channels a t e address todo : forall traces,
  agree names (dump_channels a t e address todo traces)
              (dump_channels a t e address todo traces).
Proof.
  induction todo as [|[i c] todo IH]; intros traces; cbn [dump_channels].
  - apply agree_ret.
  - apply agree_bind; [|intros; apply IH]. unfold dump_one.
    apply agree_bind.
    + apply agree_transaction. unfold set_registers, issue_command.
      apply agree_bind; [apply agree_same_emit | intros _].
      apply agree_bind; [apply agree_same_emit | intros _]. apply agree_same_emit.
    + intros _. apply agree_bind; [apply agree_readexactly | intros; apply agree_lift].
Qed.

End Agree.

(** The register block of a session and that of the session with
    other calibration coefficients: both raise the same, or they are
    the same block but for the values of ConverterLo and ConverterHi. *)
Lemma capture_registers_with_ks fl s lo hi a t e :
  match capture_registers fl (with_ks s lo hi) a t e, capture_registers fl s a t e with
  | Ok kw1, Ok kw2 => same_but ["ConverterLo"; "ConverterHi"]%string kw1 kw2
  | Raise e1, Raise e2 => e1 = e2
  | _, _ => False
  end.
Proof.
  unfold capture_registers. cbn [trigger_timeout_tick with_ks].
  destruct (fdiv _ (trigger_timeout_tick s)) as [x|err]; cbn; [|reflexivity].
  destruct (round_float x) as [n|err]; cbn; [|reflexivity].
  destruct (kitchen_sink_a e); cbn; [|reflexivity].
  unfold same_but.
  repeat (constructor;
          [split; [reflexivity | first [right; reflexivity | left; cbn; tauto]]|]).
  constructor.
Qed.

Lemma search_with_ks s lo hi g clocks : forall acc,
  search (with_ks s lo hi) g clocks acc = search s g clocks acc.
Proof.
  induction clocks as [|clock clocks IH]; intros acc; [reflexivity|].
  cbn [search]. change (try_clock (with_ks s lo hi) g clock) with (try_clock s g clock).
  destruct (try_clock s g clock) as [c|e]; [|reflexivity]. cbn. apply IH.
Qed.

Lemma generator_plan_with_ks s lo hi g :
  generator_plan (with_ks s lo hi) g = generator_plan s g.
Proof.
  unfold generator_plan, possible_params.
  change (max_clock (with_ks s lo hi) g) with (max_clock s g).
  destruct (max_clock s g) as [m|e]; [|reflexivity]. cbn.
  change (awg_minimum_clock (with_ks s lo hi)) with (awg_minimum_clock s).
  now rewrite search_with_ks.
Qed.

Section Coefficients.

Variable fl : flags.
Variable int16 : string -> result Z.

(** X17: A [capture] uses the calibration coefficients for the values it
    gives to the registers ConverterLo and ConverterHi, and for nothing
    else.  Outside raw mode these are [_analog_map_func] of the
    coefficients at [low] and [high].  With other coefficients the
    capture sends the same events, register by register, but for the
    values of those two registers; it ends the same way, with the same
    traces or the same exception, and takes the same replies and
    bytes; in raw mode it sends the same values too.
    [start_generator] does not use the coefficients. *)
Theorem calibration_only_sets_the_converter s lo hi a g w :
  (forall t e kw, raw a = false -> capture_registers fl s a t e = Ok kw ->
     register "ConverterLo" kw
     = Some (VFloat (_analog_map_func (analog_low_ks s) (low_value e) (high_value e))) /\
     register "ConverterHi" kw
     = Some (VFloat (_analog_map_func (analog_high_ks s) (low_value e) (high_value e)))) /\
  Forall2 (same_event_but ["ConverterLo"; "ConverterHi"]%string)
          (log (capture fl int16 (with_ks s lo hi) a w).2)
          (log (capture fl int16 s a w).2) /\
  (capture fl int16 (with_ks s lo hi) a w).1 = (capture fl int16 s a w).1 /\
  replies (capture fl int16 (with_ks s lo hi) a w).2 = replies (capture fl int16 s a w).2 /\
  incoming (capture fl int16 (with_ks s lo hi) a w).2 = incoming (capture fl int16 s a w).2 /\
  (raw a = true -> capture fl int16 (with_ks s lo hi) a w = capture fl int16 s a w) /\
  start_generator fl (with_ks s lo hi) g w = start_generator fl s g w.
Proof.
  set (names := ["ConverterLo"; "ConverterHi"]%string).
  assert (Hagree : agree names (capture fl int16 (with_ks s lo hi) a) (capture fl int16 s a)).
  { unfold capture.
    change (capture_timing (with_ks s lo hi) a) with (capture_timing s a).
    change (capture_trigger fl (with_ks s lo hi) a) with (capture_trigger fl s a).
    apply agree_bind; [apply agree_lift | intros tm].
    apply agree_bind; [apply agree_lift | intros e].
    apply agree_bind.
    - apply agree_transaction.
      pose proof (capture_registers_with_ks fl s lo hi a tm e) as Hkw.
      destruct (capture_registers fl (with_ks s lo hi) a tm e) as [kw1|e1],
               (capture_registers fl s a tm e) as [kw2|e2]; try contradiction.
      + assert (Hsent : agree names
                  (_ ← set_registers kw1;
                   _ ← issue_command program_spock_registers;
                   _ ← issue_command configure_device_hardware;
                   issue_command triggered_trace)
                  (_ ← set_registers kw2;
                   _ ← issue_command program_spock_registers;
                   _ ← issue_command configure_device_hardware;
                   issue_command triggered_trace)).
        { unfold set_registers, issue_command.
          apply agree_bind; [apply agree_emit; exact Hkw | intros _].
          apply agree_bind; [apply agree_same_emit | intros _].
          apply agree_bind; [apply agree_same_emit | intros _]. apply agree_same_emit. }
        intros w1 w2 H. exact (Hsent w1 w2 H).
      + subst e2. intros w1 w2 H. unfold mbind, io_bind, lift. cbn. auto.
    - intros _. apply agree_bind; [apply agree_await_trace | intros _].
      apply agree_bind; [apply agree_read_address | intros address].
      apply agree_dump_channels. }
  destruct (Hagree w w (alike_refl names w)) as (Ho & Hl & Hr & Hi).
  split.
  { intros t e kw Hraw. unfold capture_registers. rewrite Hraw.
    destruct (fdiv _ _) as [x|err]; cbn; [|discriminate].
    destruct (round_float x) as [n|err]; cbn; [|discriminate].
    destruct (kitchen_sink_a e); cbn; [|discriminate].
    intros [= <-]. split; reflexivity. }
  split; [assumption|]. split; [assumption|]. split; [assumption|].
  split; [assumption|]. split.
  - intros Hraw. unfold capture.
    change (capture_timing (with_ks s lo hi) a) with (capture_timing s a).
    change (capture_trigger fl (with_ks s lo hi) a) with (capture_trigger fl s a).
    assert (Hkw : forall tm e, capture_registers fl (with_ks s lo hi) a tm e
                               = capture_registers fl s a tm e).
    { intros tm e. unfold capture_registers. rewrite Hraw. reflexivity. }
    unfold mbind, io_bind. destruct (lift (capture_timing s a) w) as [[tm | e |] w1];
      [|reflexivity|reflexivity].
    destruct (lift (capture_trigger fl s a) w1) as [[e | e |] w2];
      [|reflexivity|reflexivity].
    unfold transaction. now rewrite Hkw.
  - unfold start_generator. now rewrite generator_plan_with_ks.
Qed.

(** X21: When [start_generator] returns, the device holds the accepted
    plan: the clock divisor of the plan is the last value of the Clock
    register, its size that of Modulo and of Size; the frequency
    returned is that of the plan; and the last word of KitchenSinkB is
    the WaveformGeneratorEnable flag alone. *)
Theorem start_generator_programs_the_plan s g w actualf w' :
  start_generator fl s g w = (Returns actualf, w') ->
  exists size nwaves clock,
    generator_plan s g = Ok (size, nwaves, clock, actualf) /\
    last_register "Clock" (log w') = Some (VInt clock) /\
    last_register "Modulo" (log w') = Some (VInt size) /\
    last_register "Size" (log w') = Some (VInt size) /\
    last_register "KitchenSinkB" (log w') = Some (VInt (WaveformGeneratorEnable fl)).
Proof.
  unfold start_generator. intros H.
  apply io_bind_returns in H as (p & w1 & Hp & H).
  apply lift_returns in Hp as (Hp & ->).
  destruct p as [[[size nwaves] clock] f].
  apply io_bind_returns in H as (u & w2 & Htx & H). injection H as <- <-.
  exists size, nwaves, clock. split; [assumption|].
  assert (Hlog : exists before lv off r,
            log w2 = before ++
              [ SetRegisters [ ("Cmd"%string, VInt 0); ("Mode"%string, VInt 0);
                               ("Level"%string, VFloat lv); ("Offset"%string, VFloat off);
                               ("Ratio"%string, VFloat r); ("Index"%string, VInt 0);
                               ("Address"%string, VInt 0); ("Size"%string, VInt size) ];
                Issue translate_wavetable;
                SetRegisters [ ("Cmd"%string, VInt 2); ("Mode"%string, VInt 0);
                               ("Clock"%string, VInt clock); ("Modulo"%string, VInt size);
                               ("Mark"%string, VInt 10); ("Space"%string, VInt 1);
                               ("Rest"%string, VInt 32512); ("Option"%string, VInt 32772) ];
                Issue control_waveform_generator;
                SetRegisters [ ("KitchenSinkB"%string, VInt (WaveformGeneratorEnable fl)) ];
                Issue configure_device_hardware;
                Issue (issue ".");
                TransactionExit false ]).
  { revert Htx. unfold transaction. cbn [emit snd].
    match goal with |- context [(?body) {| log := ?l; replies := ?r; incoming := ?i |}] =>
      destruct (body {| log := l; replies := r; incoming := i |}) as [[x | e |] w3] eqn:Hbody
    end; try discriminate.
    intros [= _ <-].
    apply io_bind_returns in Hbody as (u1 & wa & _ & Hbody).
    apply io_bind_returns in Hbody as (lv & wb & Hlv & Hbody).
    apply lift_returns in Hlv as (_ & ->).
    apply io_bind_returns in Hbody as (off & wc & Hoff & Hbody).
    apply lift_returns in Hoff as (_ & ->).
    apply io_bind_returns in Hbody as (r & wd & Hr & Hbody).
    apply lift_returns in Hr as (_ & ->).
    revert Hbody. unfold mbind, io_bind, set_registers, issue_command, emit. cbn.
    intros [= _ <-]. cbn. exists (log wa), lv, off, r.
    now rewrite <- !app_assoc. }
  destruct Hlog as (before & lv & off & r & ->).
  rewrite !last_register_app. repeat split; reflexivity.
Qed.

End Coefficients.

Lemma start_generator_programs_the_plan_witness :
  exists w',
    start_generator one_bit_flags BS0005 (thousand_hertz (literal 1 (-4))) answering
    = (Returns (literal 1000 0), w') /\
    last_register "Clock" (log w') = Some (VInt 40) /\
    last_register "Modulo" (log w') = Some (VInt 1000) /\
    last_register "KitchenSinkB" (log w') = Some (VInt 64).
Proof.
  assert (Hplan : generator_plan BS0005 (thousand_hertz (literal 1 (-4)))
                  = Ok (1000, 1, 40, literal 1000 0)) by (vm_compute; reflexivity).
  eexists. split; [vm_compute; reflexivity|].
  destruct (start_generator_programs_the_plan one_bit_flags BS0005
              (thousand_hertz (literal 1 (-4))) answering _ _
              ltac:(vm_compute; reflexivity))
    as (size & nwaves & clock & Hp & Hc & Hm & _ & Hk).
  rewrite Hplan in Hp. injection Hp as <- <- <-.
  exact (conj Hc (conj Hm Hk)).
Defined.

End Calibration.
